(** * framebot plugins: a shallow embedding of [framebot/plugins.py]

    The development follows the Python module top to bottom: the plugin base
    class, the best-of reposter with its pending evaluation queue, and the
    mirrored frame poster.  Python objects live in a store of frame records
    addressed by references, the file system is a finite map from paths to
    file contents, and everything the plugin does to the outside world
    (logging, clock reads, uploads, file operations, sleeps) is appended to a
    trace.  What the outside world answers (the clock, the upload client, the
    operating system, the random generator) is an oracle indexed by the
    number of interactions made so far. *)

From stdpp Require Import gmap strings list fin_maps pretty.
From Stdlib Require Import ZArith QArith Qround Lia Lqa Ascii.

#[local] Open Scope Z_scope.

(** ** Paths, frames and files *)

(** A [pathlib.Path], as its sequence of components. *)
Abbreviation Path := (list string).

(** [Path.joinpath] with a single relative component ([pathlib] drops an
    empty component). *)
Definition joinpath (p : Path) (s : string) : Path :=
  if decide (s = "") then p else p ++ [s].

(** [Path.name]: the final component, the empty string for an empty path. *)
Definition name (p : Path) : string := default "" (last p).

(** References to Python objects. *)
Abbreviation loc := nat.

(** Modelled from the spec: the frame record of [model.FacebookFrame]
    (model.py is not part of the sources at hand).  Section 3 of the
    specification lists its attributes; [post_time] is a timestamp in
    microseconds (the resolution of [datetime]).  The frames that reach the
    queue have been uploaded, so their url and post time are set. *)
Record FacebookFrame := {
  number : Z;
  local_file : Path;
  text : string;
  photo_id : string;
  url : string;
  post_time : Z;
  reactions_total : Z;
  story_id : string;
}.

#[export] Instance FacebookFrame_inhabited : Inhabited FacebookFrame :=
  populate {| number := 0; local_file := []; text := ""; photo_id := "";
              url := ""; post_time := 0; reactions_total := 0;
              story_id := "" |}.

#[export] Instance FacebookFrame_eq_dec : EqDecision FacebookFrame.
Proof. solve_decision. Defined.

(** The attribute assignment [frame.local_file = p]. *)
Definition set_local_file (fr : FacebookFrame) (p : Path) : FacebookFrame :=
  {| number := number fr; local_file := p; text := text fr;
     photo_id := photo_id fr; url := url fr; post_time := post_time fr;
     reactions_total := reactions_total fr; story_id := story_id fr |}.

(** What a file holds: raw bytes (an image), or the JSON document written by
    [utils.safe_json_dump], a sequence of frame snapshot records. *)
Inductive FileData :=
  | Blob (bytes : string)
  | Json (frames : list FacebookFrame).

(** ** [timedelta] arithmetic

    A [timedelta] is an exact count of microseconds. *)
Definition microseconds_per_second : Z := 1000000.
Definition timedelta_hours (h : Z) : Z := h * 3600 * microseconds_per_second.
Definition timedelta_days (d : Z) : Z :=
  d * 24 * 3600 * microseconds_per_second.

(** [td / 2] on a [timedelta]: the quotient is rounded to the nearest
    microsecond, ties to even ([_divide_and_round] of [datetime.py]). *)
Definition timedelta_div2 (td : Z) : Z :=
  let q := td / 2 in
  let r := td mod 2 in
  if (r =? 1) && Z.odd q then q + 1 else q.

(** [td.total_seconds() // 3600], the whole hours in [td].  Python computes
    it in floating point; the result is the float of this integer as long as
    the microsecond count is exactly representable (below 2^52). *)
Definition whole_hours (td : Z) : Z := td / timedelta_hours 1.

(** [td.total_seconds()] for a whole number of seconds. *)
Definition total_seconds (td : Z) : Z := td / microseconds_per_second.

(** How Python prints such a float inside an f-string: ["2.0"]. *)
Definition pretty_float_of_int (n : Z) : string := pretty n +:+ ".0".

Definition nl : string := String "010"%char "".

(** ** Exceptions, log records and the trace *)

Inductive Exn :=
  | FileNotFoundError (p : Path)
  | SameFileError (p : Path)
  | IndexError
  | JSONDecodeError
  | OSError
  | UploadError.

Inductive Level := Debug | Info | Warning.

(** The log records of the module, one constructor per call site. *)
Inductive LogMsg :=
  | MsgInitializingPlugin (class_name : string)
  | MsgNoOperation (hook : string)
  | MsgFoundExistingFile (p : Path)
  | MsgCheckingForBestOf
  | MsgCheckingEntry (fr : FacebookFrame)
  | MsgUploadingFrame (p : Path)
  | MsgFileMissing (p : Path)
  | MsgProblemDuringCheck (e : Exn)
  | MsgDoneChecking
  | MsgQueueingFrame (n : Z)
  | MsgStillToCheck (n : nat)
  | MsgPostingMirrored.

(** The four hook points of a plugin. *)
Inductive HookPoint :=
  | BeforeUploadLoop
  | AfterUploadLoop
  | BeforeFrameUpload
  | AfterFrameUpload.

(** Every effect, in the order in which it happens.  Calls that can fail
    carry their outcome.  The two mutations of the in-memory queue are
    recorded as well, so that the trace shows what is written after what. *)
Inductive Event :=
  | EvLog (lvl : Level) (m : LogMsg)
  | EvNow (t : Z)
  | EvUpload (file : Path) (message album : string) (res : option string)
  | EvCopy (src dst : Path) (err : option Exn)
  | EvRemove (p : Path) (err : option Exn)
  | EvMakedirs (p : Path)
  | EvQueuePop (l : loc)
  | EvQueueAppend (l : loc)
  | EvDump (file : Path) (frames : list FacebookFrame)
  | EvSleep (seconds : Z)
  | EvMirrorPost (l : loc)
  | EvHook (plugin : string) (h : HookPoint).

#[export] Instance Exn_eq_dec : EqDecision Exn.
Proof. solve_decision. Defined.
#[export] Instance Level_eq_dec : EqDecision Level.
Proof. solve_decision. Defined.
#[export] Instance LogMsg_eq_dec : EqDecision LogMsg.
Proof. solve_decision. Defined.
#[export] Instance HookPoint_eq_dec : EqDecision HookPoint.
Proof. solve_decision. Defined.
#[export] Instance Event_eq_dec : EqDecision Event.
Proof. solve_decision. Defined.

(** ** The world and the program state *)

(** The answers of the outside world, indexed by the number of interactions
    made so far. *)
Record Env := {
  clock : nat → Z;                      (* what [datetime.now()] returns *)
  upload_result : nat → option string;  (* photo id, or the client raises *)
  os_error : nat → bool;                (* the OS refuses a file operation *)
  random_value : nat → Q;               (* what [random()] returns *)
}.

Record State := {
  objs : gmap loc FacebookFrame;   (* the frame objects *)
  yet_to_check : list loc;         (* [self.yet_to_check] *)
  time_threshold : Z;              (* [self.time_threshold] *)
  fs : gmap Path FileData;         (* the files that exist *)
  trace : list Event;
  tick : nat;
}.

Definition with_objs (o : gmap loc FacebookFrame) (s : State) : State :=
  {| objs := o; yet_to_check := yet_to_check s;
     time_threshold := time_threshold s; fs := fs s; trace := trace s;
     tick := tick s |}.
Definition with_yet_to_check (q : list loc) (s : State) : State :=
  {| objs := objs s; yet_to_check := q; time_threshold := time_threshold s;
     fs := fs s; trace := trace s; tick := tick s |}.
Definition with_time_threshold (t : Z) (s : State) : State :=
  {| objs := objs s; yet_to_check := yet_to_check s; time_threshold := t;
     fs := fs s; trace := trace s; tick := tick s |}.
Definition with_fs (f : gmap Path FileData) (s : State) : State :=
  {| objs := objs s; yet_to_check := yet_to_check s;
     time_threshold := time_threshold s; fs := f; trace := trace s;
     tick := tick s |}.
Definition with_trace (t : list Event) (s : State) : State :=
  {| objs := objs s; yet_to_check := yet_to_check s;
     time_threshold := time_threshold s; fs := fs s; trace := t;
     tick := tick s |}.
Definition with_tick (n : nat) (s : State) : State :=
  {| objs := objs s; yet_to_check := yet_to_check s;
     time_threshold := time_threshold s; fs := fs s; trace := trace s;
     tick := n |}.

(** The object behind a reference.  A Python reference always denotes a live
    object; states in which every queued reference is in the store
    ([queue_live] below) never reach the default. *)
Definition deref (o : gmap loc FacebookFrame) (l : loc) : FacebookFrame :=
  o !!! l.

(** What [json] serialises for a queue: the current attribute values, in
    queue order. *)
Definition snapshot (o : gmap loc FacebookFrame) (q : list loc)
  : list FacebookFrame := deref o <$> q.

(** ** A state and exception monad *)

Inductive Res (A : Type) :=
  | Ok (a : A)
  | Raise (e : Exn).
Arguments Ok {A} a.
Arguments Raise {A} e.

Definition M (A : Type) : Type := State → Res A * State.

#[export] Instance M_ret : MRet M := λ A a s, (Ok a, s).
#[export] Instance M_bind : MBind M := λ A B k m s,
  match m s with
  | (Ok a, s') => k a s'
  | (Raise e, s') => (Raise e, s')
  end.

Definition raise {A} (e : Exn) : M A := λ s, (Raise e, s).
Definition gets {A} (f : State → A) : M A := λ s, (Ok (f s), s).
Definition modify (f : State → State) : M unit := λ s, (Ok tt, f s).

(** [try: m except Exception as e: ...] up to the handler: the outcome of
    [m] becomes a value. *)
Definition try_ {A} (m : M A) : M (Res A) := λ s,
  let '(r, s') := m s in (Ok r, s').

Definition emit (e : Event) : M unit :=
  modify (λ s, with_trace (trace s ++ [e]) s).

(** One more interaction with the outside world; returns its index. *)
Definition interact : M nat := λ s, (Ok (tick s), with_tick (S (tick s)) s).

(** ** The library calls the plugins make *)

Definition logger_debug (m : LogMsg) : M unit := emit (EvLog Debug m).
Definition logger_info (m : LogMsg) : M unit := emit (EvLog Info m).
Definition logger_warning (m : LogMsg) : M unit := emit (EvLog Warning m).

Definition datetime_now (E : Env) : M Z :=
  n ← interact;
  emit (EvNow (clock E n));;
  mret (clock E n).

Definition os_path_exists (p : Path) : M bool :=
  gets (λ s, bool_decide (is_Some (fs s !! p))).

(** [facebook_helper.upload_photo]: the opaque client; it returns the id of
    the new photo or raises. *)
Definition upload_photo (E : Env) (file : Path) (message album : string)
  : M string :=
  n ← interact;
  emit (EvUpload file message album (upload_result E n));;
  match upload_result E n with
  | Some id => mret id
  | None => raise UploadError
  end.

(** [shutil.copyfile src dst]: refuses to copy a file onto itself, needs the
    source to exist, and replaces the destination. *)
Definition shutil_copyfile (E : Env) (src dst : Path) : M unit :=
  n ← interact;
  files ← gets fs;
  if decide (src = dst) then
    emit (EvCopy src dst (Some (SameFileError src)));;
    raise (SameFileError src)
  else match files !! src with
  | None =>
      emit (EvCopy src dst (Some (FileNotFoundError src)));;
      raise (FileNotFoundError src)
  | Some data =>
      if os_error E n then
        emit (EvCopy src dst (Some OSError));;
        raise OSError
      else
        modify (with_fs (<[dst := data]> files));;
        emit (EvCopy src dst None)
  end.

(** [os.remove p]: raises [FileNotFoundError] when there is no such file. *)
Definition os_remove (E : Env) (p : Path) : M unit :=
  n ← interact;
  files ← gets fs;
  match files !! p with
  | None =>
      emit (EvRemove p (Some (FileNotFoundError p)));;
      raise (FileNotFoundError p)
  | Some _ =>
      if os_error E n then
        emit (EvRemove p (Some OSError));;
        raise OSError
      else
        modify (with_fs (delete p files));;
        emit (EvRemove p None)
  end.

Definition os_makedirs (p : Path) : M unit := emit (EvMakedirs p).

Definition time_sleep (E : Env) (seconds : Z) : M unit :=
  interact;;
  emit (EvSleep seconds).

(** Modelled from the spec: [utils.safe_json_dump] (utils.py is not part of
    the sources at hand).  Section 6 of the specification: the pending-queue
    file holds the sequence of frame snapshot records in enqueue order and is
    rewritten wholesale; the specification gives the write no failure mode. *)
Definition safe_json_dump (file : Path) (q : list loc) : M unit :=
  o ← gets objs;
  files ← gets fs;
  modify (with_fs (<[file := Json (snapshot o q)]> files));;
  emit (EvDump file (snapshot o q)).

(** [copy.copy frame]: a new object with the same attribute values. *)
Definition copy_copy (frame : loc) : M loc :=
  o ← gets objs;
  let l := fresh (dom o) in
  modify (with_objs (<[l := deref o frame]> o));;
  mret l.

(** [frame.local_file = p] *)
Definition setattr_local_file (frame : loc) (p : Path) : M unit :=
  o ← gets objs;
  modify (with_objs (<[frame := set_local_file (deref o frame) p]> o)).

(** The objects that deserialising a sequence of frame records creates, one
    new object per record, in order. *)
Fixpoint new_objects (frames : list FacebookFrame) : M (list loc) :=
  match frames with
  | [] => mret []
  | fr :: rest =>
      o ← gets objs;
      let l := fresh (dom o) in
      modify (with_objs (<[l := fr]> o));;
      ls ← new_objects rest;
      mret (l :: ls)
  end.

(** Modelled from the spec: [utils.load_obj_from_json_file] (utils.py is
    not part of the sources at hand).  Section 4.5 of the specification: a
    persisted queue file is loaded verbatim as the queue.  A file that is
    not such a document makes the load raise. *)
Definition load_obj_from_json_file (file : Path) : M (list loc) :=
  files ← gets fs;
  match files !! file with
  | Some (Json frames) => new_objects frames
  | Some (Blob _) => raise JSONDecodeError
  | None => raise (FileNotFoundError file)
  end.

(** ** [class FramebotPlugin] *)

(** A plugin type, named by its class. *)
Abbreviation PluginType := string.



(** The four hooks of the base class only log. *)
Definition FramebotPlugin_before_upload_loop : M unit :=
  logger_debug (MsgNoOperation "before_upload_loop").
Definition FramebotPlugin_after_upload_loop : M unit :=
  logger_debug (MsgNoOperation "after_upload_loop").
Definition FramebotPlugin_before_frame_upload (frame : loc) : M unit :=
  logger_debug (MsgNoOperation "before_frame_upload").
Definition FramebotPlugin_after_frame_upload (frame : loc) : M unit :=
  logger_debug (MsgNoOperation "after_frame_upload").

(** ** [class BestOfReposter] *)

(** The attributes the constructor sets once; the queue and the time
    threshold, which change, are in the state. *)
Record BestOfReposter := {
  album_id : string;
  video_title : string;
  reactions_threshold : Z;
  yet_to_check_file : Path;
  album_path : Path;
  frames_dir : Path;
  store_best_ofs : bool;
}.

(** The caption of a best-of repost. *)
Definition best_of_message (elapsed_time : Z) (fr : FacebookFrame) : string :=
  ("Reactions after " +:+ pretty_float_of_int (whole_hours elapsed_time)
     +:+ " hours : " +:+ pretty (reactions_total fr) +:+ "." +:+ nl)
  +:+ ("Original post: " +:+ url fr +:+ nl +:+ nl)
  +:+ text fr.

(** The file name under which a best-of frame is archived. *)
Definition best_of_file_name (fr : FacebookFrame) : string :=
  "Frame " +:+ pretty (number fr) +:+ " id " +:+ story_id fr
    +:+ " reactions " +:+ pretty (reactions_total fr).

(** [self.yet_to_check.pop(0)] *)
Definition queue_pop : M unit :=
  q ← gets yet_to_check;
  match q with
  | [] => raise IndexError
  | l :: rest => modify (with_yet_to_check rest);; emit (EvQueuePop l)
  end.

(** [self.yet_to_check.append(frame)] *)
Definition queue_append (frame : loc) : M unit :=
  q ← gets yet_to_check;
  modify (with_yet_to_check (q ++ [frame]));;
  emit (EvQueueAppend frame).

(** [BestOfReposter._check_for_existing_status] *)
Definition _check_for_existing_status (self : BestOfReposter) : M unit :=
  there ← os_path_exists (yet_to_check_file self);
  if there : bool then
    logger_info (MsgFoundExistingFile (yet_to_check_file self));;
    q ← load_obj_from_json_file (yet_to_check_file self);
    modify (with_yet_to_check q)
  else mret tt.

(** The body of the loop of [_advance_bests] up to the pop, for the head
    [frame_to_check] of the queue.  It returns the new value of
    [checked_all]: [true] when the head is too young, [false] when the head
    has been dealt with and is to be popped next. *)
Definition check_head (self : BestOfReposter) (E : Env) (frame_to_check : loc)
  : M bool :=
  o ← gets objs;
  let fr := deref o frame_to_check in
  let timestamp := post_time fr in
  now ← datetime_now E;
  let elapsed_time := now - timestamp in
  threshold ← gets time_threshold;
  if elapsed_time <? threshold then mret true
  else
    logger_info (MsgCheckingEntry fr);;
    (if reactions_threshold self <? reactions_total fr then
       logger_info (MsgUploadingFrame (local_file fr));;
       let message := best_of_message elapsed_time fr in
       there ← os_path_exists (local_file fr);
       if there : bool then
         upload_photo E (local_file fr) message (album_id self);;
         shutil_copyfile E (local_file fr)
           (joinpath (album_path self) (best_of_file_name fr))
       else
         logger_info (MsgFileMissing (local_file fr))
     else
       os_remove E (local_file fr));;
    mret false.

(** One iteration of the loop of [_advance_bests]: the head is checked and,
    unless it is too young, popped, and the queue is written to its file.
    It returns [checked_all]. *)
Definition advance_step (self : BestOfReposter) (E : Env)
    (frame_to_check : loc) : M bool :=
  checked_all ← check_head self E frame_to_check;
  if checked_all : bool then mret true
  else
    queue_pop;;
    q ← gets yet_to_check;
    safe_json_dump (yet_to_check_file self) q;;
    mret false.

(** The [while] loop of [_advance_bests], inside its [try].  The argument
    [q] is [self.yet_to_check] at the loop test; since the only change an
    iteration makes to the queue is to pop its head, the loop recurses on
    the tail.  The result pairs how the [try] block ended with the final
    value of [modified], which the [finally] clause reads. *)
Fixpoint advance_loop (self : BestOfReposter) (E : Env) (q : list loc)
    (modified : bool) : M (Res unit * bool) :=
  match q with
  | [] => mret (Ok tt, modified)
  | frame_to_check :: rest =>
      r ← try_ (advance_step self E frame_to_check);
      match r with
      | Raise e => mret (Raise e, modified)
      | Ok true => mret (Ok tt, modified)
      | Ok false => advance_loop self E rest true
      end
  end.

(** [BestOfReposter._advance_bests] *)
Definition _advance_bests (self : BestOfReposter) (E : Env) : M unit :=
  logger_info MsgCheckingForBestOf;;
  q ← gets yet_to_check;
  '(r, modified) ← advance_loop self E q false;
  match r with
  | Raise e => logger_warning (MsgProblemDuringCheck e)
  | Ok _ => mret tt
  end;;
  (if modified : bool then
     q ← gets yet_to_check;
     safe_json_dump (yet_to_check_file self) q
   else mret tt);;
  logger_info MsgDoneChecking.

(** [BestOfReposter._queue_frame_for_check] *)
Definition _queue_frame_for_check (self : BestOfReposter) (E : Env)
    (frame : loc) : M unit :=
  o ← gets objs;
  logger_info (MsgQueueingFrame (number (deref o frame)));;
  frame ← copy_copy frame;
  o ← gets objs;
  let new_file_path :=
    joinpath (frames_dir self) (name (local_file (deref o frame))) in
  shutil_copyfile E (local_file (deref o frame)) new_file_path;;
  setattr_local_file frame new_file_path;;
  queue_append frame;;
  q ← gets yet_to_check;
  safe_json_dump (yet_to_check_file self) q.

(** One round of the loop of [_handle_quicker]: a pass, then an hour of
    sleep if entries remain. *)
Definition drain_round (self : BestOfReposter) (E : Env) : M unit :=
  _advance_bests self E;;
  q ← gets yet_to_check;
  match q with
  | [] => mret tt
  | _ :: _ =>
      logger_info (MsgStillToCheck (length q));;
      time_sleep E (total_seconds (timedelta_hours 1))
  end.

(** The loop [while self.yet_to_check: ...] of [_handle_quicker].  Nothing
    bounds the number of rounds, so the model counts them down from [fuel];
    [None] means that [fuel] rounds were not enough. *)
Fixpoint drain_loop (self : BestOfReposter) (E : Env) (fuel : nat)
    (s : State) : option (Res unit * State) :=
  match yet_to_check s with
  | [] => Some (Ok tt, s)
  | _ :: _ =>
      match fuel with
      | O => None
      | S fuel' =>
          match drain_round self E s with
          | (Ok _, s') => drain_loop self E fuel' s'
          | (Raise e, s') => Some (Raise e, s')
          end
      end
  end.

(** [BestOfReposter._handle_quicker] *)
Definition _handle_quicker (self : BestOfReposter) (E : Env) (fuel : nat)
    (s : State) : option (Res unit * State) :=
  drain_loop self E fuel
    (with_time_threshold (timedelta_div2 (time_threshold s)) s).

(** The hooks of the best-of plugin. *)
Definition BestOfReposter_before_upload_loop (self : BestOfReposter)
  : M unit :=
  _check_for_existing_status self.

Definition BestOfReposter_before_frame_upload (self : BestOfReposter)
    (E : Env) (frame : loc) : M unit :=
  _advance_bests self E.

Definition BestOfReposter_after_frame_upload (self : BestOfReposter)
    (E : Env) (frame : loc) : M unit :=
  _queue_frame_for_check self E frame.

Definition BestOfReposter_after_upload_loop (self : BestOfReposter)
    (E : Env) (fuel : nat) (s : State) : option (Res unit * State) :=
  _handle_quicker self E fuel s.

(** *** The attributes the constructor sets

    A Python [str] is a sequence of characters; the operations on text work
    on the list of the characters of a string. *)

(** [s.replace(old, new)] for a one-character [old] and [new]. *)
Definition str_replace (old new : ascii) (s : list ascii) : list ascii :=
  (λ c, if decide (c = old) then new else c) <$> s.

(** [s.split(sep)] for a one-character [sep]: the pieces between the
    separators, in order, one more than there are separators. *)
Fixpoint str_split (sep : ascii) (s : list ascii) : list (list ascii) :=
  match s with
  | [] => [[]]
  | c :: s' =>
      if decide (c = sep) then [] :: str_split sep s'
      else match str_split sep s' with
           | [] => [[c]]
           | piece :: pieces => (c :: piece) :: pieces
           end
  end.

(** [normalized_video_title] of [BestOfReposter.__init__]: the title after
    ["Bestof_"], with the path separator replaced by a dash and spaces by
    underscores, of which the characters that are alphanumeric or one of
    [._- ] are kept.  The classification [str.isalnum] of characters and
    the separator [os.path.sep] of the platform are arguments. *)
Definition normalized_video_title (isalnum : ascii → bool) (sep : ascii)
    (video_title : string) : string :=
  String.string_of_list_ascii
    (filter
       (λ x, isalnum x = true ∨ x ∈ String.list_ascii_of_string "._- ")
       (String.list_ascii_of_string "Bestof_"
          ++ str_replace " " "_"
               (str_replace sep "-"
                  (String.list_ascii_of_string video_title)))).

(** The attributes that [BestOfReposter.__init__] sets once, given the
    working directory [local_directory] that the constructor of the base
    class has set. *)
Definition BestOfReposter_attributes (isalnum : ascii → bool) (sep : ascii)
    (local_directory : Path) (album_id video_title : string)
    (reactions_threshold : Z) (yet_to_check_file : string)
    (store_best_ofs : bool) : BestOfReposter :=
  let normalized_video_title :=
    normalized_video_title isalnum sep video_title in
  {| album_id := album_id;
     video_title := video_title;
     reactions_threshold := reactions_threshold;
     yet_to_check_file := joinpath local_directory yet_to_check_file;
     album_path :=
       joinpath (joinpath local_directory "albums") normalized_video_title;
     frames_dir :=
       joinpath (joinpath local_directory "frames_to_check")
         normalized_video_title;
     store_best_ofs := store_best_ofs |}.

(** The same plugin with another value of [store_best_ofs]. *)
Definition set_store_best_ofs (b : bool) (self : BestOfReposter)
  : BestOfReposter :=
  {| album_id := album_id self; video_title := video_title self;
     reactions_threshold := reactions_threshold self;
     yet_to_check_file := yet_to_check_file self;
     album_path := album_path self; frames_dir := frames_dir self;
     store_best_ofs := b |}.

(** ** [class MirroredFramePoster] *)

Record MirroredFramePoster := {
  mirror_album_id : string;
  ratio : Q;
  bot_name : string;
  mirror_original_message : bool;
  extra_message : string;
}.

(** The default of the constructor's [ratio] argument, [0.5]. *)
Definition default_ratio : Q := 1 # 2.

(** [x > y] on the numbers [random()] and [ratio] range over.  Python
    computes with binary floating point; the model computes with exact
    rationals. *)
Definition Qgt_bool (x y : Q) : bool := negb (Qle_bool x y).

(** [MirroredFramePoster._post_mirror_frame].  Mirroring the image and the
    text is the work of collaborators outside this development; the model
    keeps the call to the client, which returns the photo id or raises. *)
Definition _post_mirror_frame (self : MirroredFramePoster) (E : Env)
    (frame : loc) : M string :=
  n ← interact;
  emit (EvMirrorPost frame);;
  match upload_result E n with
  | Some id => mret id
  | None => raise UploadError
  end.

(** [random()] *)
Definition random (E : Env) : M Q :=
  n ← interact;
  mret (random_value E n).

(** [MirroredFramePoster.after_frame_upload] *)
Definition MirroredFramePoster_after_frame_upload
    (self : MirroredFramePoster) (E : Env) (frame : loc) : M unit :=
  r ← random E;
  if Qgt_bool r (1 - ratio self / 100)%Q then
    logger_info MsgPostingMirrored;;
    _post_mirror_frame self E frame;;
    mret tt
  else mret tt.

(** *** The mirrored text and image *)

(** The attributes that [MirroredFramePoster.__init__] sets; without an
    [extra_message] the message is a signature with the name of the bot. *)
Definition MirroredFramePoster_attributes (album_id : string) (ratio : Q)
    (bot_name : string) (mirror_original_message : bool)
    (extra_message : option string) : MirroredFramePoster :=
  {| mirror_album_id := album_id;
     ratio := ratio;
     bot_name := bot_name;
     mirror_original_message := mirror_original_message;
     extra_message :=
       default ("Just a randomly mirrored image." +:+ nl +:+ "-" +:+ bot_name)
         extra_message |}.

(** A mirrored line of text,
    [line[:len(line) // 2] + line[len(line) // 2::-1]]: the first half of
    the line, then the line up to and including its middle character, read
    backwards. *)
Definition mirror_line (line : list ascii) : list ascii :=
  let half := (length line / 2)%nat in
  take half line ++ reverse (take (S half) line).

(** The message that [_post_mirror_frame] builds for the text of a
    frame. *)
Definition mirror_message (self : MirroredFramePoster) (text : string)
  : string :=
  let lines := str_split "010" (String.list_ascii_of_string text) in
  let message : list ascii := [] in
  let message :=
    if mirror_original_message self then
      foldl (λ message line, message ++ mirror_line line ++ ["010"%char])
        message lines
    else message in
  let message :=
    if decide (extra_message self ≠ "") then
      (if mirror_original_message self then message ++ ["010"%char]
       else message)
        ++ String.list_ascii_of_string (extra_message self)
    else message in
  String.string_of_list_ascii message.

(** An image of [PIL]: its size and the pixel at each position, [x]
    counted from the left and [y] from the top. *)
Record Image (Pixel : Type) := {
  Image_width : nat;
  Image_height : nat;
  Image_getpixel : nat → nat → Pixel;
}.
Arguments Image_width {Pixel} _.
Arguments Image_height {Pixel} _.
Arguments Image_getpixel {Pixel} _ _ _.

(** [im.crop((left, upper, right, lower))] *)
Definition Image_crop {Pixel} (im : Image Pixel) (box : nat * nat * nat * nat)
  : Image Pixel :=
  let '(x0, y0, x1, y1) := box in
  {| Image_width := (x1 - x0)%nat;
     Image_height := (y1 - y0)%nat;
     Image_getpixel := λ x y, Image_getpixel im (x0 + x)%nat (y0 + y)%nat |}.

(** [ImageOps.mirror(im)]: the image flipped left to right. *)
Definition ImageOps_mirror {Pixel} (im : Image Pixel) : Image Pixel :=
  {| Image_width := Image_width im;
     Image_height := Image_height im;
     Image_getpixel := λ x y,
       Image_getpixel im (Image_width im - 1 - x)%nat y |}.

(** [im.paste(other, (x0, y0))]: [other] covers [im] from the corner
    [(x0, y0)] on. *)
Definition Image_paste {Pixel} (im other : Image Pixel) (corner : nat * nat)
  : Image Pixel :=
  let '(x0, y0) := corner in
  {| Image_width := Image_width im;
     Image_height := Image_height im;
     Image_getpixel := λ x y,
       if bool_decide ((x0 ≤ x < x0 + Image_width other)%nat
                       ∧ (y0 ≤ y < y0 + Image_height other)%nat)
       then Image_getpixel other (x - x0)%nat (y - y0)%nat
       else Image_getpixel im x y |}.

(** The image that [_post_mirror_frame] posts: the left half, flipped,
    pasted over the right half. *)
Definition mirror_image {Pixel} (im : Image Pixel) : Image Pixel :=
  let flipped_half :=
    ImageOps_mirror
      (Image_crop im (0, 0, Image_width im / 2, Image_height im))%nat in
  Image_paste im flipped_half (Image_width im / 2, 0)%nat.

(** ** The plugin host *)


(** ** Observations on traces and states *)

(** The references popped from the queue, in the order of the pops. *)
Definition pops (evs : list Event) : list loc :=
  omap (λ e, match e with EvQueuePop l => Some l | _ => None end) evs.

(** The frames whose check was started ("Checking entry ..."), in order. *)
Definition checked (evs : list Event) : list FacebookFrame :=
  omap (λ e, match e with
             | EvLog Info (MsgCheckingEntry fr) => Some fr
             | _ => None
             end) evs.

(** The clock readings, in order. *)
Definition readings (evs : list Event) : list Z :=
  omap (λ e, match e with EvNow t => Some t | _ => None end) evs.

(** The latest clock reading of [evs], or [now] if there is none. *)
Definition last_reading (now : option Z) (evs : list Event) : option Z :=
  match last (readings evs) with
  | Some t => Some t
  | None => now
  end.

(** Every event paired with the latest clock reading made before it. *)
Fixpoint stamp (now : option Z) (evs : list Event)
  : list (option Z * Event) :=
  match evs with
  | [] => []
  | EvNow t :: evs' => (now, EvNow t) :: stamp (Some t) evs'
  | e :: evs' => (now, e) :: stamp now evs'
  end.

(** The exception with which a call failed, if it did. *)
Definition failure_of (e : Event) : option Exn :=
  match e with
  | EvUpload _ _ _ None => Some UploadError
  | EvCopy _ _ (Some x) => Some x
  | EvRemove _ (Some x) => Some x
  | _ => None
  end.

(** What an iteration may do between "Checking entry" and the pop. *)
Definition entry_work (e : Event) : bool :=
  match e with
  | EvLog Info (MsgUploadingFrame _) | EvLog Info (MsgFileMissing _)
  | EvUpload _ _ _ _ | EvCopy _ _ _ | EvRemove _ _ => true
  | _ => false
  end.

(** The queue file holds exactly the in-memory queue. *)
Definition in_sync (self : BestOfReposter) (s : State) : Prop :=
  fs s !! yet_to_check_file self
    = Some (Json (snapshot (objs s) (yet_to_check s))).

(** Every queued reference denotes an object of the store. *)
Definition queue_live (s : State) : Prop :=
  Forall (λ l, is_Some (objs s !! l)) (yet_to_check s).

(** An entry is eligible at a clock reading when the time threshold has
    elapsed since its post time. *)
Definition eligible (threshold : Z) (fr : FacebookFrame) (now : Z) : Prop :=
  threshold ≤ now - post_time fr.

(** A stamped event is timely when, if it starts the check of an entry or
    pops one, that entry was eligible at the latest clock reading. *)
Definition timely (o : gmap loc FacebookFrame) (threshold : Z)
    (p : option Z * Event) : Prop :=
  match p.2 with
  | EvLog Info (MsgCheckingEntry fr) =>
      ∃ t, p.1 = Some t ∧ eligible threshold fr t
  | EvQueuePop l =>
      ∃ t, p.1 = Some t ∧ eligible threshold (deref o l) t
  | _ => True
  end.

(** The events with which the check of the head [l] starts, at the clock
    reading [t]; and the events with which it ends when the head is popped
    and [q] remains. *)
Definition check_start (o : gmap loc FacebookFrame) (l : loc) (t : Z)
  : list Event :=
  [EvNow t; EvLog Info (MsgCheckingEntry (deref o l))].

Definition pop_and_dump (o : gmap loc FacebookFrame) (file : Path)
    (l : loc) (q : list loc) : list Event :=
  [EvQueuePop l; EvDump file (snapshot o q)].

(** The shape of the events of the loop of a pass over the queue [q]: one
    segment per popped entry, each a clock reading, the "Checking entry"
    record, the work on the entry, the pop and the dump of what remains;
    then the end of the loop, which leaves the queue [q'] and is either
    normal (empty queue, or a head that is too young) or an exception
    raised by the last call of the work on the head. *)
Inductive pass_trace (o : gmap loc FacebookFrame) (file : Path)
    (threshold : Z)
  : list loc → list Event → list loc → Res unit → Prop :=
  | pass_empty :
      pass_trace o file threshold [] [] [] (Ok tt)
  | pass_young l q t :
      ¬ eligible threshold (deref o l) t →
      pass_trace o file threshold (l :: q) [EvNow t] (l :: q) (Ok tt)
  | pass_raise l q t work ev e :
      eligible threshold (deref o l) t →
      Forall (λ e, entry_work e = true) (work ++ [ev]) →
      Forall (λ e, failure_of e = None) work →
      failure_of ev = Some e →
      pass_trace o file threshold (l :: q)
        (check_start o l t ++ work ++ [ev])
        (l :: q) (Raise e)
  | pass_pop l q t work evs q' r :
      eligible threshold (deref o l) t →
      Forall (λ e, entry_work e = true) work →
      Forall (λ e, failure_of e = None) work →
      pass_trace o file threshold q evs q' r →
      pass_trace o file threshold (l :: q)
        (check_start o l t ++ work ++ pop_and_dump o file l q ++ evs)
        q' r.

(** A blocked queue: its head has too few reactions for a repost, has lost
    its local copy, and is eligible whenever the clock is read. *)
Definition blocked (self : BestOfReposter) (E : Env) (s : State) : Prop :=
  ∃ l rest,
    yet_to_check s = l :: rest ∧
    (∀ n, eligible (time_threshold s) (deref (objs s) l) (clock E n)) ∧
    reactions_total (deref (objs s) l) ≤ reactions_threshold self ∧
    fs s !! local_file (deref (objs s) l) = None.

(** What the [except] clause of [_advance_bests] logs for the way the [try]
    block ended, and what its [finally] clause writes. *)
Definition handler_events (r : Res unit) : list Event :=
  match r with
  | Raise e => [EvLog Warning (MsgProblemDuringCheck e)]
  | Ok _ => []
  end.

Definition finally_events (file : Path) (frames : list FacebookFrame)
    (modified : bool) : list Event :=
  if modified then [EvDump file frames] else [].

(** The state after [n] rounds of the loop of [_handle_quicker]. *)
Fixpoint after_rounds (self : BestOfReposter) (E : Env) (n : nat)
    (s : State) : State :=
  match n with
  | O => s
  | S n' => after_rounds self E n' (drain_round self E s).2
  end.





(** The sleeps, in seconds, in order. *)
Definition sleeps (evs : list Event) : list Z :=
  omap (λ e, match e with EvSleep seconds => Some seconds | _ => None end)
    evs.

(** The number of passes started. *)
Definition passes (evs : list Event) : nat :=
  length (filter (λ e, e = EvLog Info MsgCheckingForBestOf) evs).

(** The files that the client accepted, in order. *)
Definition uploaded (evs : list Event) : list Path :=
  omap (λ e, match e with
             | EvUpload file _ _ (Some _) => Some file
             | _ => None
             end) evs.

(** A call of one of the two hooks that the upload loop makes around the
    upload of a frame. *)
Inductive HookCall :=
  | CallBeforeFrameUpload (frame : loc)
  | CallAfterFrameUpload (frame : loc).

Definition call_hook (self : BestOfReposter) (E : Env) (c : HookCall)
  : M unit :=
  match c with
  | CallBeforeFrameUpload frame =>
      BestOfReposter_before_frame_upload self E frame
  | CallAfterFrameUpload frame =>
      BestOfReposter_after_frame_upload self E frame
  end.

(** The state after a sequence of hook calls, whether they return or
    raise. *)
Definition after_calls (self : BestOfReposter) (E : Env)
    (calls : list HookCall) (s : State) : State :=
  foldl (λ s c, (call_hook self E c s).2) s calls.

(** The queue file tells what the queue holds: it holds exactly the queue,
    or there is no file yet and the queue is empty. *)
Definition persisted (self : BestOfReposter) (s : State) : Prop :=
  in_sync self s
  ∨ (yet_to_check s = [] ∧ fs s !! yet_to_check_file self = None).

(** What a call of the client, a copy or a removal has to be for it to
    belong to the check of the entry [fr] at the clock reading [t]. *)
Definition belongs_to_check (self : BestOfReposter) (threshold : Z)
    (fr : FacebookFrame) (t : Z) (e : Event) : Prop :=
  match e with
  | EvUpload file message album _ =>
      eligible threshold fr t ∧
      reactions_threshold self < reactions_total fr ∧
      file = local_file fr ∧
      message = best_of_message (t - post_time fr) fr ∧
      album = album_id self
  | EvCopy src dst _ =>
      eligible threshold fr t ∧
      reactions_threshold self < reactions_total fr ∧
      src = local_file fr ∧
      dst = joinpath (album_path self) (best_of_file_name fr)
  | EvRemove p _ =>
      eligible threshold fr t ∧
      reactions_total fr ≤ reactions_threshold self ∧
      p = local_file fr
  | _ => True
  end.

(** An upload, a copy or a removal among [evs] is accounted for when it
    belongs to the check of an entry of the queue [q] at a clock reading
    of [evs]. *)
Definition accounted_for (self : BestOfReposter) (o : gmap loc FacebookFrame)
    (threshold : Z) (q : list loc) (evs : list Event) (e : Event) : Prop :=
  match e with
  | EvUpload _ _ _ _ | EvCopy _ _ _ | EvRemove _ _ =>
      ∃ l t, l ∈ q ∧ EvNow t ∈ evs ∧
             belongs_to_check self threshold (deref o l) t e
  | _ => True
  end.

(** A queue whose checks find what they need on disk: the held copy of
    every entry whose reactions do not exceed the threshold exists, these
    held copies are different files, and no entry whose reactions exceed
    the threshold has its held copy at its own place in the album
    directory. *)
Definition checkable (self : BestOfReposter) (o : gmap loc FacebookFrame)
    (files : gmap Path FileData) (q : list loc) : Prop :=
  let unpopular :=
    filter (λ fr, reactions_total fr ≤ reactions_threshold self)
      (snapshot o q) in
  Forall (λ fr, is_Some (files !! local_file fr)) unpopular ∧
  NoDup (local_file <$> unpopular) ∧
  Forall (λ fr, reactions_threshold self < reactions_total fr →
                local_file fr
                ≠ joinpath (album_path self) (best_of_file_name fr))
    (snapshot o q).

(** ** Concrete scenarios *)

Module Scenario.

(** A best-of plugin with a reactions threshold of 100. *)
Definition plugin_dir : Path := ["plugins"; "BestOfReposter"].

Definition self : BestOfReposter :=
  {| album_id := "bestof";
     video_title := "Movie";
     reactions_threshold := 100;
     yet_to_check_file := plugin_dir ++ ["bofc.json"];
     album_path := plugin_dir ++ ["albums"; "Bestof_Movie"];
     frames_dir := plugin_dir ++ ["frames_to_check"; "Bestof_Movie"];
     store_best_ofs := true |}.

Definition held (n : string) : Path := frames_dir self ++ [n].

(** A queued frame posted at time 0, with the given reaction count. *)
Definition queued (n : Z) (reactions : Z) : FacebookFrame :=
  {| number := n;
     local_file := held (pretty n +:+ ".jpg");
     text := "Movie" +:+ nl +:+ "Frame " +:+ pretty n +:+ " of 20";
     photo_id := "photo" +:+ pretty n;
     url := "https://example.org/photo" +:+ pretty n;
     post_time := 0;
     reactions_total := reactions;
     story_id := "story" +:+ pretty n |}.

(** A world in which it is always two hours after time 0, the client
    accepts every upload and the operating system never interferes. *)
Definition calm : Env :=
  {| clock := λ _, timedelta_hours 2;
     upload_result := λ _, Some "reposted"%string;
     os_error := λ _, false;
     random_value := λ _, (999 # 1000)%Q |}.

(** A world like [calm] in which the client refuses every upload. *)
Definition offline : Env :=
  {| clock := λ _, timedelta_hours 2;
     upload_result := λ _, None;
     os_error := λ _, false;
     random_value := λ _, 0%Q |}.

(** One entry in the queue, its local copy on disk or not, the queue file
    in sync, and a time threshold of one hour. *)
Definition one_entry (reactions : Z) (present : bool) : State :=
  {| objs := {[ 0%nat := queued 7 reactions ]};
     yet_to_check := [0%nat];
     time_threshold := timedelta_hours 1;
     fs := (let written : gmap Path FileData :=
              {[ yet_to_check_file self := Json [queued 7 reactions] ]} in
            if present
            then <[held "7.jpg" := Blob "jpeg bytes"]> written
            else written);
     trace := [];
     tick := 0 |}.

(** An empty queue. *)
Definition idle : State :=
  {| objs := ∅; yet_to_check := []; time_threshold := timedelta_days 1;
     fs := ∅; trace := []; tick := 0 |}.

(** The frame the upload loop has just posted, still in the frames
    directory of the bot. *)
Definition posted : FacebookFrame :=
  {| number := 8;
     local_file := ["frames"; "8.jpg"];
     text := "Movie";
     photo_id := "photo8";
     url := "https://example.org/photo8";
     post_time := timedelta_hours 2;
     reactions_total := 0;
     story_id := "story8" |}.

Definition just_posted : State :=
  {| objs := {[ 5%nat := posted ]}; yet_to_check := [];
     time_threshold := timedelta_days 1;
     fs := {[ ["frames"; "8.jpg"] := Blob "jpeg bytes" ]};
     trace := []; tick := 0 |}.


(** A mirrored frame poster with the default ratio. *)
Definition mirror : MirroredFramePoster :=
  {| mirror_album_id := "mirrors"; ratio := default_ratio;
     bot_name := "MirrorBot"; mirror_original_message := true;
     extra_message := "Just a randomly mirrored image." |}.

End Scenario.

(** Further worlds and states. *)
Module Cases.

(** [str.isalnum] on the letters and digits of ASCII. *)
Definition ascii_isalnum (c : ascii) : bool :=
  bool_decide
    (c ∈ String.list_ascii_of_string
       "0123456789abcdefghijklmnopqrstuvwxyzABCDEFGHIJKLMNOPQRSTUVWXYZ").

(** Two queued entries posted at time 0, the first with 150 reactions and
    the second with 50, their held copies on disk, the queue file in sync
    and a time threshold of one hour. *)
Definition two_entries : State :=
  {| objs := {[ 0%nat := Scenario.queued 7 150;
                1%nat := Scenario.queued 8 50 ]};
     yet_to_check := [0%nat; 1%nat];
     time_threshold := timedelta_hours 1;
     fs := {[ Scenario.held "7.jpg" := Blob "frame 7";
              Scenario.held "8.jpg" := Blob "frame 8";
              yet_to_check_file Scenario.self :=
                Json [Scenario.queued 7 150; Scenario.queued 8 50] ]};
     trace := [];
     tick := 0 |}.

(** A world like [Scenario.calm] in which the operating system refuses
    every file operation. *)
Definition full_disk : Env :=
  {| clock := λ _, timedelta_hours 2;
     upload_result := λ _, Some "reposted"%string;
     os_error := λ _, true;
     random_value := λ _, 0%Q |}.

(** A world like [Scenario.calm] in which the clock reads time 0 the
    first time and two hours later from then on. *)
Definition waking : Env :=
  {| clock := λ n, if n is O then 0 else timedelta_hours 2;
     upload_result := λ _, Some "reposted"%string;
     os_error := λ _, false;
     random_value := λ _, 0%Q |}.

End Cases.

(** * Properties *)

(** Unfolding of the monadic vocabulary, and case analysis over every test
    a computation makes. *)
Ltac munfold :=
  unfold advance_step, check_head, queue_pop, queue_append, safe_json_dump,
    _check_for_existing_status, load_obj_from_json_file,
    copy_copy, setattr_local_file, upload_photo, shutil_copyfile, os_remove,
    os_path_exists, os_makedirs, datetime_now, time_sleep, random,
    logger_info, logger_warning, logger_debug, emit, interact,
    gets, modify, raise, try_, mbind, M_bind, mret, M_ret in *.

Ltac mcases := repeat (case_match; simpl in *; simplify_eq/=).

(** ** The monad *)

(** How a bind runs. *)
Lemma bind_eval {A B} (m : M A) (k : A → M B) s :
  (m ≫= k) s = match m s with
                | (Ok a, s') => k a s'
                | (Raise e, s') => (Raise e, s')
                end.
Proof. reflexivity. Qed.

(** ** Traces *)

Section traces.

Lemma pops_app evs1 evs2 : pops (evs1 ++ evs2) = pops evs1 ++ pops evs2.
Proof. apply omap_app. Qed.

Lemma checked_app evs1 evs2 :
  checked (evs1 ++ evs2) = checked evs1 ++ checked evs2.
Proof. apply omap_app. Qed.

Lemma readings_app evs1 evs2 :
  readings (evs1 ++ evs2) = readings evs1 ++ readings evs2.
Proof. apply omap_app. Qed.

Lemma pops_entry_work work :
  Forall (λ e, entry_work e = true) work → pops work = [].
Proof.
  unfold pops. induction 1 as [|e w He _ IH]; [done|].
  destruct e; simpl in *; try discriminate; exact IH.
Qed.

Lemma checked_entry_work work :
  Forall (λ e, entry_work e = true) work → checked work = [].
Proof.
  unfold checked. induction 1 as [|e w He _ IH]; [done|].
  destruct e as [lvl m| | | | | | | | | | |]; simpl in *;
    try discriminate; try exact IH.
  destruct lvl, m; simpl in *; try discriminate; exact IH.
Qed.

Lemma readings_entry_work work :
  Forall (λ e, entry_work e = true) work → readings work = [].
Proof.
  unfold readings. induction 1 as [|e w He _ IH]; [done|].
  destruct e; simpl in *; try discriminate; exact IH.
Qed.

Lemma stamp_entry_work now work :
  Forall (λ e, entry_work e = true) work →
  stamp now work = (λ e, (now, e)) <$> work.
Proof.
  induction 1 as [|e w He _ IH]; [done|].
  destruct e; simpl in *; try discriminate; by rewrite IH.
Qed.

Lemma last_reading_app now evs1 evs2 :
  last_reading now (evs1 ++ evs2)
    = last_reading (last_reading now evs1) evs2.
Proof.
  unfold last_reading. rewrite readings_app.
  destruct (readings evs2) as [|t ts] using rev_ind.
  - by rewrite app_nil_r.
  - by rewrite (assoc_L (++)), !last_snoc.
Qed.

Lemma stamp_app now evs1 evs2 :
  stamp now (evs1 ++ evs2)
    = stamp now evs1 ++ stamp (last_reading now evs1) evs2.
Proof.
  revert now. induction evs1 as [|e evs1 IH]; intros now; [done|].
  destruct e; simpl; rewrite IH; try done.
  f_equal. f_equal. unfold last_reading. simpl.
  change (readings (EvNow t :: evs1)) with (t :: readings evs1).
  destruct (readings evs1) as [|t' ts] using rev_ind; [done|].
  by rewrite app_comm_cons, !last_snoc.
Qed.

(** Where an event sits in a concatenation whose first part has no
    such event. *)
Lemma app_split_after {A} (xs ys pre : list A) e post :
  xs ++ ys = pre ++ e :: post →
  Forall (λ x, x ≠ e) xs →
  ∃ pre', pre = xs ++ pre' ∧ ys = pre' ++ e :: post.
Proof.
  revert pre. induction xs as [|x xs IH]; intros pre Heq Hne.
  - by exists pre.
  - inversion Hne as [|? ? Hx Hxs]; subst.
    destruct pre as [|p pre]; simpl in Heq; simplify_eq.
    destruct (IH pre) as (pre' & -> & ->); [done..|]. by exists pre'.
Qed.

(** Where an event sits in a concatenation whose second part has no such
    event. *)
Lemma app_split_before {A} (xs ys pre : list A) e post :
  xs ++ ys = pre ++ e :: post →
  Forall (λ x, x ≠ e) ys →
  ∃ post', xs = pre ++ e :: post' ∧ post = post' ++ ys.
Proof.
  revert pre. induction xs as [|x xs IH]; intros pre Heq Hne.
  - exfalso. simpl in Heq. subst ys.
    apply Forall_app in Hne as [_ Hne]. by inversion Hne.
  - destruct pre as [|p pre]; simpl in Heq; simplify_eq.
    + by exists xs.
    + destruct (IH pre) as (post' & -> & ->); [done..|]. by exists post'.
Qed.

Lemma entry_work_not_pop work l :
  Forall (λ e, entry_work e = true) work →
  Forall (λ e, e ≠ EvQueuePop l) work.
Proof. intros H. eapply Forall_impl; [exact H|]. by intros e He ->. Qed.

Lemma entry_work_not_now work t :
  Forall (λ e, entry_work e = true) work →
  Forall (λ e, e ≠ EvNow t) work.
Proof. intros H. eapply Forall_impl; [exact H|]. by intros e He ->. Qed.


End traces.

(** ** The shape of a pass and what follows from it *)

Section pass_trace_facts.

Context (o : gmap loc FacebookFrame) (file : Path) (threshold : Z).

Implicit Types (q : list loc) (evs work : list Event) (r : Res unit).

(** What the observations see of the two fixed parts of a segment. *)
Lemma pops_check_start l t : pops (check_start o l t) = [].
Proof. done. Qed.

Lemma pops_pop_and_dump l q : pops (pop_and_dump o file l q) = [l].
Proof. done. Qed.

Lemma checked_check_start l t : checked (check_start o l t) = [deref o l].
Proof. done. Qed.

Lemma checked_pop_and_dump l q : checked (pop_and_dump o file l q) = [].
Proof. done. Qed.

Lemma last_reading_check_start now l t :
  last_reading now (check_start o l t) = Some t.
Proof. done. Qed.

Lemma last_reading_entry_work now work :
  Forall (λ e, entry_work e = true) work → last_reading now work = now.
Proof. intros Hw. unfold last_reading. by rewrite readings_entry_work. Qed.

Lemma last_reading_pop_and_dump now l q :
  last_reading now (pop_and_dump o file l q) = now.
Proof. done. Qed.

Lemma timely_entry_work now work :
  Forall (λ e, entry_work e = true) work →
  Forall (timely o threshold) (stamp now work).
Proof.
  intros Hw. rewrite stamp_entry_work by done.
  apply Forall_fmap. eapply Forall_impl; [exact Hw|].
  intros [[] []| | | | | | | | | | |]; by simpl.
Qed.

(** Induction on the shape of a pass, with the names the proofs below
    use. *)
Local Ltac pass_induction H :=
  induction H as [|l q t Hyoung|l q t work ev e Hel Hw Hnf Hfail
                  |l q t work evs q' r Hel Hw Hnf Hpass IH].

(** The popped entries followed by the entries left are the queue. *)
Lemma pass_pops q evs q' r :
  pass_trace o file threshold q evs q' r → pops evs ++ q' = q.
Proof.
  intros H. pass_induction H; try done.
  - by rewrite pops_app, pops_check_start, pops_entry_work.
  - rewrite !pops_app, pops_check_start, pops_entry_work by done.
    rewrite pops_pop_and_dump. simpl. by rewrite IH.
Qed.

(** The entries whose check started are the first entries of the queue. *)
Lemma pass_checked q evs q' r :
  pass_trace o file threshold q evs q' r →
  checked evs `prefix_of` snapshot o q.
Proof.
  intros H. pass_induction H.
  - done.
  - apply prefix_nil.
  - rewrite checked_app, checked_check_start, checked_entry_work by done.
    apply prefix_cons, prefix_nil.
  - rewrite !checked_app, checked_check_start, checked_entry_work by done.
    rewrite checked_pop_and_dump. by apply prefix_cons.
Qed.

(** Checks and pops happen at clock readings at which the entry is
    eligible. *)
Lemma pass_timely q evs q' r :
  pass_trace o file threshold q evs q' r →
  ∀ now, Forall (timely o threshold) (stamp now evs).
Proof.
  intros H. pass_induction H; intros now.
  - constructor.
  - by repeat constructor.
  - rewrite stamp_app, last_reading_check_start.
    apply Forall_app. split; [|by apply timely_entry_work].
    constructor; [done|]. constructor; [by exists t|done].
  - rewrite !stamp_app, last_reading_check_start.
    rewrite (last_reading_entry_work _ work) by done.
    rewrite last_reading_pop_and_dump.
    apply Forall_app. split.
    { constructor; [done|]. constructor; [by exists t|done]. }
    apply Forall_app. split; [by apply timely_entry_work|].
    apply Forall_app. split; [|apply IH].
    constructor; [by exists t|]. by constructor.
Qed.

(** Every pop is immediately followed by the dump of the queue without
    the entries popped so far. *)
Lemma pass_pop_then_dump q evs q' r :
  pass_trace o file threshold q evs q' r →
  ∀ pre l post,
    evs = pre ++ EvQueuePop l :: post →
    ∃ post',
      post = EvDump file (snapshot o (drop (S (length (pops pre))) q))
             :: post'.
Proof.
  intros H. pass_induction H; intros pre l' post Heq.
  - by destruct pre.
  - destruct pre as [|? [|]]; simplify_eq/=.
  - exfalso.
    assert (Hin : EvQueuePop l' ∈ check_start o l t ++ work ++ [ev]).
    { rewrite Heq, elem_of_app, elem_of_cons. auto. }
    apply elem_of_app in Hin as [Hin|Hin].
    + repeat (apply elem_of_cons in Hin as [?|Hin]; [done|]).
      by apply elem_of_nil in Hin.
    + rewrite Forall_forall in Hw. by specialize (Hw _ Hin).
  - rewrite (assoc_L (++)) in Heq.
    destruct (app_split_after _ _ _ _ _ Heq) as (pre' & -> & Heq').
    { apply Forall_app. split; [by repeat constructor|].
      by apply entry_work_not_pop. }
    rewrite !pops_app, pops_check_start, pops_entry_work by done.
    destruct pre' as [|p1 pre']; simplify_eq/=; [by eexists|].
    destruct pre' as [|p2 pre']; simplify_eq/=.
    destruct (IH _ _ _ eq_refl) as [post' ->]. by eexists.
Qed.

(** A call that failed is the call that ended the pass. *)
Lemma pass_failures q evs q' r :
  pass_trace o file threshold q evs q' r →
  ∀ ev x, ev ∈ evs → failure_of ev = Some x → r = Raise x.
Proof.
  intros H. pass_induction H; intros ev' x Hin Hx.
  - by apply elem_of_nil in Hin.
  - by apply list_elem_of_singleton in Hin as ->.
  - rewrite !elem_of_app in Hin. destruct Hin as [Hin|[Hin|Hin]].
    + repeat (apply elem_of_cons in Hin as [->|Hin]; [done|]).
      by apply elem_of_nil in Hin.
    + rewrite Forall_forall in Hnf. specialize (Hnf _ Hin). congruence.
    + apply list_elem_of_singleton in Hin as ->. congruence.
  - rewrite !elem_of_app in Hin. destruct Hin as [Hin|[Hin|[Hin|Hin]]].
    + repeat (apply elem_of_cons in Hin as [->|Hin]; [done|]).
      by apply elem_of_nil in Hin.
    + rewrite Forall_forall in Hnf. specialize (Hnf _ Hin). congruence.
    + repeat (apply elem_of_cons in Hin as [->|Hin]; [done|]).
      by apply elem_of_nil in Hin.
    + by eapply IH.
Qed.

(** After a clock reading that finds the head too young, nothing. *)
Lemma pass_stops q evs q' r :
  pass_trace o file threshold q evs q' r →
  ∀ pre t post l,
    evs = pre ++ EvNow t :: post →
    head (drop (length (pops pre)) q) = Some l →
    ¬ eligible threshold (deref o l) t →
    post = [].
Proof.
  intros H. pass_induction H; intros pre t' post l' Heq Hhd Hne.
  - by destruct pre.
  - destruct pre as [|? [|]]; simplify_eq/=. done.
  - destruct pre as [|p pre]; [simplify_eq/=; done|].
    exfalso. simpl in Heq. injection Heq as _ Heq.
    assert (Hin : EvNow t' ∈ EvLog Info (MsgCheckingEntry (deref o l))
                              :: work ++ [ev]).
    { rewrite Heq, elem_of_app, elem_of_cons. auto. }
    apply elem_of_cons in Hin as [|Hin]; [done|].
    rewrite Forall_forall in Hw. by specialize (Hw _ Hin).
  - destruct pre as [|p pre]; [simplify_eq/=; done|].
    simpl in Heq. injection Heq as <- Heq.
    destruct (app_split_after
      (EvLog Info (MsgCheckingEntry (deref o l)) :: work)
      (pop_and_dump o file l q ++ evs)
      pre (EvNow t') post) as (pre' & -> & Heq'); [done| |].
    { constructor; [done|]. by apply entry_work_not_now. }
    destruct pre' as [|p1 pre']; simplify_eq/=.
    destruct pre' as [|p2 pre']; simplify_eq/=.
    apply (IH _ _ _ l' eq_refl); [|done].
    revert Hhd. rewrite pops_app, pops_entry_work by done. by simpl.
Qed.

(** A pass that ends normally leaves an empty queue or a head that is too
    young at the last clock reading. *)
Lemma pass_drains q evs q' :
  pass_trace o file threshold q evs q' (Ok tt) →
  ∀ now,
    match q' with
    | [] => True
    | l :: _ =>
        ∃ t, last_reading now evs = Some t ∧
             ¬ eligible threshold (deref o l) t
    end.
Proof.
  remember (Ok tt) as r eqn:Hr.
  intros H. pass_induction H; intros now; try done.
  - by exists t.
  - specialize (IH Hr). destruct q' as [|l' q'']; [done|].
    destruct (IH (Some t)) as (t' & Hlast & Hn). exists t'. split; [|done].
    rewrite !last_reading_app, last_reading_check_start.
    rewrite (last_reading_entry_work _ work) by done.
    by rewrite last_reading_pop_and_dump.
Qed.

End pass_trace_facts.

(** ** One iteration and the loop of a pass *)

Section pass.

Context (self : BestOfReposter) (E : Env).

(** What an iteration on the head [l] does, by the way it ends. *)
Lemma advance_step_inv l rest s r s' :
  yet_to_check s = l :: rest →
  advance_step self E l s = (r, s') →
  let o := objs s in
  let t := clock E (tick s) in
  objs s' = o ∧ time_threshold s' = time_threshold s ∧
  match r with
  | Ok true =>
      ¬ eligible (time_threshold s) (deref o l) t ∧
      trace s' = trace s ++ [EvNow t] ∧
      yet_to_check s' = l :: rest ∧ fs s' = fs s
  | Ok false =>
      eligible (time_threshold s) (deref o l) t ∧ yet_to_check s' = rest ∧
      (∃ work,
         trace s' = trace s ++ check_start o l t ++ work
                      ++ pop_and_dump o (yet_to_check_file self) l rest ∧
         Forall (λ e, entry_work e = true) work ∧
         Forall (λ e, failure_of e = None) work) ∧
      fs s' !! yet_to_check_file self = Some (Json (snapshot o rest))
  | Raise e =>
      eligible (time_threshold s) (deref o l) t ∧
      yet_to_check s' = l :: rest ∧ fs s' = fs s ∧
      ∃ work ev,
        trace s' = trace s ++ check_start o l t ++ work ++ [ev] ∧
        Forall (λ e, entry_work e = true) (work ++ [ev]) ∧
        Forall (λ e, failure_of e = None) work ∧
        failure_of ev = Some e
  end.
Proof.
  intros Hq Hstep. unfold eligible, check_start, pop_and_dump.
  munfold. simpl in Hstep.
  mcases; rewrite ?Hq in *; simplify_eq/=.
  all: repeat split; try done; try lia.
  all: rewrite <- ?(assoc_L (++)); simpl.
  all: first [ eexists [], _; split; [reflexivity|]
             | eexists [_], _; split; [reflexivity|]
             | eexists [_; _], _; split; [reflexivity|]
             | eexists []; split; [reflexivity|]
             | eexists [_]; split; [reflexivity|]
             | eexists [_; _]; split; [reflexivity|]
             | eexists [_; _; _]; split; [reflexivity|]
             | idtac ].
  all: try by rewrite lookup_insert_eq.
  all: repeat split; repeat constructor; eauto.
Qed.

(** The loop always runs to its end; its events have the shape of
    [pass_trace]; [modified] is set exactly when something was popped,
    and then the queue file holds the queue that remains. *)
Lemma advance_loop_spec q : ∀ m s,
  yet_to_check s = q →
  ∃ r m' s' evs,
    advance_loop self E q m s = (Ok (r, m'), s') ∧
    objs s' = objs s ∧ time_threshold s' = time_threshold s ∧
    trace s' = trace s ++ evs ∧
    pass_trace (objs s) (yet_to_check_file self) (time_threshold s)
      q evs (yet_to_check s') r ∧
    m' = m || bool_decide (pops evs ≠ []) ∧
    (pops evs ≠ [] → in_sync self s') ∧
    (pops evs = [] → fs s' = fs s).
Proof.
  induction q as [|l rest IH]; intros m s Hq.
  - exists (Ok tt), m, s, []. simpl. rewrite Hq, app_nil_r, orb_false_r.
    split_and!; try done. constructor.
  - simpl. rewrite bind_eval. unfold try_.
    destruct (advance_step self E l s) as [r1 s1] eqn:Hstep.
    destruct (advance_step_inv _ _ _ _ _ Hq Hstep) as (Ho & Hthr & Hr).
    destruct r1 as [[|]|e]; simpl.
    + (* the head is too young *)
      destruct Hr as (Hyoung & Htr & Hq1 & Hfs).
      exists (Ok tt), m, s1, [EvNow (clock E (tick s))].
      rewrite orb_false_r, Hq1.
      split_and!; try done. by apply pass_young.
    + (* the head is popped, and the loop goes on *)
      destruct Hr as (Hel & Hq1 & (work & Htr & Hw & Hnf) & Hfile).
      destruct (IH true s1 Hq1)
        as (r & m' & s' & evs & Hloop & Ho' & Hthr' & Htr' & Hpass
              & Hm' & Hsync & Hfs).
      rewrite Ho, Hthr in Hpass.
      exists r, m', s'.
      exists (check_start (objs s) l (clock E (tick s)) ++ work
                ++ pop_and_dump (objs s) (yet_to_check_file self) l rest
                ++ evs).
      rewrite !pops_app, (pops_entry_work work) by done. simpl.
      split_and!; try done; try congruence.
      * rewrite Htr', Htr. by rewrite <- !(assoc_L (++)).
      * by constructor.
      * by rewrite Hm', orb_true_r.
      * intros _. destruct (decide (pops evs = [])) as [He|He]; [|auto].
        pose proof (pass_pops _ _ _ _ _ _ _ Hpass) as Hrest.
        rewrite He in Hrest. simpl in Hrest.
        unfold in_sync. by rewrite (Hfs He), Ho', Ho, Hrest.
    + (* the work on the head raises *)
      destruct Hr as (Hel & Hq1 & Hfs & work & ev & Htr & Hw & Hnf & Hfail).
      exists (Raise e), m, s1.
      exists (check_start (objs s) l (clock E (tick s)) ++ work ++ [ev]).
      rewrite pops_app, (pops_entry_work (work ++ [ev])) by done. simpl.
      rewrite orb_false_r, Hq1. split_and!; try done. by constructor.
Qed.

End pass.

(** ** The whole pass *)

Section advance.

Context (self : BestOfReposter) (E : Env).

(** [_advance_bests] always returns normally.  Its events are the opening
    record, the events of the loop, the warning if the loop raised, the
    final dump if something was popped, and the closing record. *)
Lemma advance_bests_spec s :
  ∃ r s' evs,
    _advance_bests self E s = (Ok tt, s') ∧
    objs s' = objs s ∧ time_threshold s' = time_threshold s ∧
    pass_trace (objs s) (yet_to_check_file self) (time_threshold s)
      (yet_to_check s) evs (yet_to_check s') r ∧
    trace s' = trace s ++
      [EvLog Info MsgCheckingForBestOf] ++ evs ++ handler_events r ++
      finally_events (yet_to_check_file self)
        (snapshot (objs s) (yet_to_check s'))
        (bool_decide (pops evs ≠ [])) ++
      [EvLog Info MsgDoneChecking] ∧
    (pops evs ≠ [] → in_sync self s') ∧
    (pops evs = [] → fs s' = fs s).
Proof.
  unfold _advance_bests.
  set (s0 := with_trace (trace s ++ [EvLog Info MsgCheckingForBestOf]) s).
  destruct (advance_loop_spec self E (yet_to_check s0) false s0 eq_refl)
    as (r & m' & s1 & evs & Hloop & Ho & Hthr & Htr & Hpass & Hm
          & Hsync & Hfs).
  simpl in Hm. subst m'.
  change (yet_to_check s0) with (yet_to_check s) in *.
  rewrite bind_eval.
  change (logger_info MsgCheckingForBestOf s) with (Ok tt, s0).
  cbv beta iota. rewrite bind_eval.
  change (gets yet_to_check s0) with (Ok (yet_to_check s), s0).
  cbv beta iota. rewrite bind_eval, Hloop. cbv beta iota.
  exists r. unfold handler_events, finally_events.
  destruct (decide (pops evs ≠ [])) as [Hb|Hb].
  - rewrite (bool_decide_true _ Hb) in *.
    destruct r as [[]|e]; munfold; simpl;
      eexists _, evs; simpl; rewrite (bool_decide_true _ Hb);
      (split; [reflexivity|]); simpl;
      (split; [done|]); (split; [done|]); (split; [done|]);
      (split; [rewrite Htr, ?Ho; simpl;
               rewrite <- ?(assoc_L (++)); simpl; done|]);
      (split; [|done]); intros _; unfold in_sync; simpl;
      by rewrite lookup_insert_eq.
  - rewrite (bool_decide_false _ Hb) in *.
    destruct r as [[]|e]; munfold; simpl;
      eexists _, evs; simpl; rewrite (bool_decide_false _ Hb);
      (split; [reflexivity|]); simpl;
      (split; [done|]); (split; [done|]); (split; [done|]);
      (split; [rewrite Htr, ?Ho; simpl;
               rewrite <- ?(assoc_L (++)); simpl; done|]);
      (split; [done|]); intros He; by apply Hfs.
Qed.

End advance.

(** ** What a pass guarantees *)

Section pass_claims.

Context (self : BestOfReposter) (E : Env).

(** What follows the loop of a pass holds no clock reading, no check and
    no pop. *)
Lemma closing_events_quiet r frames b :
  let closing := handler_events r
                   ++ finally_events (yet_to_check_file self) frames b
                   ++ [EvLog Info MsgDoneChecking] in
  pops closing = [] ∧ checked closing = [] ∧ readings closing = [] ∧
  (∀ t, Forall (λ e, e ≠ EvNow t) closing) ∧
  (∀ l, Forall (λ e, e ≠ EvQueuePop l) closing) ∧
  (∀ ev, ev ∈ closing → failure_of ev = None).
Proof.
  destruct r as [[]|e], b; simpl; split_and!; try done;
    try (intros; repeat constructor; done);
    intros ev Hev;
    repeat (apply elem_of_cons in Hev as [->|Hev]; [done|]);
    by apply elem_of_nil in Hev.
Qed.

Lemma closing_events_timely o thr r frames b now :
  Forall (timely o thr)
    (stamp now (handler_events r
                  ++ finally_events (yet_to_check_file self) frames b
                  ++ [EvLog Info MsgDoneChecking])).
Proof. destruct r as [[]|e], b; simpl; repeat constructor. Qed.

(** C2.  Whatever the world answers, a pass starts the check of an entry
    and pops an entry only when the latest clock reading is at least the
    entry's post time plus the time threshold.  The entries checked and
    the entries popped are taken from the front of the queue, in queue
    order.  And when a clock reading finds the head of the queue too
    young, the pass reads, checks and pops nothing more. *)
Theorem advance_checks_only_eligible_heads s :
  ∃ s' evs,
    _advance_bests self E s = (Ok tt, s') ∧
    trace s' = trace s ++ evs ∧
    Forall (timely (objs s) (time_threshold s)) (stamp None evs) ∧
    pops evs ++ yet_to_check s' = yet_to_check s ∧
    checked evs `prefix_of` snapshot (objs s) (yet_to_check s) ∧
    (∀ pre t post l,
       evs = pre ++ EvNow t :: post →
       head (drop (length (pops pre)) (yet_to_check s)) = Some l →
       ¬ eligible (time_threshold s) (deref (objs s) l) t →
       pops post = [] ∧ checked post = [] ∧ readings post = []).
Proof.
  destruct (advance_bests_spec self E s)
    as (r & s' & evs & Hrun & Ho & Hthr & Hpass & Htr & Hsync & Hfs).
  exists s'. eexists. split; [exact Hrun|]. split; [exact Htr|].
  set (closing := handler_events r ++ _ ++ _).
  destruct (closing_events_quiet r
    (snapshot (objs s) (yet_to_check s')) (bool_decide (pops evs ≠ [])))
    as (Hcp & Hcc & Hcr & Hcn & _).
  fold closing in Hcp, Hcc, Hcr, Hcn.
  split; [|split; [|split]].
  - simpl. constructor; [done|]. rewrite stamp_app.
    apply Forall_app; split; [by eapply pass_timely|].
    apply closing_events_timely.
  - change (pops (evs ++ closing) ++ yet_to_check s' = yet_to_check s).
    rewrite pops_app, Hcp, app_nil_r. by eapply pass_pops.
  - change (checked (evs ++ closing)
              `prefix_of` snapshot (objs s) (yet_to_check s)).
    rewrite checked_app, Hcc, app_nil_r. by eapply pass_checked.
  - intros pre t post l Heq Hhd Hne.
    destruct pre as [|p pre]; [done|].
    simpl in Heq. injection Heq as <- Heq.
    destruct (app_split_before _ _ _ _ _ Heq (Hcn t))
      as (post' & Hevs & ->).
    rewrite (pass_stops _ _ _ _ _ _ _ Hpass _ _ _ _ Hevs Hhd Hne).
    done.
Qed.

(** C4.  Whatever fails during a pass, [_advance_bests] returns normally.
    For every call that failed, a warning carrying its exception is
    logged.  The entries popped followed by the entries left are the
    queue the pass started with, so none is lost and none is duplicated.
    And the queue file holds the queue that is left, provided it held the
    queue when the pass started or something was popped. *)
Theorem advance_catches_and_persists s :
  ∃ s' evs,
    _advance_bests self E s = (Ok tt, s') ∧
    trace s' = trace s ++ evs ∧
    (∀ ev x, ev ∈ evs → failure_of ev = Some x →
             EvLog Warning (MsgProblemDuringCheck x) ∈ evs) ∧
    objs s' = objs s ∧
    pops evs ++ yet_to_check s' = yet_to_check s ∧
    (in_sync self s ∨ pops evs ≠ [] → in_sync self s').
Proof.
  destruct (advance_bests_spec self E s)
    as (r & s' & evs & Hrun & Ho & Hthr & Hpass & Htr & Hsync & Hfs).
  exists s'. eexists. split; [exact Hrun|]. split; [exact Htr|].
  set (closing := handler_events r ++ _ ++ _).
  destruct (closing_events_quiet r
    (snapshot (objs s) (yet_to_check s')) (bool_decide (pops evs ≠ [])))
    as (Hcp & _ & _ & _ & _ & Hcf).
  fold closing in Hcp, Hcf.
  assert (Hpops : pops ([EvLog Info MsgCheckingForBestOf] ++ evs ++ closing)
                  = pops evs).
  { change (pops (evs ++ closing) = pops evs).
    by rewrite pops_app, Hcp, app_nil_r. }
  split; [|split; [done|split]].
  - intros ev x Hin Hx.
    apply elem_of_cons in Hin as [->|Hin]; [done|].
    apply elem_of_app in Hin as [Hin|Hin].
    + pose proof (pass_failures _ _ _ _ _ _ _ Hpass _ _ Hin Hx) as ->.
      apply elem_of_cons; right. apply elem_of_app; right.
      subst closing. simpl. by apply elem_of_cons; left.
    + specialize (Hcf _ Hin). congruence.
  - rewrite Hpops. by eapply pass_pops.
  - rewrite Hpops. intros [Hs|Hp]; [|by apply Hsync].
    destruct (decide (pops evs = [])) as [He|He]; [|by apply Hsync].
    pose proof (pass_pops _ _ _ _ _ _ _ Hpass) as Hq.
    rewrite He in Hq. simpl in Hq.
    unfold in_sync in *. by rewrite (Hfs He), Ho, Hq.
Qed.

(** A pass that logs no warning ends with an empty queue or with a head
    that the last clock reading found too young. *)
Lemma advance_stops_only_at_young_head s :
  ∃ s' evs,
    _advance_bests self E s = (Ok tt, s') ∧
    trace s' = trace s ++ evs ∧
    ((∀ e, EvLog Warning (MsgProblemDuringCheck e) ∉ evs) →
     match yet_to_check s' with
     | [] => True
     | l :: _ =>
         ∃ t, last_reading None evs = Some t ∧
              ¬ eligible (time_threshold s) (deref (objs s) l) t
     end).
Proof.
  destruct (advance_bests_spec self E s)
    as (r & s' & evs & Hrun & Ho & Hthr & Hpass & Htr & _).
  exists s'. eexists. split; [exact Hrun|]. split; [exact Htr|].
  intros Hquiet. destruct r as [[]|e].
  - pose proof (pass_drains _ _ _ _ _ _ Hpass None) as Hd.
    destruct (yet_to_check s') as [|l q']; [done|].
    destruct Hd as (t & Hlast & Hyoung). exists t. split; [|done].
    change ([EvLog Info MsgCheckingForBestOf] ++ evs ++ ?x)
      with ((EvLog Info MsgCheckingForBestOf :: evs) ++ x).
    rewrite last_reading_app.
    change (last_reading None (EvLog Info MsgCheckingForBestOf :: evs))
      with (last_reading None evs).
    rewrite Hlast.
    destruct (closing_events_quiet (Ok tt)
      (snapshot (objs s) (l :: q')) (bool_decide (pops evs ≠ [])))
      as (_ & _ & Hcr & _).
    unfold last_reading. by rewrite Hcr.
  - exfalso. apply (Hquiet e). rewrite !elem_of_app. right. right. left.
    simpl. apply elem_of_cons. by left.
Qed.

End pass_claims.

(** When the client refuses the upload, the warning is logged, the entry
    stays at the head of the queue and the queue file still holds it. *)
Example failed_upload_keeps_the_entry :
  let self := Scenario.self in
  let s := Scenario.one_entry 150 true in
  let fr := Scenario.queued 7 150 in
  let r := _advance_bests self Scenario.offline s in
  r.1 = Ok tt ∧ yet_to_check r.2 = [0%nat] ∧
  fs r.2 !! yet_to_check_file self = Some (Json [fr]) ∧
  trace r.2 =
    [EvLog Info MsgCheckingForBestOf;
     EvNow (timedelta_hours 2);
     EvLog Info (MsgCheckingEntry fr);
     EvLog Info (MsgUploadingFrame (local_file fr));
     EvUpload (local_file fr) (best_of_message (timedelta_hours 2) fr)
       "bestof" None;
     EvLog Warning (MsgProblemDuringCheck UploadError);
     EvLog Info MsgDoneChecking].
Proof. split_and!; vm_compute; reflexivity. Qed.

(** ** Enqueueing, persistence and the idle pass *)

Lemma deref_insert_eq o l fr : deref (<[l := fr]> o) l = fr.
Proof. apply lookup_total_insert_eq. Qed.

Section queue_claims.

Context (self : BestOfReposter) (E : Env).

(** The two ways [_queue_frame_for_check] can go: the copy succeeds and
    the clone is queued and written out, or the copy raises and nothing
    else happens. *)
Lemma queue_frame_cases frame s :
  let fr := deref (objs s) frame in
  let clone := fresh (dom (objs s)) in
  let held := joinpath (frames_dir self) (name (local_file fr)) in
  let o' := <[clone := set_local_file fr held]> (objs s) in
  let q' := yet_to_check s ++ [clone] in
  ∃ s',
    time_threshold s' = time_threshold s ∧
    ((∃ data,
        fs s !! local_file fr = Some data ∧ local_file fr ≠ held ∧
        os_error E (tick s) = false ∧
        _queue_frame_for_check self E frame s = (Ok tt, s') ∧
        objs s' = o' ∧ yet_to_check s' = q' ∧
        fs s' = <[yet_to_check_file self := Json (snapshot o' q')]>
                  (<[held := data]> (fs s)) ∧
        trace s' = trace s ++
          [EvLog Info (MsgQueueingFrame (number fr));
           EvCopy (local_file fr) held None;
           EvQueueAppend clone;
           EvDump (yet_to_check_file self) (snapshot o' q')])
     ∨
     (∃ e,
        (fs s !! local_file fr = None ∨ local_file fr = held ∨
         os_error E (tick s) = true) ∧
        _queue_frame_for_check self E frame s = (Raise e, s') ∧
        objs s' = <[clone := fr]> (objs s) ∧
        yet_to_check s' = yet_to_check s ∧ fs s' = fs s ∧
        trace s' = trace s ++
          [EvLog Info (MsgQueueingFrame (number fr));
           EvCopy (local_file fr) held (Some e)])).
Proof.
  intros fr clone held o' q'.
  unfold _queue_frame_for_check. munfold. simpl.
  rewrite !deref_insert_eq.
  fold fr. fold clone. fold held.
  destruct (decide (local_file fr = held)) as [Heq|Hne]; simpl.
  { eexists. split; [|right; eexists; split_and!; try done; [by auto|]];
      simpl; [done|]. by rewrite <- (assoc_L (++)). }
  destruct (fs s !! local_file fr) as [data|] eqn:Hf; simpl.
  2:{ eexists. split; [|right; eexists; split_and!; try done; [by auto|]];
      simpl; [done|]. by rewrite <- (assoc_L (++)). }
  destruct (os_error E (tick s)) eqn:Hos; simpl.
  { eexists. split; [|right; eexists; split_and!; try done; [by auto|]];
      simpl; [done|]. by rewrite <- (assoc_L (++)). }
  eexists. split; [|left; exists data; split_and!; try done]; simpl;
    rewrite ?deref_insert_eq, ?insert_insert_eq; fold fr; try done.
  by rewrite <- !(assoc_L (++)).
Qed.

(** C10.  With an empty queue the hook [before_frame_upload], which runs
    a pass, returns normally and leaves the queue, the files, the objects
    and the time threshold as they were; it consults the outside world
    not at all and its only events are the two log records that open and
    close the pass: no upload, no copy, no deletion, no write of the
    queue file. *)
Theorem advance_on_empty_queue_is_noop frame s :
  yet_to_check s = [] →
  ∃ s',
    BestOfReposter_before_frame_upload self E frame s = (Ok tt, s') ∧
    yet_to_check s' = [] ∧
    fs s' = fs s ∧ objs s' = objs s ∧ tick s' = tick s ∧
    time_threshold s' = time_threshold s ∧
    trace s' = trace s ++
      [EvLog Info MsgCheckingForBestOf; EvLog Info MsgDoneChecking].
Proof.
  intros Hq. unfold BestOfReposter_before_frame_upload, _advance_bests.
  munfold. simpl. rewrite Hq. simpl. eexists. split; [reflexivity|].
  simpl. by rewrite <- (assoc_L (++)).
Qed.

(** C5.  In a pass, every pop is immediately followed by the write of the
    queue as it stands after that pop, and a pass that popped something
    ends with one more write of the final queue, just before its closing
    log record, leaving the queue file in sync.  In the enqueue
    operation, the append is immediately followed by the write of the
    queue with the new entry, leaving the file in sync; when the
    operation raises, it has not touched the queue. *)
Theorem queue_file_rewritten_after_every_mutation :
  (∀ s, ∃ s' evs,
     _advance_bests self E s = (Ok tt, s') ∧
     trace s' = trace s ++ evs ∧
     (∀ pre l post,
        evs = pre ++ EvQueuePop l :: post →
        ∃ post',
          post = EvDump (yet_to_check_file self)
                   (snapshot (objs s)
                      (drop (S (length (pops pre))) (yet_to_check s)))
                 :: post') ∧
     (pops evs ≠ [] →
        (∃ pre, evs = pre ++
           [EvDump (yet_to_check_file self)
              (snapshot (objs s') (yet_to_check s'));
            EvLog Info MsgDoneChecking]) ∧
        in_sync self s')) ∧
  (∀ frame s, ∃ r s' evs,
     _queue_frame_for_check self E frame s = (r, s') ∧
     trace s' = trace s ++ evs ∧
     ((∃ clone pre,
         r = Ok tt ∧ yet_to_check s' = yet_to_check s ++ [clone] ∧
         evs = pre ++
           [EvQueueAppend clone;
            EvDump (yet_to_check_file self)
              (snapshot (objs s') (yet_to_check s'))] ∧
         in_sync self s')
      ∨ (∃ e, r = Raise e ∧ yet_to_check s' = yet_to_check s ∧
              ∀ l, EvQueueAppend l ∉ evs))).
Proof.
  split.
  - intros s.
    destruct (advance_bests_spec self E s)
      as (r & s' & evs & Hrun & Ho & Hthr & Hpass & Htr & Hsync & Hfs).
    exists s'. eexists. split; [exact Hrun|]. split; [exact Htr|].
    set (closing := handler_events r ++ _ ++ _).
    destruct (closing_events_quiet self r
      (snapshot (objs s) (yet_to_check s')) (bool_decide (pops evs ≠ [])))
      as (Hcp & _ & _ & _ & Hcq & _).
    fold closing in Hcp, Hcq.
    split.
    + intros pre l post Heq.
      destruct pre as [|p pre]; [done|].
      simpl in Heq. injection Heq as <- Heq.
      destruct (app_split_before _ _ _ _ _ Heq (Hcq l))
        as (post' & Hevs & ->).
      destruct (pass_pop_then_dump _ _ _ _ _ _ _ Hpass _ _ _ Hevs)
        as (post'' & ->).
      by eexists.
    + change (pops ([EvLog Info MsgCheckingForBestOf] ++ evs ++ closing))
        with (pops (evs ++ closing)).
      rewrite pops_app, Hcp, app_nil_r. intros Hp.
      split; [|by apply Hsync].
      subst closing. rewrite (bool_decide_true _ Hp), Ho. simpl.
      exists (EvLog Info MsgCheckingForBestOf :: evs ++ handler_events r).
      simpl. by rewrite <- (assoc_L (++)).
  - intros frame s.
    destruct (queue_frame_cases frame s)
      as (s' & _ & [(data & _ & _ & _ & Hrun & Ho & Hq & Hfs & Htr)
                   |(e & _ & Hrun & _ & Hq & Hfs & Htr)]).
    + exists (Ok tt), s'. eexists. split; [exact Hrun|].
      split; [exact Htr|]. left. eexists _, [_; _].
      split; [done|]. split; [exact Hq|]. rewrite Ho, Hq.
      split; [done|]. unfold in_sync. rewrite Hfs, Ho, Hq.
      by rewrite lookup_insert_eq.
    + exists (Raise e), s'. eexists. split; [exact Hrun|].
      split; [exact Htr|]. right. exists e. split; [done|].
      split; [done|]. intros l Hin.
      repeat (apply elem_of_cons in Hin as [?|Hin]; [done|]).
      by apply elem_of_nil in Hin.
Qed.

(** C6.  Provided the frame's local file exists, is not already the held
    copy, and the operating system lets the copy through, the hook
    [after_frame_upload] returns normally having created a new frame
    object, the clone, equal to the frame except that its [local_file] is
    the copy in the holding directory; the frame passed in is unchanged;
    the clone is the new last entry of the queue; the holding directory
    has the copy of the file; and the queue file has been written with
    the new queue as the last effect.  Deleting the original file
    afterwards leaves the held copy in place. *)
Theorem enqueue_clones_copies_appends_persists frame fr data s :
  let held := joinpath (frames_dir self) (name (local_file fr)) in
  objs s !! frame = Some fr →
  fs s !! local_file fr = Some data →
  local_file fr ≠ held →
  os_error E (tick s) = false →
  ∃ clone s',
    BestOfReposter_after_frame_upload self E frame s = (Ok tt, s') ∧
    (clone ∉ dom (objs s)) ∧
    objs s' = <[clone := set_local_file fr held]> (objs s) ∧
    objs s' !! frame = Some fr ∧
    yet_to_check s' = yet_to_check s ++ [clone] ∧
    fs s' = <[yet_to_check_file self :=
                Json (snapshot (objs s') (yet_to_check s'))]>
              (<[held := data]> (fs s)) ∧
    trace s' = trace s ++
      [EvLog Info (MsgQueueingFrame (number fr));
       EvCopy (local_file fr) held None;
       EvQueueAppend clone;
       EvDump (yet_to_check_file self)
         (snapshot (objs s') (yet_to_check s'))] ∧
    (held ≠ yet_to_check_file self →
     delete (local_file fr) (fs s') !! held = Some data).
Proof.
  intros held Hfr Hdata Hne Hos. subst held.
  assert (Hd : deref (objs s) frame = fr).
  { unfold deref. by rewrite (lookup_total_correct _ _ _ Hfr). }
  destruct (queue_frame_cases frame s)
    as (s' & _ & [(data' & Hdata' & _ & _ & Hrun & Ho & Hq & Hfs & Htr)
                 |(e & Hfail & _)]);
    rewrite Hd in *.
  - assert (data' = data) as -> by congruence.
    pose proof (is_fresh (dom (objs s))) as Hfresh.
    exists (fresh (dom (objs s))), s'.
    split; [exact Hrun|]. split; [exact Hfresh|]. split; [exact Ho|].
    split.
    { rewrite Ho. rewrite lookup_insert_ne; [done|].
      intros Heq. apply Hfresh. rewrite Heq. by apply elem_of_dom. }
    split; [exact Hq|]. rewrite Ho, Hq.
    split; [exact Hfs|]. split; [exact Htr|].
    intros Hq'. rewrite Hfs.
    rewrite lookup_delete_ne by done.
    rewrite lookup_insert_ne by done. by rewrite lookup_insert_eq.
  - exfalso. destruct Hfail as [?|[?|?]]; congruence.
Qed.

End queue_claims.

Lemma advance_on_empty_queue_is_noop_witness :
  yet_to_check Scenario.idle = [] ∧
  ∃ s',
    BestOfReposter_before_frame_upload Scenario.self Scenario.calm 0%nat
      Scenario.idle = (Ok tt, s') ∧
    yet_to_check s' = [] ∧
    fs s' = fs Scenario.idle ∧ objs s' = objs Scenario.idle ∧
    tick s' = tick Scenario.idle ∧
    time_threshold s' = time_threshold Scenario.idle ∧
    trace s' = trace Scenario.idle ++
      [EvLog Info MsgCheckingForBestOf; EvLog Info MsgDoneChecking].
Proof.
  split; [reflexivity|].
  apply (advance_on_empty_queue_is_noop Scenario.self Scenario.calm 0%nat
           Scenario.idle).
  reflexivity.
Defined.

Lemma enqueue_clones_copies_appends_persists_witness :
  let self := Scenario.self in
  let s := Scenario.just_posted in
  let fr := Scenario.posted in
  let held := joinpath (frames_dir self) (name (local_file fr)) in
  ∃ clone s',
      BestOfReposter_after_frame_upload self Scenario.calm 5%nat s
        = (Ok tt, s') ∧
      (clone ∉ dom (objs s)) ∧
      objs s' = <[clone := set_local_file fr held]> (objs s) ∧
      objs s' !! 5%nat = Some fr ∧
      yet_to_check s' = yet_to_check s ++ [clone] ∧
      fs s' = <[yet_to_check_file self :=
                  Json (snapshot (objs s') (yet_to_check s'))]>
                (<[held := Blob "jpeg bytes"]> (fs s)) ∧
      trace s' = trace s ++
        [EvLog Info (MsgQueueingFrame (number fr));
         EvCopy (local_file fr) held None;
         EvQueueAppend clone;
         EvDump (yet_to_check_file self)
           (snapshot (objs s') (yet_to_check s'))] ∧
      (held ≠ yet_to_check_file self →
       delete (local_file fr) (fs s') !! held = Some (Blob "jpeg bytes")).
Proof.
  apply (enqueue_clones_copies_appends_persists Scenario.self Scenario.calm
           5%nat Scenario.posted (Blob "jpeg bytes") Scenario.just_posted).
  - reflexivity.
  - reflexivity.
  - discriminate.
  - reflexivity.
Defined.

(** ** Start-up, and the liveness of queued references *)

Lemma new_objects_spec frames : ∀ s,
  ∃ ls s',
    new_objects frames s = (Ok ls, s') ∧
    snapshot (objs s') ls = frames ∧
    Forall (λ l, is_Some (objs s' !! l)) ls ∧
    objs s ⊆ objs s' ∧
    yet_to_check s' = yet_to_check s ∧ fs s' = fs s ∧
    trace s' = trace s ∧ time_threshold s' = time_threshold s.
Proof.
  induction frames as [|fr rest IH]; intros s.
  - exists [], s. by split_and!.
  - simpl. rewrite bind_eval. munfold. simpl.
    set (l := fresh (dom (objs s))).
    set (s1 := with_objs (<[l := fr]> (objs s)) s).
    destruct (IH s1)
      as (ls & s' & Hrun & Hsnap & Hlive & Hsub & Hq & Hfs & Htr & Hthr).
    rewrite Hrun. exists (l :: ls), s'.
    assert (Hl : objs s' !! l = Some fr).
    { eapply lookup_weaken; [|exact Hsub]. apply lookup_insert_eq. }
    split_and!; try done.
    + unfold snapshot in *. rewrite fmap_cons, Hsnap. f_equal.
      unfold deref. by rewrite (lookup_total_correct _ _ _ Hl).
    + constructor; [by eexists|done].
    + etrans; [|exact Hsub]. apply insert_subseteq.
      apply not_elem_of_dom, is_fresh.
Qed.

Section liveness.

Context (self : BestOfReposter) (E : Env).

(** Loading a persisted queue file makes the loaded queue the queue, in
    sync with the file and with every entry a live object. *)
Lemma loaded_queue_is_in_sync frames s :
  fs s !! yet_to_check_file self = Some (Json frames) →
  ∃ s',
    BestOfReposter_before_upload_loop self s = (Ok tt, s') ∧
    snapshot (objs s') (yet_to_check s') = frames ∧
    in_sync self s' ∧ queue_live s' ∧ fs s' = fs s.
Proof.
  intros Hfile.
  unfold BestOfReposter_before_upload_loop, _check_for_existing_status.
  munfold. simpl. rewrite Hfile. simpl. rewrite Hfile.
  set (s1 := with_trace _ s).
  destruct (new_objects_spec frames s1)
    as (ls & s' & Hrun & Hsnap & Hlive & _ & _ & Hfs & _).
  rewrite Hrun. eexists. split; [reflexivity|]. simpl.
  split_and!; try done.
  unfold in_sync. simpl. by rewrite Hfs, Hsnap.
Qed.

(** Without a queue file the hook does nothing. *)
Lemma no_queue_file_nothing_loaded s :
  fs s !! yet_to_check_file self = None →
  BestOfReposter_before_upload_loop self s = (Ok tt, s).
Proof.
  intros Hfile.
  unfold BestOfReposter_before_upload_loop, _check_for_existing_status.
  munfold. simpl. rewrite Hfile.
  rewrite bool_decide_false; [done|]. by intros [? ?].
Qed.

(** A pass keeps the queue live: its entries are entries of the queue it
    started with, and it changes no object. *)
Lemma advance_keeps_queue_live s :
  queue_live s → queue_live (_advance_bests self E s).2.
Proof.
  destruct (advance_bests_spec self E s)
    as (r & s' & evs & Hrun & Ho & _ & Hpass & _).
  rewrite Hrun. unfold queue_live. simpl. rewrite Ho.
  rewrite <- (pass_pops _ _ _ _ _ _ _ Hpass).
  by intros [_ ?]%Forall_app.
Qed.

(** So does the enqueue operation. *)
Lemma enqueue_keeps_queue_live frame s :
  queue_live s → queue_live (_queue_frame_for_check self E frame s).2.
Proof.
  intros Hlive.
  assert (Hkeep : ∀ fr, Forall (λ l, is_Some
            (<[fresh (dom (objs s)) := fr]> (objs s) !! l))
            (yet_to_check s)).
  { intros fr. eapply Forall_impl; [exact Hlive|]. intros l [fr' Hl].
    destruct (decide (fresh (dom (objs s)) = l)) as [<-|Hne].
    - rewrite lookup_insert_eq. by eexists.
    - rewrite lookup_insert_ne by done. by eexists. }
  destruct (queue_frame_cases self E frame s)
    as (s' & _ & [(data & _ & _ & _ & -> & Ho & Hq & _)
                 |(e & _ & -> & Ho & Hq & _)]);
    unfold queue_live; simpl; rewrite Ho, Hq.
  - apply Forall_app. split; [apply Hkeep|].
    constructor; [|done]. rewrite lookup_insert_eq. by eexists.
  - apply Hkeep.
Qed.

End liveness.

(** ** What happens to the head of the queue *)

Lemma pair_eq {A B} (p : A * B) a : p.1 = a → p = (a, p.2).
Proof. intros <-. by destruct p. Qed.

Section head_claims.

Context (self : BestOfReposter) (E : Env).

(** C3, as amended.  When an iteration of a pass ends with the pop of the
    head, the head was eligible, and between the "Checking entry" record
    and the pop exactly one of three things happened.  If the entry's
    reactions exceed the threshold and its local copy exists, the copy was
    uploaded to the best-of album with the caption built from the elapsed
    hours, the reaction count, the url and the text, and was archived in
    the album directory.  If the reactions exceed the threshold but the
    copy is missing, only the two log records were written: nothing was
    reposted.  If the reactions do not exceed the threshold, the copy was
    deleted and nothing was reposted.  So the entry is reposted if and
    only if its reactions exceed the threshold and its copy exists. *)
Theorem pop_reposts_iff_popular_and_present l rest s s' :
  yet_to_check s = l :: rest →
  advance_step self E l s = (Ok false, s') →
  let fr := deref (objs s) l in
  let t := clock E (tick s) in
  let caption := best_of_message (t - post_time fr) fr in
  let archive := joinpath (album_path self) (best_of_file_name fr) in
  let popular := reactions_threshold self < reactions_total fr in
  let written := Json (snapshot (objs s) rest) in
  eligible (time_threshold s) fr t ∧ yet_to_check s' = rest ∧
  ∃ work,
    trace s' = trace s ++ EvNow t :: EvLog Info (MsgCheckingEntry fr)
      :: work ++ [EvQueuePop l;
                  EvDump (yet_to_check_file self) (snapshot (objs s) rest)] ∧
    ((∃ id,
        EvUpload (local_file fr) caption (album_id self) (Some id) ∈ work)
     ↔ popular ∧ is_Some (fs s !! local_file fr)) ∧
    ((∃ data id,
        popular ∧ fs s !! local_file fr = Some data ∧
        work = [EvLog Info (MsgUploadingFrame (local_file fr));
                EvUpload (local_file fr) caption (album_id self) (Some id);
                EvCopy (local_file fr) archive None] ∧
        fs s' = <[yet_to_check_file self := written]>
                  (<[archive := data]> (fs s)))
     ∨ (popular ∧ fs s !! local_file fr = None ∧
        work = [EvLog Info (MsgUploadingFrame (local_file fr));
                EvLog Info (MsgFileMissing (local_file fr))] ∧
        fs s' = <[yet_to_check_file self := written]> (fs s))
     ∨ (¬ popular ∧ is_Some (fs s !! local_file fr) ∧
        work = [EvRemove (local_file fr) None] ∧
        fs s' = <[yet_to_check_file self := written]>
                  (delete (local_file fr) (fs s)))).
Proof.
  intros Hq Hstep. unfold eligible. munfold. simpl in Hstep.
  mcases; rewrite ?Hq in *; simplify_eq/=.
  all: repeat match goal with
         | H : bool_decide _ = false |- _ =>
             apply bool_decide_eq_false in H
         | H : bool_decide _ = true |- _ =>
             apply bool_decide_eq_true in H
         end.
  all: split; [lia|]; split; [done|].
  all: rewrite <- ?(assoc_L (++)); simpl.
  - eexists [_; _; _]. split; [reflexivity|]. split.
    + split; [intros _; split; [lia|done]|].
      intros _. eexists. rewrite !elem_of_cons. right; left. reflexivity.
    + left. eexists _, _. split_and!; try done; lia.
  - eexists [_; _]. split; [reflexivity|]. split.
    + split; [|by intros [_ ?]].
      intros [id Hin].
      repeat (apply elem_of_cons in Hin as [?|Hin]; [done|]).
      by apply elem_of_nil in Hin.
    + right; left.
      split_and!; try done; try lia; by apply eq_None_not_Some.
  - eexists [_]. split; [reflexivity|]. split.
    + split; [|intros [? _]; lia].
      intros [id Hin].
      repeat (apply elem_of_cons in Hin as [?|Hin]; [done|]).
      by apply elem_of_nil in Hin.
    + right; right. split_and!; try done; try lia; by eexists.
Qed.

(** An eligible head with enough reactions whose local copy is gone: the
    upload is skipped, which is logged, and the entry is popped. *)
Lemma missing_copy_of_popular_entry_is_skipped l rest s :
  let fr := deref (objs s) l in
  let t := clock E (tick s) in
  yet_to_check s = l :: rest →
  eligible (time_threshold s) fr t →
  reactions_threshold self < reactions_total fr →
  fs s !! local_file fr = None →
  ∃ s',
    advance_step self E l s = (Ok false, s') ∧
    yet_to_check s' = rest ∧
    fs s' = <[yet_to_check_file self := Json (snapshot (objs s) rest)]>
              (fs s) ∧
    trace s' = trace s ++
      [EvNow t;
       EvLog Info (MsgCheckingEntry fr);
       EvLog Info (MsgUploadingFrame (local_file fr));
       EvLog Info (MsgFileMissing (local_file fr));
       EvQueuePop l;
       EvDump (yet_to_check_file self) (snapshot (objs s) rest)].
Proof.
  intros fr t Hq Hel Hpop Hmiss. unfold eligible in Hel.
  munfold. simpl. fold fr. fold t.
  destruct (t - post_time fr <? time_threshold s) eqn:H1;
    [apply Z.ltb_lt in H1; lia|].
  destruct (reactions_threshold self <? reactions_total fr) eqn:H2;
    [|apply Z.ltb_ge in H2; lia].
  simpl. rewrite Hmiss. simpl. rewrite Hq. simpl.
  eexists. split; [reflexivity|]. simpl. split_and!; try done.
  by rewrite <- !(assoc_L (++)).
Qed.

(** A pass over a queue whose head is eligible, has too few reactions and
    has lost its local copy: [os.remove] raises, the exception is logged,
    and the head stays where it is. *)
Lemma unpopular_missing_blocks l rest s :
  let fr := deref (objs s) l in
  let t := clock E (tick s) in
  yet_to_check s = l :: rest →
  eligible (time_threshold s) fr t →
  reactions_total fr ≤ reactions_threshold self →
  fs s !! local_file fr = None →
  _advance_bests self E s =
    (Ok tt,
     with_trace
       (trace s ++
          [EvLog Info MsgCheckingForBestOf;
           EvNow t;
           EvLog Info (MsgCheckingEntry fr);
           EvRemove (local_file fr)
             (Some (FileNotFoundError (local_file fr)));
           EvLog Warning
             (MsgProblemDuringCheck (FileNotFoundError (local_file fr)));
           EvLog Info MsgDoneChecking])
       (with_tick (S (S (tick s))) s)).
Proof.
  intros fr t Hq Hel Hlow Hmiss. unfold eligible in Hel.
  unfold _advance_bests. munfold. simpl. rewrite Hq. simpl.
  munfold. simpl. fold fr. fold t.
  destruct (t - post_time fr <? time_threshold s) eqn:H1;
    [apply Z.ltb_lt in H1; lia|].
  destruct (reactions_threshold self <? reactions_total fr) eqn:H2;
    [apply Z.ltb_lt in H2; lia|].
  simpl. rewrite Hmiss. simpl.
  by rewrite <- !(assoc_L (++)).
Qed.

Lemma blocked_round s :
  blocked self E s →
  ∃ s', drain_round self E s = (Ok tt, s') ∧ blocked self E s' ∧
        yet_to_check s' = yet_to_check s.
Proof.
  intros (l & rest & Hq & Hel & Hlow & Hmiss).
  unfold drain_round. rewrite bind_eval.
  rewrite (unpopular_missing_blocks l rest s Hq (Hel _) Hlow Hmiss).
  cbv beta iota. munfold. simpl. rewrite Hq. simpl.
  eexists. split; [reflexivity|]. split; [|done].
  exists l, rest. simpl. done.
Qed.

Lemma blocked_rounds n s :
  blocked self E s →
  blocked self E (after_rounds self E n s) ∧
  yet_to_check (after_rounds self E n s) = yet_to_check s.
Proof.
  revert s. induction n as [|n IH]; intros s Hb; [done|].
  simpl. destruct (blocked_round s Hb) as (s' & -> & Hb' & <-).
  by apply IH.
Qed.

Lemma blocked_drain_loop fuel s :
  blocked self E s → drain_loop self E fuel s = None.
Proof.
  revert s. induction fuel as [|fuel IH]; intros s Hb.
  - destruct Hb as (l & rest & Hq & _). simpl. by rewrite Hq.
  - destruct (blocked_round s Hb) as (s' & Hr & Hb' & _).
    destruct Hb as (l & rest & Hq & _). simpl. rewrite Hq, Hr.
    by apply IH.
Qed.

End head_claims.

(** The caption of the scenario, spelled out. *)
Example scenario_caption :
  best_of_message (timedelta_hours 2) (Scenario.queued 7 150) =
    "Reactions after 2.0 hours : 150." +:+ nl +:+
    "Original post: https://example.org/photo7" +:+ nl +:+ nl +:+
    "Movie" +:+ nl +:+ "Frame 7 of 20".
Proof. vm_compute. reflexivity. Qed.

Lemma pop_reposts_iff_popular_and_present_witness :
  let self := Scenario.self in
  let s := Scenario.one_entry 150 true in
  let fr := Scenario.queued 7 150 in
  let s' := (advance_step self Scenario.calm 0%nat s).2 in
  yet_to_check s = [0%nat] ∧
  advance_step self Scenario.calm 0%nat s = (Ok false, s') ∧
  yet_to_check s' = [] ∧
  ∃ work id,
    trace s' = EvNow (timedelta_hours 2) :: EvLog Info (MsgCheckingEntry fr)
      :: work ++ [EvQueuePop 0%nat; EvDump (yet_to_check_file self) []] ∧
    EvUpload (local_file fr) (best_of_message (timedelta_hours 2) fr)
      "bestof" (Some id) ∈ work.
Proof.
  intros self s fr s'.
  assert (Hstep : advance_step self Scenario.calm 0%nat s = (Ok false, s')).
  { apply (pair_eq (advance_step self Scenario.calm 0%nat s) (Ok false)).
    vm_compute. reflexivity. }
  split; [reflexivity|]. split; [exact Hstep|].
  destruct (pop_reposts_iff_popular_and_present self Scenario.calm
              0%nat [] s s' eq_refl Hstep)
    as (_ & Hq & work & Htr & Hiff & _).
  split; [exact Hq|].
  destruct (proj2 Hiff) as [id Hid].
  { split; [vm_compute; reflexivity|].
    exists (Blob "jpeg bytes"). vm_compute. reflexivity. }
  exists work, id. split; [exact Htr|exact Hid].
Defined.

(** The two runs of the scenario of the specification: a reactions
    threshold of 100, a time threshold of one hour, an entry posted two
    hours ago whose copy is on disk. *)
Lemma popular_entry_is_reposted :
  let self := Scenario.self in
  let s := Scenario.one_entry 150 true in
  let fr := Scenario.queued 7 150 in
  let r := _advance_bests self Scenario.calm s in
  r.1 = Ok tt ∧ yet_to_check r.2 = [] ∧
  fs r.2 !! (album_path self ++ ["Frame 7 id story7 reactions 150"])
    = Some (Blob "jpeg bytes") ∧
  trace r.2 =
    [EvLog Info MsgCheckingForBestOf;
     EvNow (timedelta_hours 2);
     EvLog Info (MsgCheckingEntry fr);
     EvLog Info (MsgUploadingFrame (local_file fr));
     EvUpload (local_file fr) (best_of_message (timedelta_hours 2) fr)
       "bestof" (Some "reposted"%string);
     EvCopy (local_file fr)
       (album_path self ++ ["Frame 7 id story7 reactions 150"]) None;
     EvQueuePop 0%nat;
     EvDump (yet_to_check_file self) [];
     EvDump (yet_to_check_file self) [];
     EvLog Info MsgDoneChecking].
Proof. split_and!; vm_compute; reflexivity. Qed.

Lemma unpopular_entry_is_deleted_not_reposted :
  let self := Scenario.self in
  let s := Scenario.one_entry 50 true in
  let fr := Scenario.queued 7 50 in
  let r := _advance_bests self Scenario.calm s in
  r.1 = Ok tt ∧ yet_to_check r.2 = [] ∧
  fs r.2 !! local_file fr = None ∧
  trace r.2 =
    [EvLog Info MsgCheckingForBestOf;
     EvNow (timedelta_hours 2);
     EvLog Info (MsgCheckingEntry fr);
     EvRemove (local_file fr) None;
     EvQueuePop 0%nat;
     EvDump (yet_to_check_file self) [];
     EvDump (yet_to_check_file self) [];
     EvLog Info MsgDoneChecking].
Proof. split_and!; vm_compute; reflexivity. Qed.

(** C3, as stated, fails for an entry whose reactions exceed the threshold
    but whose local copy is gone: the pass pops it without any upload. *)
Lemma popular_entry_without_copy_is_popped_unposted :
  let self := Scenario.self in
  let s := Scenario.one_entry 150 false in
  let fr := Scenario.queued 7 150 in
  let r := _advance_bests self Scenario.calm s in
  deref (objs s) 0%nat = fr ∧
  reactions_threshold self < reactions_total fr ∧
  eligible (time_threshold s) fr (timedelta_hours 2) ∧
  r.1 = Ok tt ∧ yet_to_check r.2 = [] ∧
  trace r.2 =
    [EvLog Info MsgCheckingForBestOf;
     EvNow (timedelta_hours 2);
     EvLog Info (MsgCheckingEntry fr);
     EvLog Info (MsgUploadingFrame (local_file fr));
     EvLog Info (MsgFileMissing (local_file fr));
     EvQueuePop 0%nat;
     EvDump (yet_to_check_file self) [];
     EvDump (yet_to_check_file self) [];
     EvLog Info MsgDoneChecking] ∧
  ¬ (∃ file message album res,
       EvUpload file message album res ∈ trace r.2).
Proof.
  split_and!; try (vm_compute; reflexivity); try (vm_compute; discriminate).
  intros (file & message & album & res & Hin).
  assert (Htr :
    trace (_advance_bests Scenario.self Scenario.calm
             (Scenario.one_entry 150 false)).2
    = [EvLog Info MsgCheckingForBestOf;
     EvNow (timedelta_hours 2);
     EvLog Info (MsgCheckingEntry (Scenario.queued 7 150));
     EvLog Info (MsgUploadingFrame (local_file (Scenario.queued 7 150)));
     EvLog Info (MsgFileMissing (local_file (Scenario.queued 7 150)));
     EvQueuePop 0%nat;
     EvDump (yet_to_check_file Scenario.self) [];
     EvDump (yet_to_check_file Scenario.self) [];
     EvLog Info MsgDoneChecking]) by (vm_compute; reflexivity).
  rewrite Htr in Hin.
  repeat (apply elem_of_cons in Hin as [?|Hin]; [done|]).
  by apply elem_of_nil in Hin.
Qed.

Lemma scenario_blocked :
  blocked Scenario.self Scenario.calm (Scenario.one_entry 50 false).
Proof.
  exists 0%nat, []. split; [reflexivity|]. split; [|split].
  - intros n. vm_compute. discriminate.
  - vm_compute. discriminate.
  - vm_compute. reflexivity.
Qed.

(** C1.  The pass on the failing input: one eligible entry with 50
    reactions under a threshold of 100, whose local copy no longer exists.
    [os.remove] raises, the handler logs the warning, and the entry is
    still the head of the queue after the pass, after any number of rounds
    of the shutdown loop, which therefore never returns. *)
Theorem unpopular_entry_without_copy_is_never_popped :
  let self := Scenario.self in
  let s := Scenario.one_entry 50 false in
  let fr := Scenario.queued 7 50 in
  let r := _advance_bests self Scenario.calm s in
  yet_to_check s = [0%nat] ∧ deref (objs s) 0%nat = fr ∧
  eligible (time_threshold s) fr (timedelta_hours 2) ∧
  fs s !! local_file fr = None ∧
  r.1 = Ok tt ∧
  yet_to_check r.2 = [0%nat] ∧
  trace r.2 =
    [EvLog Info MsgCheckingForBestOf;
     EvNow (timedelta_hours 2);
     EvLog Info (MsgCheckingEntry fr);
     EvRemove (local_file fr) (Some (FileNotFoundError (local_file fr)));
     EvLog Warning
       (MsgProblemDuringCheck (FileNotFoundError (local_file fr)));
     EvLog Info MsgDoneChecking] ∧
  (∀ n, yet_to_check (after_rounds self Scenario.calm n s) = [0%nat]) ∧
  (∀ fuel, _handle_quicker self Scenario.calm fuel s = None).
Proof.
  intros self s fr r.
  split; [reflexivity|]. split; [vm_compute; reflexivity|].
  split; [vm_compute; discriminate|]. split; [vm_compute; reflexivity|].
  split; [vm_compute; reflexivity|]. split; [vm_compute; reflexivity|].
  split; [vm_compute; reflexivity|].
  split.
  - intros n.
    apply (blocked_rounds Scenario.self Scenario.calm n _ scenario_blocked).
  - intros fuel. apply blocked_drain_loop.
    exists 0%nat, []. split; [reflexivity|]. split; [|split].
    + intros n. vm_compute. discriminate.
    + vm_compute. discriminate.
    + vm_compute. reflexivity.
Qed.

(** ** The shutdown loop *)

Lemma timedelta_div2_close td : Z.abs (2 * timedelta_div2 td - td) ≤ 1.
Proof.
  unfold timedelta_div2.
  pose proof (Z.div_mod td 2 ltac:(lia)) as Hdm.
  pose proof (Z.mod_pos_bound td 2 ltac:(lia)) as Hb.
  destruct (td mod 2 =? 1) eqn:Hr, (Z.odd (td / 2)); simpl; lia.
Qed.

Lemma timedelta_div2_even td : Z.even td = true → 2 * timedelta_div2 td = td.
Proof.
  intros He. unfold timedelta_div2.
  apply Z.even_spec in He as [k ->].
  rewrite (Z.mul_comm 2 k), Z.mod_mul, Z.div_mul by lia. simpl. lia.
Qed.

Example one_day_halves_to_twelve_hours :
  timedelta_div2 (timedelta_days 1) = timedelta_hours 12.
Proof. reflexivity. Qed.

Example odd_microseconds_halve_to_even :
  timedelta_div2 1 = 0 ∧ timedelta_div2 3 = 2 ∧ timedelta_div2 5 = 2.
Proof. by split_and!. Qed.

Section shutdown.
Context (self : BestOfReposter) (E : Env).

Lemma drain_round_spec s :
  ∃ s1,
    _advance_bests self E s = (Ok tt, s1) ∧
    drain_round self E s =
      (Ok tt,
       match yet_to_check s1 with
       | [] => s1
       | _ :: _ =>
           with_trace
             (trace s1 ++
                [EvLog Info (MsgStillToCheck (length (yet_to_check s1)));
                 EvSleep 3600])
             (with_tick (S (tick s1)) s1)
       end) ∧
    time_threshold s1 = time_threshold s.
Proof.
  destruct (advance_bests_spec self E s)
    as (r & s1 & evs & Hrun & _ & Hthr & _).
  exists s1. split; [exact Hrun|]. split; [|exact Hthr].
  unfold drain_round. rewrite bind_eval, Hrun. cbv beta iota.
  munfold. simpl. destruct (yet_to_check s1); simpl; [done|].
  by rewrite <- (assoc_L (++)).
Qed.

Lemma drain_round_threshold s :
  time_threshold (drain_round self E s).2 = time_threshold s.
Proof.
  destruct (drain_round_spec s) as (s1 & _ & -> & Hthr). simpl.
  by destruct (yet_to_check s1).
Qed.

Lemma after_rounds_threshold n s :
  time_threshold (after_rounds self E n s) = time_threshold s.
Proof.
  revert s. induction n as [|n IH]; intros s; [done|].
  simpl. by rewrite IH, drain_round_threshold.
Qed.

Lemma drain_loop_returns fuel s r s' :
  drain_loop self E fuel s = Some (r, s') →
  r = Ok tt ∧ yet_to_check s' = [] ∧
  ∃ n, (n ≤ fuel)%nat ∧ s' = after_rounds self E n s.
Proof.
  revert s. induction fuel as [|fuel IH]; intros s; simpl.
  - destruct (yet_to_check s) as [|l0 q0] eqn:Hq; [|done].
    intros [= <- <-]. split; [done|]. split; [done|]. by exists 0%nat.
  - destruct (yet_to_check s) as [|l0 q0] eqn:Hq.
    + intros [= <- <-]. split; [done|]. split; [done|].
      exists 0%nat. split; [lia|done].
    + destruct (drain_round_spec s) as (s1 & _ & Hround & _).
      rewrite Hround. intros Hloop.
      destruct (IH _ Hloop) as (-> & Hq' & n & Hn & ->).
      split; [done|]. split; [done|].
      exists (S n). split; [lia|]. simpl. by rewrite Hround.
Qed.

Lemma drain_loop_enough n s :
  yet_to_check (after_rounds self E n s) = [] →
  ∃ s', drain_loop self E n s = Some (Ok tt, s') ∧ yet_to_check s' = [].
Proof.
  revert s. induction n as [|n IH]; intros s; simpl.
  - intros Hq. rewrite Hq. by exists s.
  - intros Hq. destruct (yet_to_check s) as [|l0 q0] eqn:Hs; [by exists s|].
    destruct (drain_round_spec s) as (s1 & _ & Hround & _).
    rewrite Hround in *. simpl in Hq. by apply IH.
Qed.

(** C7.  The hook [after_upload_loop] first sets the time threshold to
    its half (exactly for an even count of microseconds, rounded to the
    microsecond as [timedelta] division does otherwise), and no round
    changes the threshold again.  Every round is a pass followed,
    exactly when entries remain, by the log record and a sleep of 3600
    seconds.  If the hook returns, it returns normally with an empty
    queue, after some number of rounds; and if the queue is empty after
    [n] rounds, the hook returns within [n] rounds.  Nothing else ends
    the loop. *)
Theorem handle_quicker_halves_once_and_drains s :
  let half := timedelta_div2 (time_threshold s) in
  let s0 := with_time_threshold half s in
  Z.abs (2 * half - time_threshold s) ≤ 1 ∧
  (Z.even (time_threshold s) = true → 2 * half = time_threshold s) ∧
  (∀ n, time_threshold (after_rounds self E n s0) = half) ∧
  (∀ s1, ∃ s2,
     _advance_bests self E s1 = (Ok tt, s2) ∧
     drain_round self E s1 =
       (Ok tt,
        match yet_to_check s2 with
        | [] => s2
        | _ :: _ =>
            with_trace
              (trace s2 ++
                 [EvLog Info (MsgStillToCheck (length (yet_to_check s2)));
                  EvSleep 3600])
              (with_tick (S (tick s2)) s2)
        end)) ∧
  (∀ fuel r s',
     BestOfReposter_after_upload_loop self E fuel s = Some (r, s') →
     r = Ok tt ∧ yet_to_check s' = [] ∧
     ∃ n, (n ≤ fuel)%nat ∧ s' = after_rounds self E n s0) ∧
  (∀ n,
     yet_to_check (after_rounds self E n s0) = [] →
     ∃ s', BestOfReposter_after_upload_loop self E n s = Some (Ok tt, s')
           ∧ yet_to_check s' = []).
Proof.
  intros half s0. split; [apply timedelta_div2_close|].
  split; [apply timedelta_div2_even|].
  split; [intros n; by rewrite after_rounds_threshold|].
  split.
  { intros s1. destruct (drain_round_spec s1) as (s2 & H1 & H2 & _).
    by exists s2. }
  split.
  - intros fuel r s'. apply drain_loop_returns.
  - intros n. apply drain_loop_enough.
Qed.
End shutdown.

(** ** Plugins and their hooks *)






(** ** The mirrored frame poster *)

Section mirror.

Lemma Qgt_bool_iff x y : Qgt_bool x y = true ↔ (y < x)%Q.
Proof.
  unfold Qgt_bool. rewrite negb_true_iff, <- not_true_iff_false.
  rewrite Qle_bool_iff. split; [apply Qnot_le_lt|apply Qlt_not_le].
Qed.

Lemma Qdiv_100 x : (x / 100 == x * (1 # 100))%Q.
Proof. reflexivity. Qed.





End mirror.


(** * Further properties of the code *)

(** ** More on the pass: files, calls and failures *)

(** Where an event with a property sits in a concatenation whose first
    part, or whose second part, has no event with that property. *)
Lemma app_split_after_if {A} (P : A → Prop) (xs ys pre : list A) e post :
  xs ++ ys = pre ++ e :: post →
  Forall (λ x, ¬ P x) xs → P e →
  ∃ pre', pre = xs ++ pre' ∧ ys = pre' ++ e :: post.
Proof.
  revert pre. induction xs as [|x xs IH]; intros pre Heq Hne He.
  - by exists pre.
  - inversion Hne as [|? ? Hx Hxs]; subst.
    destruct pre as [|p pre]; simpl in Heq; simplify_eq; [done|].
    destruct (IH pre) as (pre' & -> & ->); [done..|]. by exists pre'.
Qed.

Lemma app_split_before_if {A} (P : A → Prop) (xs ys pre : list A) e post :
  xs ++ ys = pre ++ e :: post →
  Forall (λ x, ¬ P x) ys → P e →
  ∃ post', xs = pre ++ e :: post' ∧ post = post' ++ ys.
Proof.
  revert pre. induction xs as [|x xs IH]; intros pre Heq Hne He.
  - exfalso. simpl in Heq. subst ys.
    apply Forall_app in Hne as [_ Hne]. by inversion Hne.
  - destruct pre as [|p pre]; simpl in Heq; simplify_eq.
    + by exists xs.
    + destruct (IH pre) as (post' & -> & ->); [done..|]. by exists post'.
Qed.

Section pass_more.

Context (self : BestOfReposter) (E : Env).

(** A relation between states that every iteration establishes holds
    between the states before and after the loop. *)
Lemma advance_loop_invariant (R : State → State → Prop) :
  (∀ s, R s s) →
  (∀ s1 s2 s3, R s1 s2 → R s2 s3 → R s1 s3) →
  (∀ l rest s r s',
     yet_to_check s = l :: rest →
     advance_step self E l s = (r, s') → R s s') →
  ∀ q m s, yet_to_check s = q → R s (advance_loop self E q m s).2.
Proof.
  intros Hrefl Htrans Hstep. induction q as [|l rest IH]; intros m s Hq.
  - apply Hrefl.
  - simpl. rewrite bind_eval. unfold try_.
    destruct (advance_step self E l s) as [r1 s1] eqn:Hs.
    pose proof (Hstep _ _ _ _ _ Hq Hs) as HR.
    destruct (advance_step_inv self E _ _ _ _ _ Hq Hs) as (_ & _ & Hr).
    destruct r1 as [[|]|e]; simpl; try done.
    destruct Hr as (_ & Hq1 & _).
    eapply Htrans; [exact HR|]. by apply IH.
Qed.

(** The pass, as the loop between the opening record and what the handler
    and the [finally] clause do. *)
Lemma advance_bests_run s :
  ∃ r m s1 s',
    advance_loop self E (yet_to_check s) false
      (with_trace (trace s ++ [EvLog Info MsgCheckingForBestOf]) s)
      = (Ok (r, m), s1) ∧
    _advance_bests self E s = (Ok tt, s') ∧
    objs s' = objs s1 ∧ yet_to_check s' = yet_to_check s1 ∧
    time_threshold s' = time_threshold s1 ∧ tick s' = tick s1 ∧
    fs s' = (if m : bool
             then <[yet_to_check_file self :=
                      Json (snapshot (objs s1) (yet_to_check s1))]> (fs s1)
             else fs s1) ∧
    trace s' = trace s1 ++ handler_events r
                 ++ finally_events (yet_to_check_file self)
                      (snapshot (objs s1) (yet_to_check s1)) m
                 ++ [EvLog Info MsgDoneChecking].
Proof.
  set (s0 := with_trace (trace s ++ [EvLog Info MsgCheckingForBestOf]) s).
  destruct (advance_loop_spec self E (yet_to_check s0) false s0 eq_refl)
    as (r & m & s1 & evs & Hloop & _).
  change (yet_to_check s0) with (yet_to_check s) in Hloop.
  exists r, m, s1. unfold _advance_bests.
  rewrite bind_eval.
  change (logger_info MsgCheckingForBestOf s) with (Ok tt, s0).
  cbv beta iota. rewrite bind_eval.
  change (gets yet_to_check s0) with (Ok (yet_to_check s), s0).
  cbv beta iota. rewrite bind_eval, Hloop. cbv beta iota.
  unfold handler_events, finally_events.
  destruct r as [[]|e], m; munfold; simpl;
    (eexists; split; [reflexivity|]; split; [reflexivity|]); simpl;
    split_and!; try done; by rewrite <- ?(assoc_L (++)).
Qed.

(** The files before and after one iteration. *)
Lemma advance_step_files l rest s r s' :
  yet_to_check s = l :: rest →
  advance_step self E l s = (r, s') →
  let fr := deref (objs s) l in
  ∀ p,
    (p ≠ yet_to_check_file self →
     (reactions_threshold self < reactions_total fr →
      p ≠ joinpath (album_path self) (best_of_file_name fr)) →
     (reactions_total fr ≤ reactions_threshold self → p ≠ local_file fr) →
     fs s' !! p = fs s !! p) ∧
    (is_Some (fs s !! p) →
     (reactions_total fr ≤ reactions_threshold self → p ≠ local_file fr) →
     is_Some (fs s' !! p)).
Proof.
  intros Hq Hstep fr p. subst fr. munfold. simpl in Hstep.
  mcases; rewrite ?Hq in *; simplify_eq/=.
  all: repeat match goal with
         | H : bool_decide _ = false |- _ =>
             apply bool_decide_eq_false in H
         | H : bool_decide _ = true |- _ =>
             apply bool_decide_eq_true in H
         | H : (_ <? _) = true |- _ => apply Z.ltb_lt in H
         | H : (_ <? _) = false |- _ => apply Z.ltb_ge in H
         end.
  all: split; [intros Hfile Harch Hloc|intros Hp Hloc]; try done.
  all: rewrite ?lookup_insert_is_Some', ?lookup_delete_is_Some.
  all: repeat first
         [ done
         | rewrite lookup_insert_ne
             by (intros <-; first [by apply Hfile | by apply Harch])
         | rewrite lookup_delete_ne by (intros <-; by apply Hloc)
         | right
         | split; [intros <-; by apply Hloc|] ].
Qed.

(** The calls of one iteration belong to the check of its head. *)
Lemma advance_step_calls l rest s r s' :
  yet_to_check s = l :: rest →
  advance_step self E l s = (r, s') →
  ∃ evs,
    trace s' = trace s ++ evs ∧
    Forall (accounted_for self (objs s) (time_threshold s) (l :: rest) evs)
      evs.
Proof.
  intros Hq Hstep. munfold. simpl in Hstep.
  mcases; rewrite ?Hq in *; simplify_eq/=.
  all: repeat match goal with
         | H : (_ <? _) = true |- _ => apply Z.ltb_lt in H
         | H : (_ <? _) = false |- _ => apply Z.ltb_ge in H
         end.
  all: rewrite <- ?(assoc_L (++)); simpl.
  all: eexists; (split; [reflexivity|]).
  all: repeat constructor; simpl.
  all: match goal with
       | |- ∃ l t, l ∈ ?x :: _ ∧ EvNow t ∈ EvNow ?t0 :: _ ∧ _ =>
           exists x, t0
       end; unfold eligible.
  all: split; [by left|]; (split; [by left|]); split_and!; done || lia.
Qed.

Lemma accounted_for_mono o thr q q' evs evs' e :
  (∀ l, l ∈ q → l ∈ q') → (∀ x, x ∈ evs → x ∈ evs') →
  accounted_for self o thr q evs e → accounted_for self o thr q' evs' e.
Proof.
  intros Hq Hevs.
  destruct e; simpl; try done; intros (l & t & Hl & Ht & Hb);
    exists l, t; auto.
Qed.

(** The calls of a pass belong to the checks of entries of its queue. *)
Lemma advance_bests_calls s :
  ∃ s' evs,
    _advance_bests self E s = (Ok tt, s') ∧
    trace s' = trace s ++ evs ∧
    Forall (accounted_for self (objs s) (time_threshold s) (yet_to_check s)
              evs) evs.
Proof.
  pose (R := λ s1 s2 : State,
    objs s2 = objs s1 ∧ time_threshold s2 = time_threshold s1 ∧
    yet_to_check s2 `suffix_of` yet_to_check s1 ∧
    ∃ evs, trace s2 = trace s1 ++ evs ∧
      Forall (accounted_for self (objs s1) (time_threshold s1)
                (yet_to_check s1) evs) evs).
  destruct (advance_bests_run s)
    as (r & m & s1 & s' & Hloop & Hrun & Ho & Hq & Hthr & _ & _ & Htr).
  set (s0 := with_trace (trace s ++ [EvLog Info MsgCheckingForBestOf]) s)
    in Hloop.
  assert (HR : R s0 s1).
  { change s1 with (Ok (r, m), s1).2. rewrite <- Hloop.
    apply advance_loop_invariant; [| |clear|done].
    - intros s2. split_and!; try done. exists []. by rewrite app_nil_r.
    - intros s2 s3 s4 (Ho1 & Ht1 & Hs1 & evs1 & Htr1 & H1)
        (Ho2 & Ht2 & Hs2 & evs2 & Htr2 & H2).
      split_and!; try congruence; [by etrans|].
      exists (evs1 ++ evs2). split; [by rewrite Htr2, Htr1, (assoc_L (++))|].
      apply Forall_app. split.
      + eapply Forall_impl; [exact H1|]. intros e.
        apply accounted_for_mono; [done|]. intros x Hx.
        apply elem_of_app. by left.
      + eapply Forall_impl; [exact H2|]. intros e.
        rewrite Ho1, Ht1. apply accounted_for_mono.
        * intros l Hl. by eapply elem_of_suffix.
        * intros x Hx. apply elem_of_app. by right.
    - intros l rest s2 r2 s3 Hq2 Hstep.
      destruct (advance_step_inv self E _ _ _ _ _ Hq2 Hstep)
        as (Ho2 & Ht2 & Hr).
      destruct (advance_step_calls _ _ _ _ _ Hq2 Hstep) as (evs & Htr2 & H2).
      split_and!; try done.
      + rewrite Hq2. destruct r2 as [[|]|e].
        * destruct Hr as (_ & _ & -> & _). done.
        * destruct Hr as (_ & -> & _). by apply suffix_cons_r.
        * destruct Hr as (_ & -> & _). done.
      + exists evs. by rewrite Hq2. }
  destruct HR as (_ & _ & _ & evs & Htr1 & Hacc).
  exists s'. eexists. split; [exact Hrun|].
  split.
  { rewrite Htr, Htr1. simpl. rewrite <- !(assoc_L (++)). reflexivity. }
  simpl. constructor; [done|].
  apply Forall_app. split.
  - eapply Forall_impl; [exact Hacc|]. intros e.
    apply accounted_for_mono; [done|]. intros x Hx.
    apply elem_of_cons. right. apply elem_of_app. by left.
  - destruct r as [[]|e], m; simpl; by repeat constructor.
Qed.

(** The files that a pass leaves alone. *)
Lemma advance_bests_files s :
  let s' := (_advance_bests self E s).2 in
  ∀ p,
    (p ≠ yet_to_check_file self →
     (∀ l, l ∈ yet_to_check s →
        reactions_threshold self < reactions_total (deref (objs s) l) →
        p ≠ joinpath (album_path self)
              (best_of_file_name (deref (objs s) l))) →
     (∀ l, l ∈ yet_to_check s →
        reactions_total (deref (objs s) l) ≤ reactions_threshold self →
        p ≠ local_file (deref (objs s) l)) →
     fs s' !! p = fs s !! p) ∧
    (is_Some (fs s !! p) →
     (∀ l, l ∈ yet_to_check s →
        reactions_total (deref (objs s) l) ≤ reactions_threshold self →
        p ≠ local_file (deref (objs s) l)) →
     is_Some (fs s' !! p)).
Proof.
  pose (R := λ s1 s2 : State,
    objs s2 = objs s1 ∧
    yet_to_check s2 `suffix_of` yet_to_check s1 ∧
    ∀ p,
      (p ≠ yet_to_check_file self →
       (∀ l, l ∈ yet_to_check s1 →
          reactions_threshold self < reactions_total (deref (objs s1) l) →
          p ≠ joinpath (album_path self)
                (best_of_file_name (deref (objs s1) l))) →
       (∀ l, l ∈ yet_to_check s1 →
          reactions_total (deref (objs s1) l) ≤ reactions_threshold self →
          p ≠ local_file (deref (objs s1) l)) →
       fs s2 !! p = fs s1 !! p) ∧
      (is_Some (fs s1 !! p) →
       (∀ l, l ∈ yet_to_check s1 →
          reactions_total (deref (objs s1) l) ≤ reactions_threshold self →
          p ≠ local_file (deref (objs s1) l)) →
       is_Some (fs s2 !! p))).
  destruct (advance_bests_run s)
    as (r & m & s1 & s' & Hloop & Hrun & _ & _ & _ & _ & Hfs & _).
  set (s0 := with_trace (trace s ++ [EvLog Info MsgCheckingForBestOf]) s)
    in Hloop.
  assert (HR : R s0 s1).
  { change s1 with (Ok (r, m), s1).2. rewrite <- Hloop.
    apply advance_loop_invariant; [| |clear|done].
    - intros s2. split_and!; try done.
    - intros s2 s3 s4 (Ho1 & Hs1 & H1) (Ho2 & Hs2 & H2).
      split_and!; try congruence; [by etrans|].
      intros p. destruct (H1 p) as [H1a H1b], (H2 p) as [H2a H2b].
      rewrite Ho1 in H2a, H2b.
      split.
      + intros Hf Ha Hl. rewrite H2a, H1a; try done.
        * intros l Hin. apply Ha. by eapply elem_of_suffix.
        * intros l Hin. apply Hl. by eapply elem_of_suffix.
      + intros Hp Hl. apply H2b; [by apply H1b|].
        intros l Hin. apply Hl. by eapply elem_of_suffix.
    - intros l rest s2 r2 s3 Hq2 Hstep.
      destruct (advance_step_inv self E _ _ _ _ _ Hq2 Hstep)
        as (Ho2 & _ & Hr).
      split_and!; try done.
      + rewrite Hq2. destruct r2 as [[|]|e].
        * destruct Hr as (_ & _ & -> & _). done.
        * destruct Hr as (_ & -> & _). by apply suffix_cons_r.
        * destruct Hr as (_ & -> & _). done.
      + intros p.
        destruct (advance_step_files _ _ _ _ _ Hq2 Hstep p) as [Ha Hb].
        rewrite Hq2. split.
        * intros Hf Harch Hloc. apply Ha; [done| |].
          -- apply Harch. by left.
          -- apply Hloc. by left.
        * intros Hp Hloc. apply Hb; [done|]. apply Hloc. by left. }
  rewrite Hrun. simpl. intros p.
  destruct HR as (_ & _ & HR). destruct (HR p) as [Ha Hb].
  rewrite Hfs. split.
  - intros Hf Harch Hloc.
    destruct m; [rewrite lookup_insert_ne by done|]; by apply Ha.
  - intros Hp Hloc.
    destruct m; [rewrite lookup_insert_is_Some'; right|]; by apply Hb.
Qed.

End pass_more.

(** A failed call is the last event of the loop of a pass; the entry it
    worked on is still the head of the queue. *)
Lemma pass_failure_last o file threshold q evs q' r :
  pass_trace o file threshold q evs q' r →
  ∀ pre ev post x,
    evs = pre ++ ev :: post → failure_of ev = Some x →
    post = [] ∧ r = Raise x ∧
    q' = drop (length (pops pre)) q ∧ q' ≠ [].
Proof.
  induction 1 as [|l q t Hyoung|l q t work ev0 e Hel Hw Hnf Hfail
                  |l q t work evs q' r Hel Hw Hnf Hpass IH];
    intros pre ev post x Heq Hx.
  - by destruct pre.
  - destruct pre as [|? [|]]; simplify_eq/=.
  - rewrite (assoc_L (++)) in Heq.
    destruct (app_split_after_if (λ e, is_Some (failure_of e))
                _ _ _ _ _ Heq) as (pre' & -> & Heq'); [|by eexists|].
    { apply Forall_app. split; [by repeat constructor; intros []|].
      eapply Forall_impl; [exact Hnf|]. intros e' -> []. done. }
    destruct pre' as [|? [|]]; simplify_eq/=.
    rewrite !pops_app. rewrite (pops_entry_work work).
    + by split_and!.
    + apply Forall_app in Hw as [Hw _]. done.
  - rewrite !(assoc_L (++)) in Heq.
    destruct (app_split_after_if (λ e, is_Some (failure_of e))
                _ _ _ _ _ Heq) as (pre' & -> & Heq'); [|by eexists|].
    { apply Forall_app. split; [|by repeat constructor; intros []].
      apply Forall_app. split; [by repeat constructor; intros []|].
      eapply Forall_impl; [exact Hnf|]. intros e' -> []. done. }
    destruct (IH _ _ _ _ Heq' Hx) as (-> & -> & -> & Hne).
    rewrite !pops_app, (pops_entry_work work) by done.
    split_and!; done.
Qed.

Section pass_extras.

Context (self : BestOfReposter) (E : Env).

(** X1.  A pass changes no file other than the queue file, the archive
    copies of the entries of the queue whose reactions exceed the
    threshold, and the held copies of the entries whose reactions do not.
    And it deletes no file other than those held copies: what exists
    before the pass and is not the held copy of such an entry exists after
    it.  So the held copy of a reposted entry stays where it is. *)
Theorem advance_touches_only_its_own_files s :
  let s' := (_advance_bests self E s).2 in
  let q := snapshot (objs s) (yet_to_check s) in
  let popular fr := reactions_threshold self < reactions_total fr in
  (∀ p,
     p ≠ yet_to_check_file self →
     (∀ fr, fr ∈ q → popular fr →
            p ≠ joinpath (album_path self) (best_of_file_name fr)) →
     (∀ fr, fr ∈ q → ¬ popular fr → p ≠ local_file fr) →
     fs s' !! p = fs s !! p) ∧
  (∀ p,
     is_Some (fs s !! p) →
     (∀ fr, fr ∈ q → ¬ popular fr → p ≠ local_file fr) →
     is_Some (fs s' !! p)).
Proof.
  intros s' q popular. subst s' q popular.
  assert (Hin : ∀ l, l ∈ yet_to_check s →
            deref (objs s) l ∈ snapshot (objs s) (yet_to_check s)).
  { intros l Hl. unfold snapshot. apply list_elem_of_fmap. by exists l. }
  split; intros p.
  - intros Hf Harch Hloc.
    apply (advance_bests_files self E s p); [done| |].
    + intros l Hl Hpop. by apply Harch; [apply Hin|].
    + intros l Hl Hpop. apply Hloc; [by apply Hin|lia].
  - intros Hp Hloc.
    apply (advance_bests_files self E s p); [done|].
    intros l Hl Hpop. apply Hloc; [by apply Hin|lia].
Qed.

(** X2.  Every call that a pass makes to the outside world is accounted
    for by an entry of the queue that was eligible at a clock reading of
    the pass.  A photo is uploaded only for an entry whose reactions
    exceed the threshold: its held copy, to the best-of album, with the
    caption for that clock reading.  A file is copied only from the held
    copy of such an entry to its place in the album directory.  And a
    file is removed only if it is the held copy of an entry whose
    reactions do not exceed the threshold. *)
Theorem advance_reposts_only_popular_entries s :
  ∃ s' evs,
    _advance_bests self E s = (Ok tt, s') ∧
    trace s' = trace s ++ evs ∧
    (∀ file message album res,
       EvUpload file message album res ∈ evs →
       ∃ l t,
         l ∈ yet_to_check s ∧ EvNow t ∈ evs ∧
         let fr := deref (objs s) l in
         eligible (time_threshold s) fr t ∧
         reactions_threshold self < reactions_total fr ∧
         file = local_file fr ∧
         message = best_of_message (t - post_time fr) fr ∧
         album = album_id self) ∧
    (∀ src dst err,
       EvCopy src dst err ∈ evs →
       ∃ l t,
         l ∈ yet_to_check s ∧ EvNow t ∈ evs ∧
         let fr := deref (objs s) l in
         eligible (time_threshold s) fr t ∧
         reactions_threshold self < reactions_total fr ∧
         src = local_file fr ∧
         dst = joinpath (album_path self) (best_of_file_name fr)) ∧
    (∀ p err,
       EvRemove p err ∈ evs →
       ∃ l t,
         l ∈ yet_to_check s ∧ EvNow t ∈ evs ∧
         let fr := deref (objs s) l in
         eligible (time_threshold s) fr t ∧
         reactions_total fr ≤ reactions_threshold self ∧
         p = local_file fr).
Proof.
  destruct (advance_bests_calls self E s) as (s' & evs & Hrun & Htr & Hacc).
  exists s', evs. split; [exact Hrun|]. split; [exact Htr|].
  rewrite Forall_forall in Hacc.
  split_and!; intros; by apply (Hacc _ H).
Qed.

(** X3.  A call that fails ends the work of the pass.  What follows it is
    the warning with its exception, the write of the queue file if an
    entry had been popped before, and the closing record: no other entry
    is checked, however long it has waited.  The entry whose check failed
    is still the head of the queue, in front of the entries that came
    after it. *)
Theorem first_failure_ends_the_pass s :
  ∃ s' evs,
    _advance_bests self E s = (Ok tt, s') ∧
    trace s' = trace s ++ evs ∧
    ∀ pre ev post x,
      evs = pre ++ ev :: post → failure_of ev = Some x →
      post = EvLog Warning (MsgProblemDuringCheck x)
             :: finally_events (yet_to_check_file self)
                  (snapshot (objs s') (yet_to_check s'))
                  (bool_decide (pops pre ≠ []))
             ++ [EvLog Info MsgDoneChecking] ∧
      yet_to_check s' = drop (length (pops pre)) (yet_to_check s) ∧
      yet_to_check s' ≠ [].
Proof.
  destruct (advance_bests_spec self E s)
    as (r & s' & evs & Hrun & Ho & Hthr & Hpass & Htr & _).
  exists s'. eexists. split; [exact Hrun|]. split; [exact Htr|].
  intros pre ev post x Heq Hx.
  set (closing := handler_events r ++ _ ++ _) in Heq.
  destruct (closing_events_quiet self r
    (snapshot (objs s) (yet_to_check s')) (bool_decide (pops evs ≠ [])))
    as (_ & _ & _ & _ & _ & Hcf).
  fold closing in Hcf.
  destruct pre as [|p pre]; [simplify_eq/=|].
  simpl in Heq. injection Heq as <- Heq.
  destruct (app_split_before_if (λ e, is_Some (failure_of e))
              _ _ _ _ _ Heq) as (post' & Hevs & ->); [|by eexists|].
  { apply Forall_forall. intros e He [y Hy]. rewrite (Hcf _ He) in Hy.
    done. }
  destruct (pass_failure_last _ _ _ _ _ _ _ Hpass _ _ _ _ Hevs Hx)
    as (-> & -> & Hq & Hne).
  change (pops (EvLog Info MsgCheckingForBestOf :: pre)) with (pops pre).
  split; [|done]. subst closing. simpl. rewrite Ho.
  assert (Hp : pops evs = pops pre).
  { rewrite Hevs, pops_app. simpl.
    destruct ev; simpl in *; try done; by rewrite app_nil_r. }
  by rewrite Hp.
Qed.

End pass_extras.

(** ** The flag [store_best_ofs] *)

Lemma advance_loop_store_best_ofs b self E q : ∀ m s,
  advance_loop (set_store_best_ofs b self) E q m s
    = advance_loop self E q m s.
Proof.
  induction q as [|l rest IH]; intros m s; [done|].
  simpl. rewrite !bind_eval. unfold try_.
  change (advance_step (set_store_best_ofs b self) E l s)
    with (advance_step self E l s).
  destruct (advance_step self E l s) as [[[|]|e] s1]; simpl; auto.
Qed.

Lemma advance_bests_store_best_ofs b self E s :
  _advance_bests (set_store_best_ofs b self) E s = _advance_bests self E s.
Proof.
  unfold _advance_bests. rewrite !bind_eval.
  destruct (logger_info MsgCheckingForBestOf s) as [[[]|e] s0]; [|done].
  rewrite !bind_eval.
  destruct (gets yet_to_check s0) as [[q|e] s1]; [|done].
  rewrite !bind_eval, advance_loop_store_best_ofs. reflexivity.
Qed.

Lemma drain_loop_store_best_ofs b self E fuel : ∀ s,
  drain_loop (set_store_best_ofs b self) E fuel s = drain_loop self E fuel s.
Proof.
  assert (Hround : ∀ s, drain_round (set_store_best_ofs b self) E s
                        = drain_round self E s).
  { intros s. unfold drain_round.
    by rewrite !bind_eval, advance_bests_store_best_ofs. }
  induction fuel as [|fuel IH]; intros s; simpl; [done|].
  rewrite Hround. destruct (yet_to_check s); [done|].
  destruct (drain_round self E s) as [[[]|e] s1]; auto.
Qed.

(** X4.  The flag [store_best_ofs] has no effect.  Whatever its value,
    the pass, the enqueue operation and the shutdown loop do the same;
    and a plugin built with the flag off still copies the frame it
    reposts into its album directory. *)
Theorem store_best_ofs_is_ignored self E b :
  (∀ s, _advance_bests (set_store_best_ofs b self) E s
        = _advance_bests self E s) ∧
  (∀ frame s, _queue_frame_for_check (set_store_best_ofs b self) E frame s
              = _queue_frame_for_check self E frame s) ∧
  (∀ fuel s, _handle_quicker (set_store_best_ofs b self) E fuel s
             = _handle_quicker self E fuel s) ∧
  (∀ l rest s s' data,
     let fr := deref (objs s) l in
     let archive := joinpath (album_path self) (best_of_file_name fr) in
     store_best_ofs self = false →
     yet_to_check s = l :: rest →
     advance_step self E l s = (Ok false, s') →
     reactions_threshold self < reactions_total fr →
     fs s !! local_file fr = Some data →
     archive ≠ yet_to_check_file self →
     EvCopy (local_file fr) archive None ∈ trace s' ∧
     fs s' !! archive = Some data).
Proof.
  split_and!.
  - intros s. apply advance_bests_store_best_ofs.
  - done.
  - intros fuel s. apply drain_loop_store_best_ofs.
  - intros l rest s s' data fr archive _ Hq Hstep Hpop Hdata Harch.
    subst fr archive. munfold. simpl in Hstep.
    mcases; rewrite ?Hq in *; simplify_eq/=.
    all: repeat match goal with
           | H : bool_decide _ = false |- _ =>
               apply bool_decide_eq_false in H
           | H : (_ <? _) = false |- _ => apply Z.ltb_ge in H
           end.
    all: try lia.
    + split.
      * rewrite !elem_of_app, !elem_of_cons. left. left. by right; left.
      * rewrite lookup_insert_ne by done. by rewrite lookup_insert_eq.
    + exfalso. match goal with H : ¬ is_Some _ |- _ => apply H end.
      by eexists.
Qed.

(** ** Passes that drain the queue *)

Lemma timedelta_div2_le td : 0 ≤ td → 0 ≤ timedelta_div2 td ≤ td.
Proof.
  intros Htd. unfold timedelta_div2.
  pose proof (Z.div_mod td 2 ltac:(lia)) as Hdm.
  pose proof (Z.mod_pos_bound td 2 ltac:(lia)) as Hb.
  assert (0 ≤ td / 2) by (apply Z.div_pos; lia).
  destruct (td mod 2 =? 1) eqn:Hr, (Z.odd (td / 2)); simpl; lia.
Qed.

Lemma sleeps_app evs1 evs2 :
  sleeps (evs1 ++ evs2) = sleeps evs1 ++ sleeps evs2.
Proof. apply omap_app. Qed.

Lemma passes_app evs1 evs2 :
  passes (evs1 ++ evs2) = (passes evs1 + passes evs2)%nat.
Proof. unfold passes. by rewrite filter_app, length_app. Qed.

Lemma uploaded_app evs1 evs2 :
  uploaded (evs1 ++ evs2) = uploaded evs1 ++ uploaded evs2.
Proof. apply omap_app. Qed.

Lemma entry_work_quiet work :
  Forall (λ e, entry_work e = true) work →
  sleeps work = [] ∧ passes work = 0%nat.
Proof.
  intros Hw. split.
  - unfold sleeps. induction Hw as [|e w He _ IH]; [done|].
    destruct e; simpl in *; try discriminate; exact IH.
  - unfold passes. induction Hw as [|e w He _ IH]; [done|].
    rewrite filter_cons, decide_False; [exact IH|].
    intros ->. discriminate He.
Qed.

(** The loop of a pass neither sleeps nor starts a pass. *)
Lemma pass_quiet o file threshold q evs q' r :
  pass_trace o file threshold q evs q' r →
  sleeps evs = [] ∧ passes evs = 0%nat.
Proof.
  induction 1 as [|l q t Hyoung|l q t work ev e Hel Hw Hnf Hfail
                  |l q t work evs q' r Hel Hw Hnf Hpass [IH1 IH2]].
  - done.
  - done.
  - destruct (entry_work_quiet _ Hw) as [H1 H2].
    rewrite sleeps_app, passes_app, H1, H2. done.
  - destruct (entry_work_quiet _ Hw) as [H1 H2].
    rewrite !sleeps_app, !passes_app, H1, H2, IH1, IH2. done.
Qed.

(** A pass that leaves an empty queue has ended normally. *)
Lemma pass_to_empty o file threshold q evs r :
  pass_trace o file threshold q evs [] r → r = Ok tt.
Proof.
  remember [] as q' eqn:Hq'. induction 1; try done. auto.
Qed.

Section healthy.

Context (self : BestOfReposter) (E : Env).
Context (Hup : ∀ n, is_Some (upload_result E n)).
Context (Hos : ∀ n, os_error E n = false).

(** In a world that refuses nothing, an iteration on an eligible head
    of a checkable queue pops it. *)
Lemma advance_step_pops l rest s :
  yet_to_check s = l :: rest →
  eligible (time_threshold s) (deref (objs s) l) (clock E (tick s)) →
  checkable self (objs s) (fs s) (l :: rest) →
  ∃ s', advance_step self E l s = (Ok false, s').
Proof.
  intros Hq Hel (Hthere & _ & Hdiff). unfold eligible in Hel.
  unfold snapshot in Hthere, Hdiff. rewrite fmap_cons in Hthere, Hdiff.
  rewrite filter_cons in Hthere.
  apply Forall_cons in Hdiff as [Hdiff _].
  pose proof (Hup (S (tick s))) as [id Hid].
  pose proof (Hos (S (tick s))) as Hos1.
  pose proof (Hos (S (S (tick s)))) as Hos2.
  munfold. simpl.
  destruct (_ <? time_threshold s) eqn:Hy; [apply Z.ltb_lt in Hy; lia|].
  simpl.
  destruct (reactions_threshold self <? _) eqn:Hpop; simpl.
  - apply Z.ltb_lt in Hpop. specialize (Hdiff Hpop).
    destruct (bool_decide (is_Some (fs s !! _))) eqn:Hex; simpl.
    + apply bool_decide_eq_true in Hex as [data Hdata].
      rewrite Hid. simpl. rewrite decide_False by done.
      rewrite Hdata. simpl. rewrite Hos2. simpl. rewrite Hq. simpl.
      by eexists.
    + rewrite Hq. simpl. by eexists.
  - apply Z.ltb_ge in Hpop. rewrite decide_True in Hthere by done.
    apply Forall_cons in Hthere as [[data Hdata] _].
    rewrite Hdata. simpl. rewrite Hos1. simpl. rewrite Hq. simpl.
    by eexists.
Qed.

(** What is left of a checkable queue after an iteration is checkable. *)
Lemma advance_step_checkable l rest s s' :
  yet_to_check s = l :: rest →
  advance_step self E l s = (Ok false, s') →
  checkable self (objs s) (fs s) (l :: rest) →
  checkable self (objs s') (fs s') rest.
Proof.
  intros Hq Hstep (Hthere & Hnodup & Hdiff).
  destruct (advance_step_inv self E _ _ _ _ _ Hq Hstep) as (Ho & _).
  unfold checkable. rewrite Ho.
  unfold snapshot in *. rewrite fmap_cons in Hthere, Hnodup, Hdiff.
  rewrite filter_cons in Hthere, Hnodup.
  apply Forall_cons in Hdiff as [_ Hdiff].
  split_and!; [| |done].
  - apply Forall_forall. intros fr Hfr.
    apply (advance_step_files self E _ _ _ _ _ Hq Hstep (local_file fr)).
    + destruct (decide _); [apply Forall_cons in Hthere as [_ Hthere]|];
        rewrite Forall_forall in Hthere; by apply Hthere.
    + intros Hlow Heq. rewrite decide_True in Hnodup by done.
      rewrite fmap_cons in Hnodup. apply NoDup_cons in Hnodup as [Hnot _].
      apply Hnot. rewrite <- Heq. by apply list_elem_of_fmap_2.
  - destruct (decide _); [|done].
    rewrite fmap_cons in Hnodup. by apply NoDup_cons in Hnodup as [_ ?].
Qed.

Lemma advance_loop_drains q : ∀ m s,
  yet_to_check s = q →
  (∀ l n, l ∈ q →
          eligible (time_threshold s) (deref (objs s) l) (clock E n)) →
  checkable self (objs s) (fs s) q →
  yet_to_check (advance_loop self E q m s).2 = [].
Proof.
  induction q as [|l rest IH]; intros m s Hq Hel Hch; [done|].
  simpl. rewrite bind_eval. unfold try_.
  destruct (advance_step_pops l rest s Hq) as (s1 & Hstep); [|done|].
  { apply Hel. by left. }
  rewrite Hstep. simpl.
  destruct (advance_step_inv self E _ _ _ _ _ Hq Hstep)
    as (Ho & Hthr & _ & Hq1 & _).
  apply IH; [done| |by eapply advance_step_checkable].
  intros l' n Hl'. rewrite Ho, Hthr. apply Hel. by right.
Qed.

(** What a pass that drains the queue has done. *)
Lemma advance_bests_drains s :
  (∀ l n, l ∈ yet_to_check s →
          eligible (time_threshold s) (deref (objs s) l) (clock E n)) →
  checkable self (objs s) (fs s) (yet_to_check s) →
  ∃ s' evs,
    _advance_bests self E s = (Ok tt, s') ∧
    yet_to_check s' = [] ∧
    time_threshold s' = time_threshold s ∧
    trace s' = trace s ++ evs ∧
    pops evs = yet_to_check s ∧
    (∀ ev, ev ∈ evs → failure_of ev = None) ∧
    (∀ x, EvLog Warning (MsgProblemDuringCheck x) ∉ evs) ∧
    sleeps evs = [] ∧ passes evs = 1%nat.
Proof.
  intros Hel Hch.
  destruct (advance_bests_run self E s)
    as (r0 & m0 & s1 & s0' & Hloop & Hrun0 & _ & Hq0 & _).
  pose proof (advance_loop_drains (yet_to_check s) false
                (with_trace (trace s ++ [EvLog Info MsgCheckingForBestOf]) s)
                eq_refl Hel Hch) as Hempty.
  rewrite Hloop in Hempty. simpl in Hempty.
  destruct (advance_bests_spec self E s)
    as (r & s' & evs & Hrun & Ho & Hthr & Hpass & Htr & _).
  assert (s0' = s') as -> by congruence.
  rewrite Hempty in Hq0. rewrite Hq0 in Hpass, Htr.
  pose proof (pass_to_empty _ _ _ _ _ _ Hpass) as ->.
  pose proof (pass_pops _ _ _ _ _ _ _ Hpass) as Hpops.
  rewrite app_nil_r in Hpops.
  destruct (pass_quiet _ _ _ _ _ _ _ Hpass) as [Hsl Hpa].
  exists s'. eexists. split; [exact Hrun|]. split; [exact Hq0|].
  split; [exact Hthr|]. split; [exact Htr|].
  unfold handler_events, finally_events.
  split_and!.
  - change (pops (evs ++ (if bool_decide (pops evs ≠ [])
                          then [EvDump (yet_to_check_file self)
                                  (snapshot (objs s) [])]
                          else []) ++ [EvLog Info MsgDoneChecking])
            = yet_to_check s).
    rewrite pops_app. destruct (bool_decide _); simpl;
      by rewrite app_nil_r.
  - intros ev Hev.
    apply elem_of_cons in Hev as [->|Hev]; [done|].
    apply elem_of_app in Hev as [Hev|Hev].
    + destruct (failure_of ev) as [x|] eqn:Hx; [|done].
      by pose proof (pass_failures _ _ _ _ _ _ _ Hpass _ _ Hev Hx).
    + simpl in Hev. destruct (bool_decide _);
        repeat (apply elem_of_cons in Hev as [->|Hev]; [done|]);
        by apply elem_of_nil in Hev.
  - intros x Hev.
    apply elem_of_cons in Hev as [?|Hev]; [done|].
    apply elem_of_app in Hev as [Hev|Hev].
    + assert (Hc : checked evs = checked evs) by done.
      clear Hc. revert Hev. clear -Hpass.
      induction Hpass as [|l q t Hyoung|l q t work ev e Hel Hw Hnf Hfail
                          |l q t work evs q' r Hel Hw Hnf Hpass IH].
      * by intros ?%elem_of_nil.
      * intros Hev. apply elem_of_cons in Hev as [?|Hev]; [done|].
        by apply elem_of_nil in Hev.
      * rewrite !elem_of_app. intros [Hev|Hev].
        -- repeat (apply elem_of_cons in Hev as [?|Hev]; [done|]).
           by apply elem_of_nil in Hev.
        -- assert (Hall : Forall (λ e, entry_work e = true) (work ++ [ev]))
             by done.
           rewrite Forall_forall in Hall.
           assert (Hin : EvLog Warning (MsgProblemDuringCheck x)
                         ∈ work ++ [ev]) by (by apply elem_of_app).
           by specialize (Hall _ Hin).
      * rewrite !elem_of_app. intros [Hev|[Hev|[Hev|Hev]]].
        -- repeat (apply elem_of_cons in Hev as [?|Hev]; [done|]).
           by apply elem_of_nil in Hev.
        -- rewrite Forall_forall in Hw. by specialize (Hw _ Hev).
        -- repeat (apply elem_of_cons in Hev as [?|Hev]; [done|]).
           by apply elem_of_nil in Hev.
        -- by apply IH.
    + simpl in Hev. destruct (bool_decide _);
        repeat (apply elem_of_cons in Hev as [?|Hev]; [done|]);
        by apply elem_of_nil in Hev.
  - change (sleeps (evs ++ (if bool_decide (pops evs ≠ [])
                            then [EvDump (yet_to_check_file self)
                                    (snapshot (objs s) [])]
                            else []) ++ [EvLog Info MsgDoneChecking]) = []).
    rewrite sleeps_app, Hsl. by destruct (bool_decide _).
  - change (S (passes (evs ++ (if bool_decide (pops evs ≠ [])
                            then [EvDump (yet_to_check_file self)
                                    (snapshot (objs s) [])]
                            else []) ++ [EvLog Info MsgDoneChecking]))
            = 1%nat).
    rewrite passes_app, Hpa. by destruct (bool_decide _).
Qed.

End healthy.

(** X5.  In a world in which the client accepts every upload and the
    operating system refuses nothing, a single pass over a checkable queue
    all of whose entries are eligible whenever the clock is read empties
    the queue: every entry is popped, in queue order, no call fails and no
    warning is logged. *)
Theorem one_pass_drains_a_checkable_queue self E s :
  (∀ n, is_Some (upload_result E n)) →
  (∀ n, os_error E n = false) →
  (∀ l n, l ∈ yet_to_check s →
          eligible (time_threshold s) (deref (objs s) l) (clock E n)) →
  checkable self (objs s) (fs s) (yet_to_check s) →
  ∃ s' evs,
    _advance_bests self E s = (Ok tt, s') ∧
    yet_to_check s' = [] ∧
    trace s' = trace s ++ evs ∧
    pops evs = yet_to_check s ∧
    (∀ ev, ev ∈ evs → failure_of ev = None) ∧
    (∀ x, EvLog Warning (MsgProblemDuringCheck x) ∉ evs).
Proof.
  intros Hup Hos Hel Hch.
  destruct (advance_bests_drains self E Hup Hos s Hel Hch)
    as (s' & evs & Hrun & Hq & _ & Htr & Hpops & Hnf & Hnw & _).
  exists s', evs. done.
Qed.

(** The scenario of two entries, one above and one below the reactions
    threshold, in the calm world. *)
Lemma two_entries_checkable :
  checkable Scenario.self (objs Cases.two_entries) (fs Cases.two_entries)
    (yet_to_check Cases.two_entries).
Proof.
  split_and!.
  - repeat constructor. vm_compute. by eexists.
  - vm_compute. repeat constructor; rewrite ?elem_of_cons, ?elem_of_nil;
      intuition discriminate.
  - repeat constructor; vm_compute; intros; discriminate.
Qed.

Lemma two_entries_eligible (E : Env) :
  (∀ n, clock E n = timedelta_hours 2) →
  ∀ l n, l ∈ yet_to_check Cases.two_entries →
    eligible (timedelta_hours 1) (deref (objs Cases.two_entries) l)
      (clock E n).
Proof.
  intros Hclock l n Hl. rewrite Hclock.
  repeat (apply elem_of_cons in Hl as [->|Hl]; [vm_compute; discriminate|]).
  by apply elem_of_nil in Hl.
Qed.

Lemma one_pass_drains_a_checkable_queue_witness :
  ∃ s' evs,
    _advance_bests Scenario.self Scenario.calm Cases.two_entries
      = (Ok tt, s') ∧
    yet_to_check s' = [] ∧
    trace s' = trace Cases.two_entries ++ evs ∧
    pops evs = [0%nat; 1%nat] ∧
    (∀ ev, ev ∈ evs → failure_of ev = None) ∧
    (∀ x, EvLog Warning (MsgProblemDuringCheck x) ∉ evs).
Proof.
  apply (one_pass_drains_a_checkable_queue Scenario.self Scenario.calm
           Cases.two_entries).
  - intros n. by eexists.
  - reflexivity.
  - by apply two_entries_eligible.
  - apply two_entries_checkable.
Defined.

Section shutdown_more.

Context (self : BestOfReposter) (E : Env).

(** X6.  Under the same conditions, and with a time threshold that is
    not negative, the shutdown hook returns after a single pass, without
    sleeping, whatever the number of rounds it is allowed: halving the
    threshold keeps every entry eligible, and the pass empties the
    queue. *)
Theorem handle_quicker_returns_after_one_pass s fuel :
  (∀ n, is_Some (upload_result E n)) →
  (∀ n, os_error E n = false) →
  0 ≤ time_threshold s →
  yet_to_check s ≠ [] →
  (∀ l n, l ∈ yet_to_check s →
          eligible (time_threshold s) (deref (objs s) l) (clock E n)) →
  checkable self (objs s) (fs s) (yet_to_check s) →
  ∃ s' evs,
    _handle_quicker self E (S fuel) s = Some (Ok tt, s') ∧
    yet_to_check s' = [] ∧
    time_threshold s' = timedelta_div2 (time_threshold s) ∧
    trace s' = trace s ++ evs ∧
    passes evs = 1%nat ∧ sleeps evs = [] ∧
    pops evs = yet_to_check s.
Proof.
  intros Hup Hos Hthr Hne Hel Hch.
  set (s0 := with_time_threshold (timedelta_div2 (time_threshold s)) s).
  destruct (advance_bests_drains self E Hup Hos s0)
    as (s' & evs & Hrun & Hq & Hthr' & Htr & Hpops & _ & _ & Hsl & Hpa).
  { intros l n Hl. specialize (Hel l n Hl). unfold eligible in *. simpl.
    pose proof (timedelta_div2_le _ Hthr). lia. }
  { done. }
  exists s', evs. split_and!; try done.
  unfold _handle_quicker. fold s0. simpl.
  change (yet_to_check s0) with (yet_to_check s).
  destruct (yet_to_check s) as [|l rest] eqn:Hqs; [done|].
  destruct (drain_round_spec self E s0) as (s1 & Hrun1 & -> & _).
  assert (s1 = s') as -> by congruence.
  rewrite Hq. destruct fuel; simpl; by rewrite Hq.
Qed.

Lemma advance_bests_counts s :
  ∃ s1 evs,
    _advance_bests self E s = (Ok tt, s1) ∧
    trace s1 = trace s ++ evs ∧
    passes evs = 1%nat ∧ sleeps evs = [].
Proof.
  destruct (advance_bests_spec self E s)
    as (r & s1 & evs & Hrun & _ & _ & Hpass & Htr & _).
  destruct (pass_quiet _ _ _ _ _ _ _ Hpass) as [Hsl Hpa].
  exists s1. eexists. split; [exact Hrun|]. split; [exact Htr|].
  change (S (passes (evs ++ handler_events r
             ++ finally_events (yet_to_check_file self)
                  (snapshot (objs s) (yet_to_check s1))
                  (bool_decide (pops evs ≠ []))
             ++ [EvLog Info MsgDoneChecking])) = 1%nat
          ∧ sleeps (evs ++ handler_events r
             ++ finally_events (yet_to_check_file self)
                  (snapshot (objs s) (yet_to_check s1))
                  (bool_decide (pops evs ≠ []))
             ++ [EvLog Info MsgDoneChecking]) = []).
  rewrite passes_app, sleeps_app, Hsl, Hpa.
  by destruct r as [[]|e], (bool_decide _).
Qed.

Lemma drain_loop_counts fuel : ∀ s r s',
  drain_loop self E fuel s = Some (r, s') →
  ∃ n evs,
    (n ≤ fuel)%nat ∧
    trace s' = trace s ++ evs ∧
    passes evs = n ∧
    sleeps evs = replicate (pred n) 3600 ∧
    (n = 0%nat ↔ yet_to_check s = []).
Proof.
  induction fuel as [|fuel IH]; intros s r s'; simpl.
  - destruct (yet_to_check s) as [|l0 q0] eqn:Hq; [|done].
    intros [= <- <-]. exists 0%nat, []. by rewrite app_nil_r.
  - destruct (yet_to_check s) as [|l0 q0] eqn:Hq.
    + intros [= <- <-]. exists 0%nat, []. rewrite app_nil_r.
      split_and!; try done. lia.
    + destruct (drain_round_spec self E s) as (s1 & Hrun & -> & _).
      destruct (advance_bests_counts s)
        as (s1' & evs1 & Hrun' & Htr1 & Hpa1 & Hsl1).
      assert (s1' = s1) as -> by congruence.
      intros Hloop.
      destruct (IH _ _ _ Hloop) as (n & evs & Hn & Htr & Hpa & Hsl & Hz).
      destruct (yet_to_check s1) as [|l1 q1] eqn:Hq1.
      * assert (n = 0%nat) as -> by (by apply Hz).
        exists 1%nat, (evs1 ++ evs).
        rewrite passes_app, sleeps_app, Hpa1, Hsl1, Hpa, Hsl.
        split_and!; try done; try lia.
        by rewrite Htr, Htr1, (assoc_L (++)).
      * simpl in Htr, Hz.
        assert (Hnz : n ≠ 0%nat).
        { intros ->. destruct Hz as [Hz _]. specialize (Hz eq_refl).
          congruence. }
        exists (S n),
          (evs1 ++ [EvLog Info (MsgStillToCheck (S (length q1)));
                    EvSleep 3600] ++ evs).
        rewrite !passes_app, !sleeps_app, Hpa1, Hsl1, Hpa, Hsl.
        split_and!; try done; try lia.
        -- rewrite Htr, Htr1. by rewrite <- !(assoc_L (++)).
        -- destruct n; [done|]. done.
Qed.

(** X7.  When the shutdown hook returns after [n] passes, it has slept
    [n - 1] times, one hour each time: between two passes, and not after
    the last one.  With an empty queue it returns at once, without a pass
    and without a sleep. *)
Theorem handle_quicker_sleeps_between_passes fuel s r s' :
  _handle_quicker self E fuel s = Some (r, s') →
  ∃ n evs,
    (n ≤ fuel)%nat ∧
    trace s' = trace s ++ evs ∧
    passes evs = n ∧
    sleeps evs = replicate (pred n) 3600 ∧
    (n = 0%nat ↔ yet_to_check s = []).
Proof.
  intros Hrun. unfold _handle_quicker in Hrun.
  apply drain_loop_counts in Hrun. exact Hrun.
Qed.

End shutdown_more.

Lemma handle_quicker_returns_after_one_pass_witness :
  ∃ s' evs,
    _handle_quicker Scenario.self Scenario.calm 1 Cases.two_entries
      = Some (Ok tt, s') ∧
    yet_to_check s' = [] ∧
    time_threshold s' = timedelta_div2 (timedelta_hours 1) ∧
    trace s' = trace Cases.two_entries ++ evs ∧
    passes evs = 1%nat ∧ sleeps evs = [] ∧
    pops evs = [0%nat; 1%nat].
Proof.
  apply (handle_quicker_returns_after_one_pass Scenario.self Scenario.calm
           Cases.two_entries 0).
  - intros n. by eexists.
  - reflexivity.
  - vm_compute. discriminate.
  - discriminate.
  - by apply two_entries_eligible.
  - apply two_entries_checkable.
Defined.

Lemma handle_quicker_sleeps_between_passes_witness :
  let s := Scenario.one_entry 150 true in
  ∃ s',
    _handle_quicker Scenario.self Cases.waking 2 s = Some (Ok tt, s') ∧
    ∃ n evs,
      (n ≤ 2)%nat ∧
      trace s' = trace s ++ evs ∧
      passes evs = n ∧
      sleeps evs = replicate (pred n) 3600 ∧
      (n = 0%nat ↔ yet_to_check s = []).
Proof.
  intros s.
  destruct (drain_loop_enough Scenario.self Cases.waking 2
              (with_time_threshold (timedelta_div2 (time_threshold s)) s))
    as (s' & Hrun & _); [vm_compute; reflexivity|].
  exists s'. split; [exact Hrun|].
  exact (handle_quicker_sleeps_between_passes Scenario.self Cases.waking
           2 s (Ok tt) s' Hrun).
Defined.

(** In the waking world the first pass finds the entry too young, the
    hook sleeps an hour, and the second pass reposts the entry. *)
Example two_passes_one_sleep :
  let s := Scenario.one_entry 150 true in
  let s' := after_rounds Scenario.self Cases.waking 2
              (with_time_threshold (timedelta_div2 (time_threshold s)) s) in
  yet_to_check s' = [] ∧ passes (trace s') = 2%nat ∧
  sleeps (trace s') = [3600] ∧
  uploaded (trace s') = [Scenario.held "7.jpg"].
Proof. split_and!; vm_compute; reflexivity. Qed.

(** ** A pass that reposts and cannot archive *)

Section reposting.

Context (self : BestOfReposter) (E : Env).
Context (Hup : ∀ n, is_Some (upload_result E n)).
Context (Hos : ∀ n, os_error E n = true).

Lemma repost_pass l rest s :
  let fr := deref (objs s) l in
  yet_to_check s = l :: rest →
  eligible (time_threshold s) fr (clock E (tick s)) →
  reactions_threshold self < reactions_total fr →
  is_Some (fs s !! local_file fr) →
  ∃ s' evs,
    _advance_bests self E s = (Ok tt, s') ∧
    yet_to_check s' = l :: rest ∧ objs s' = objs s ∧ fs s' = fs s ∧
    time_threshold s' = time_threshold s ∧
    trace s' = trace s ++ evs ∧
    uploaded evs = [local_file fr].
Proof.
  intros fr Hq Hel Hpop [data Hdata]. unfold eligible in Hel.
  pose proof (Hup (S (tick s))) as [id Hid].
  pose proof (Hos (S (S (tick s)))) as Hos2.
  unfold _advance_bests. munfold. simpl. rewrite Hq. simpl.
  munfold. simpl. fold fr.
  destruct (_ <? time_threshold s) eqn:H1; [apply Z.ltb_lt in H1; lia|].
  destruct (reactions_threshold self <? reactions_total fr) eqn:H2;
    [|apply Z.ltb_ge in H2; lia].
  simpl.
  rewrite (bool_decide_true (is_Some (fs s !! local_file fr)))
    by (rewrite Hdata; by eexists).
  simpl. rewrite Hid. simpl.
  destruct (decide (local_file fr = _)) as [Heq|Hne]; simpl.
  - eexists _, _. split; [reflexivity|]. simpl. split_and!; try done.
    + by rewrite <- !(assoc_L (++)).
    + done.
  - rewrite Hdata. simpl. rewrite Hos2. simpl.
    eexists _, _. split; [reflexivity|]. simpl. split_and!; try done.
    + by rewrite <- !(assoc_L (++)).
    + done.
Qed.

Lemma repost_round l rest s :
  let fr := deref (objs s) l in
  yet_to_check s = l :: rest →
  eligible (time_threshold s) fr (clock E (tick s)) →
  reactions_threshold self < reactions_total fr →
  is_Some (fs s !! local_file fr) →
  ∃ s' evs,
    drain_round self E s = (Ok tt, s') ∧
    yet_to_check s' = l :: rest ∧ objs s' = objs s ∧ fs s' = fs s ∧
    time_threshold s' = time_threshold s ∧
    trace s' = trace s ++ evs ∧
    uploaded evs = [local_file fr] ∧
    sleeps evs = [3600].
Proof.
  intros fr Hq Hel Hpop Hthere.
  destruct (repost_pass l rest s Hq Hel Hpop Hthere)
    as (s1 & evs & Hrun & Hq1 & Ho & Hfs & Hthr & Htr & Hup1).
  destruct (advance_bests_counts self E s)
    as (s1' & evs' & Hrun' & Htr' & _ & Hsl).
  assert (s1' = s1) as -> by congruence.
  assert (evs' = evs) as -> by (rewrite Htr in Htr'; by simplify_list_eq).
  destruct (drain_round_spec self E s) as (s2 & Hrun2 & -> & _).
  assert (s2 = s1) as -> by congruence.
  rewrite Hq1. eexists.
  exists (evs ++ [EvLog Info (MsgStillToCheck (length (l :: rest)));
                  EvSleep 3600]).
  split; [reflexivity|]. simpl.
  split_and!; try done.
  - by rewrite Htr, <- (assoc_L (++)).
  - rewrite uploaded_app, Hup1. done.
  - rewrite sleeps_app, Hsl. done.
Qed.

Lemma repost_rounds l rest n : ∀ s,
  let fr := deref (objs s) l in
  yet_to_check s = l :: rest →
  (∀ k, eligible (time_threshold s) fr (clock E k)) →
  reactions_threshold self < reactions_total fr →
  is_Some (fs s !! local_file fr) →
  let s' := after_rounds self E n s in
  yet_to_check s' = l :: rest ∧
  ∃ evs,
    trace s' = trace s ++ evs ∧
    uploaded evs = replicate n (local_file fr) ∧
    sleeps evs = replicate n 3600.
Proof.
  induction n as [|n IH]; intros s fr Hq Hel Hpop Hthere; simpl.
  - split; [done|]. exists []. by rewrite app_nil_r.
  - destruct (repost_round l rest s Hq (Hel _) Hpop Hthere)
      as (s1 & evs1 & Hrun & Hq1 & Ho & Hfs & Hthr & Htr & Hup1 & Hsl1).
    rewrite Hrun. simpl.
    destruct (IH s1) as (Hq' & evs & Htr' & Hup' & Hsl');
      rewrite ?Ho, ?Hfs, ?Hthr; try done.
    split; [done|]. exists (evs1 ++ evs).
    rewrite uploaded_app, sleeps_app, Hup1, Hsl1, Hup', Hsl', Ho.
    split_and!; try done. by rewrite Htr', Htr, (assoc_L (++)).
Qed.

Lemma repost_forever l rest fuel : ∀ s,
  let fr := deref (objs s) l in
  yet_to_check s = l :: rest →
  (∀ k, eligible (time_threshold s) fr (clock E k)) →
  reactions_threshold self < reactions_total fr →
  is_Some (fs s !! local_file fr) →
  drain_loop self E fuel s = None.
Proof.
  induction fuel as [|fuel IH]; intros s fr Hq Hel Hpop Hthere; simpl.
  - by rewrite Hq.
  - destruct (repost_round l rest s Hq (Hel _) Hpop Hthere)
      as (s1 & evs1 & Hrun & Hq1 & Ho & Hfs & Hthr & _).
    rewrite Hq, Hrun. apply IH; rewrite ?Ho, ?Hfs, ?Hthr; done.
Qed.

End reposting.

(** X8.  When the operating system refuses the copy into the album
    directory, the head of the queue is uploaded and then stays where it
    is, so that the next pass uploads it again.  During shutdown, with
    the head eligible for the halved threshold whenever the clock is read
    and a client that accepts every upload, the frame is reposted once
    per round, an hour apart, and the hook never returns. *)
Theorem failed_archive_copy_reposts_every_pass self E s l rest :
  let fr := deref (objs s) l in
  (∀ n, is_Some (upload_result E n)) →
  (∀ n, os_error E n = true) →
  yet_to_check s = l :: rest →
  (∀ n, eligible (timedelta_div2 (time_threshold s)) fr (clock E n)) →
  reactions_threshold self < reactions_total fr →
  is_Some (fs s !! local_file fr) →
  let s0 := with_time_threshold (timedelta_div2 (time_threshold s)) s in
  (∀ n, ∃ evs,
     yet_to_check (after_rounds self E n s0) = l :: rest ∧
     trace (after_rounds self E n s0) = trace s ++ evs ∧
     uploaded evs = replicate n (local_file fr) ∧
     sleeps evs = replicate n 3600) ∧
  (∀ fuel, _handle_quicker self E fuel s = None).
Proof.
  intros fr Hup Hos Hq Hel Hpop Hthere s0. split.
  - intros n.
    destruct (repost_rounds self E Hup Hos l rest n s0 Hq Hel Hpop Hthere)
      as (Hq' & evs & Htr & Hu & Hs).
    by exists evs.
  - intros fuel. unfold _handle_quicker.
    by apply (repost_forever self E Hup Hos l rest).
Qed.

Lemma failed_archive_copy_reposts_every_pass_witness :
  let self := Scenario.self in
  let s := Scenario.one_entry 150 true in
  let s0 := with_time_threshold (timedelta_div2 (time_threshold s)) s in
  (∀ n, ∃ evs,
     yet_to_check (after_rounds self Cases.full_disk n s0) = [0%nat] ∧
     trace (after_rounds self Cases.full_disk n s0) = trace s ++ evs ∧
     uploaded evs = replicate n (Scenario.held "7.jpg") ∧
     sleeps evs = replicate n 3600) ∧
  (∀ fuel, _handle_quicker self Cases.full_disk fuel s = None).
Proof.
  apply (failed_archive_copy_reposts_every_pass Scenario.self
           Cases.full_disk (Scenario.one_entry 150 true) 0%nat []).
  - intros n. by eexists.
  - reflexivity.
  - reflexivity.
  - intros n. vm_compute. discriminate.
  - vm_compute. reflexivity.
  - vm_compute. by eexists.
Defined.

(** ** More on enqueueing *)

Section enqueue_more.

Context (self : BestOfReposter) (E : Env).


(** The enqueue operation when the copy succeeds. *)
Lemma queue_frame_ok frame fr data s :
  let held := joinpath (frames_dir self) (name (local_file fr)) in
  let clone := fresh (dom (objs s)) in
  let o' := <[clone := set_local_file fr held]> (objs s) in
  let q' := yet_to_check s ++ [clone] in
  objs s !! frame = Some fr →
  fs s !! local_file fr = Some data →
  local_file fr ≠ held →
  os_error E (tick s) = false →
  ∃ s',
    _queue_frame_for_check self E frame s = (Ok tt, s') ∧
    objs s' = o' ∧ yet_to_check s' = q' ∧ tick s' = S (tick s) ∧
    fs s' = <[yet_to_check_file self := Json (snapshot o' q')]>
              (<[held := data]> (fs s)).
Proof.
  intros held clone o' q' Hfr Hdata Hne Hos.
  assert (Hd : deref (objs s) frame = fr).
  { unfold deref. by rewrite (lookup_total_correct _ _ _ Hfr). }
  unfold _queue_frame_for_check. munfold. simpl.
  rewrite !deref_insert_eq, Hd. fold held.
  rewrite decide_False by done. rewrite Hdata. simpl. rewrite Hos. simpl.
  eexists. split; [reflexivity|]. simpl.
  rewrite ?deref_insert_eq, ?insert_insert_eq. done.
Qed.

(** X10.  The held copy is named after the last component of the frame's
    file alone.  When two frames whose files have the same name are
    enqueued one after the other, the second copy replaces the first:
    both queue entries point to the same held file, which holds the
    second frame's image. *)
Theorem enqueue_same_name_overwrites_held_copy f1 f2 fr1 fr2 d1 d2 s :
  let held := joinpath (frames_dir self) (name (local_file fr1)) in
  objs s !! f1 = Some fr1 → objs s !! f2 = Some fr2 →
  name (local_file fr1) = name (local_file fr2) →
  fs s !! local_file fr1 = Some d1 → fs s !! local_file fr2 = Some d2 →
  local_file fr1 ≠ held → local_file fr2 ≠ held →
  local_file fr2 ≠ yet_to_check_file self →
  held ≠ yet_to_check_file self →
  os_error E (tick s) = false → os_error E (S (tick s)) = false →
  ∃ s1 s2 c1 c2,
    _queue_frame_for_check self E f1 s = (Ok tt, s1) ∧
    _queue_frame_for_check self E f2 s1 = (Ok tt, s2) ∧
    c1 ≠ c2 ∧
    yet_to_check s2 = yet_to_check s ++ [c1; c2] ∧
    local_file (deref (objs s2) c1) = held ∧
    local_file (deref (objs s2) c2) = held ∧
    fs s1 !! held = Some d1 ∧
    fs s2 !! held = Some d2.
Proof.
  intros held Hf1 Hf2 Hname Hd1 Hd2 Hne1 Hne2 Hnq Hhq Hos1 Hos2.
  destruct (queue_frame_ok f1 fr1 d1 s Hf1 Hd1 Hne1 Hos1)
    as (s1 & Hrun1 & Ho1 & Hq1 & Ht1 & Hfs1).
  fold held in Ho1, Hfs1.
  set (c1 := fresh (dom (objs s))) in *.
  assert (Hc1 : c1 ∉ dom (objs s)) by apply is_fresh.
  assert (Hf2' : objs s1 !! f2 = Some fr2).
  { rewrite Ho1, lookup_insert_ne; [done|].
    intros <-. apply Hc1. by apply elem_of_dom. }
  assert (Hd2' : fs s1 !! local_file fr2 = Some d2).
  { rewrite Hfs1. rewrite !lookup_insert_ne by done. done. }
  destruct (queue_frame_ok f2 fr2 d2 s1 Hf2' Hd2')
    as (s2 & Hrun2 & Ho2 & Hq2 & Ht2 & Hfs2).
  { by rewrite <- Hname. }
  { by rewrite Ht1. }
  rewrite <- Hname in Ho2, Hfs2. fold held in Ho2, Hfs2.
  set (c2 := fresh (dom (objs s1))) in *.
  assert (Hc2 : c2 ∉ dom (objs s1)) by apply is_fresh.
  assert (Hc : c1 ≠ c2).
  { intros Heq. apply Hc2. rewrite <- Heq, Ho1.
    apply elem_of_dom. rewrite lookup_insert_eq. by eexists. }
  exists s1, s2, c1, c2. split_and!; try done.
  - by rewrite Hq2, Hq1, <- (assoc_L (++)).
  - rewrite Ho2. unfold deref.
    rewrite lookup_total_insert_ne by done.
    by rewrite Ho1, lookup_total_insert_eq.
  - rewrite Ho2. unfold deref. by rewrite lookup_total_insert_eq.
  - rewrite Hfs1, lookup_insert_ne by done. by rewrite lookup_insert_eq.
  - rewrite Hfs2, lookup_insert_ne by done. by rewrite lookup_insert_eq.
Qed.

(** One hook call keeps the queue live and the queue file telling. *)
Lemma call_hook_persisted c s :
  queue_live s → persisted self s →
  queue_live (call_hook self E c s).2
  ∧ persisted self (call_hook self E c s).2.
Proof.
  intros Hlive Hper. destruct c as [frame|frame]; simpl.
  - unfold BestOfReposter_before_frame_upload.
    split; [by apply advance_keeps_queue_live|].
    destruct (advance_bests_spec self E s)
      as (r & s' & evs & Hrun & Ho & _ & Hpass & _ & Hsync & Hfs).
    rewrite Hrun. simpl.
    destruct (decide (pops evs = [])) as [He|He]; [|left; by apply Hsync].
    pose proof (pass_pops _ _ _ _ _ _ _ Hpass) as Hq.
    rewrite He in Hq. simpl in Hq.
    unfold persisted, in_sync in *. by rewrite (Hfs He), Ho, Hq.
  - unfold BestOfReposter_after_frame_upload.
    split; [by apply enqueue_keeps_queue_live|].
    destruct (queue_frame_cases self E frame s)
      as (s' & _ & [(data & _ & _ & _ & -> & Ho & Hq & Hfs & _)
                   |(e & _ & -> & Ho & Hq & Hfs & _)]); simpl.
    + left. unfold in_sync. by rewrite Hfs, Ho, Hq, lookup_insert_eq.
    + unfold persisted, in_sync in *. rewrite Hfs, Hq, Ho.
      destruct Hper as [Hsync|Hnone]; [left|by right].
      rewrite Hsync. f_equal. f_equal. unfold snapshot.
      apply list_fmap_ext. intros i l Hl. unfold deref.
      rewrite lookup_total_insert_ne; [done|].
      intros <-. unfold queue_live in Hlive. rewrite Forall_forall in Hlive.
      apply (is_fresh (dom (objs s))). apply elem_of_dom, Hlive.
      by eapply list_elem_of_lookup_2.
Qed.

(** X11.  Whatever calls of [before_frame_upload] and
    [after_frame_upload] the upload loop makes, in whatever order and
    whether they return or raise, after each of them the queue file tells
    what the queue holds: the file holds exactly the queue, or there is
    no file yet and the queue is empty.  And every queued reference
    denotes a frame object. *)
Theorem queue_file_tells_the_queue_after_any_calls calls s :
  queue_live s → persisted self s →
  queue_live (after_calls self E calls s)
  ∧ persisted self (after_calls self E calls s).
Proof.
  revert s. induction calls as [|c calls IH]; intros s Hlive Hper; [done|].
  destruct (call_hook_persisted c s Hlive Hper) as [Hlive' Hper'].
  by apply IH.
Qed.

End enqueue_more.

Lemma enqueue_same_name_overwrites_held_copy_witness :
  let self := Scenario.self in
  let other : FacebookFrame :=
    set_local_file Scenario.posted ["other"; "8.jpg"] in
  let s :=
    with_fs (<[["other"; "8.jpg"] := Blob "other bytes"]>
               (fs Scenario.just_posted))
      (with_objs (<[6%nat := other]> (objs Scenario.just_posted))
         Scenario.just_posted) in
  ∃ s1 s2 c1 c2,
    _queue_frame_for_check self Scenario.calm 5%nat s = (Ok tt, s1) ∧
    _queue_frame_for_check self Scenario.calm 6%nat s1 = (Ok tt, s2) ∧
    c1 ≠ c2 ∧
    yet_to_check s2 = yet_to_check s ++ [c1; c2] ∧
    local_file (deref (objs s2) c1) = Scenario.held "8.jpg" ∧
    local_file (deref (objs s2) c2) = Scenario.held "8.jpg" ∧
    fs s1 !! Scenario.held "8.jpg" = Some (Blob "jpeg bytes") ∧
    fs s2 !! Scenario.held "8.jpg" = Some (Blob "other bytes").
Proof.
  intros self other s.
  apply (enqueue_same_name_overwrites_held_copy self Scenario.calm
           5%nat 6%nat Scenario.posted other
           (Blob "jpeg bytes") (Blob "other bytes") s).
  - reflexivity.
  - reflexivity.
  - reflexivity.
  - vm_compute. reflexivity.
  - vm_compute. reflexivity.
  - discriminate.
  - discriminate.
  - discriminate.
  - discriminate.
  - reflexivity.
  - reflexivity.
Defined.

Lemma queue_file_tells_the_queue_after_any_calls_witness :
  let calls := [CallAfterFrameUpload 5%nat; CallBeforeFrameUpload 5%nat;
                CallAfterFrameUpload 5%nat] in
  let s' := after_calls Scenario.self Scenario.calm calls
              Scenario.just_posted in
  queue_live s' ∧ persisted Scenario.self s'.
Proof.
  apply (queue_file_tells_the_queue_after_any_calls Scenario.self
           Scenario.calm).
  - constructor.
  - right. split; reflexivity.
Defined.

(** ** The directories of the best-of plugin *)

Lemma str_replace_gone old new s :
  old ≠ new → old ∉ str_replace old new s.
Proof.
  intros Hne. unfold str_replace. intros Hin.
  apply list_elem_of_fmap in Hin as (c & Hc & _).
  destruct (decide (c = old)); congruence.
Qed.

Lemma str_replace_elem old new s c :
  c ∈ str_replace old new s → c = new ∨ (c ≠ old ∧ c ∈ s).
Proof.
  unfold str_replace. intros Hin.
  apply list_elem_of_fmap in Hin as (c' & -> & Hc').
  destruct (decide (c' = old)); auto.
Qed.

Lemma normalized_video_title_chars isalnum sep video_title :
  String.list_ascii_of_string (normalized_video_title isalnum sep video_title)
  = filter (λ x, isalnum x = true
                  ∨ x ∈ String.list_ascii_of_string "._- ")
      (String.list_ascii_of_string "Bestof_"
         ++ str_replace " " "_"
              (str_replace sep "-" (String.list_ascii_of_string video_title))).
Proof. apply String.list_ascii_of_string_of_list_ascii. Qed.

(** X12.  The name of the plugin's directories for a video is safe as a
    single path component: every character of the normalized title is
    alphanumeric or one of [._-], none is a space, none is the path
    separator of POSIX or of Windows, and the name is not empty since it
    contains the underscore of ["Bestof_"].  When the letters of
    ["Bestof"] count as alphanumeric, as they do for [str.isalnum], the
    name starts with ["Bestof_"]. *)
Theorem normalized_video_title_is_safe isalnum sep video_title :
  let normalized :=
    String.list_ascii_of_string
      (normalized_video_title isalnum sep video_title) in
  Forall (λ x, isalnum x = true ∨ x ∈ ["."; "_"; "-"]%char) normalized ∧
  (" "%char ∉ normalized) ∧
  (sep = "/"%char ∨ sep = "\"%char → sep ∉ normalized) ∧
  ("_"%char ∈ normalized) ∧
  (Forall (λ x, isalnum x = true) (String.list_ascii_of_string "Bestof") →
   ∃ rest,
     normalized_video_title isalnum sep video_title = "Bestof_" +:+ rest).
Proof.
  intros normalized. subst normalized.
  rewrite normalized_video_title_chars.
  set (title := str_replace " " "_" (str_replace sep "-" _)).
  assert (Hspace : " "%char ∉ String.list_ascii_of_string "Bestof_" ++ title).
  { intros [Hin|Hin]%elem_of_app.
    - simpl in Hin.
      repeat (apply elem_of_cons in Hin as [?|Hin]; [done|]).
      by apply elem_of_nil in Hin.
    - by apply str_replace_gone in Hin. }
  split_and!.
  - apply Forall_forall. intros x [Hx Hin]%list_elem_of_filter.
    destruct Hx as [Hx|Hx]; [by left|]. right.
    apply list_elem_of_In in Hx. simpl in Hx. rewrite !elem_of_cons.
    destruct Hx as [<-|[<-|[<-|[<-|[]]]]]; auto.
    by destruct (Hspace Hin).
  - by intros [_ Hin]%list_elem_of_filter.
  - intros Hsep [_ Hin]%list_elem_of_filter.
    apply elem_of_app in Hin as [Hin|Hin].
    + simpl in Hin.
      repeat (apply elem_of_cons in Hin as [->|Hin];
              [by destruct Hsep|]).
      by apply elem_of_nil in Hin.
    + subst title.
      apply str_replace_elem in Hin as [->|[_ Hin]];
        [by destruct Hsep|].
      apply str_replace_gone in Hin; [done|].
      by destruct Hsep as [->| ->].
  - apply list_elem_of_filter. split.
    + right. simpl. rewrite !elem_of_cons. auto.
    + apply elem_of_app. left. simpl. rewrite !elem_of_cons. auto 10.
  - intros Halnum. simpl in Halnum.
    repeat (apply Forall_cons in Halnum as [? Halnum]).
    unfold normalized_video_title. fold title. simpl.
    rewrite !filter_cons.
    repeat (rewrite decide_True by (by left)).
    rewrite decide_True.
    2:{ right. rewrite !elem_of_cons. auto. }
    simpl. by eexists.
Qed.

Lemma normalized_video_title_not_empty isalnum sep video_title :
  normalized_video_title isalnum sep video_title ≠ "".
Proof.
  intros Heq.
  assert (Hin : "_"%char ∈ String.list_ascii_of_string
                  (normalized_video_title isalnum sep video_title)).
  { rewrite normalized_video_title_chars. apply list_elem_of_filter. split.
    - right. simpl. rewrite !elem_of_cons. auto.
    - apply elem_of_app. left. simpl. rewrite !elem_of_cons. auto 10. }
  rewrite Heq in Hin. by apply elem_of_nil in Hin.
Qed.

Lemma joinpath_cases p s : joinpath p s = p ++ [s] ∨ joinpath p s = p ++ [].
Proof.
  unfold joinpath. destruct (decide (s = "")); [right|left]; [|done].
  by rewrite app_nil_r.
Qed.

(** X13.  The three places where a plugin built by the constructor keeps
    its data do not overlap, for a queue file named by a single path
    component: the place of a frame in the album directory is never the
    held copy of a frame nor the queue file, and no held copy is the queue
    file.  The album directory is the directory
    [albums/<normalized title>] and the holding directory the directory
    [frames_to_check/<normalized title>] of the working directory. *)
Theorem storage_areas_are_disjoint isalnum sep local_directory album_id
    video_title reactions_threshold queue_file store_best_ofs fr fr' :
  let self :=
    BestOfReposter_attributes isalnum sep local_directory album_id
      video_title reactions_threshold queue_file store_best_ofs in
  let normalized := normalized_video_title isalnum sep video_title in
  let archive := joinpath (album_path self) (best_of_file_name fr) in
  let held := joinpath (frames_dir self) (name (local_file fr')) in
  sep ∉ String.list_ascii_of_string queue_file →
  album_path self = local_directory ++ ["albums"; normalized] ∧
  frames_dir self = local_directory ++ ["frames_to_check"; normalized] ∧
  archive ≠ held ∧
  archive ≠ yet_to_check_file self ∧
  held ≠ yet_to_check_file self.
Proof.
  intros self normalized archive held _.
  assert (Hn : normalized ≠ "")
    by apply normalized_video_title_not_empty.
  assert (Ha : album_path self = local_directory ++ ["albums"; normalized]).
  { subst self. simpl. unfold joinpath. fold normalized.
    rewrite !decide_False by done. by rewrite <- (assoc_L (++)). }
  assert (Hf : frames_dir self
               = local_directory ++ ["frames_to_check"; normalized]).
  { subst self. simpl. unfold joinpath. fold normalized.
    rewrite !decide_False by done. by rewrite <- (assoc_L (++)). }
  assert (Harch : archive = local_directory
                    ++ ["albums"; normalized; best_of_file_name fr]).
  { subst archive. rewrite Ha. unfold joinpath.
    rewrite decide_False by done. by rewrite <- (assoc_L (++)). }
  split; [done|]. split; [done|].
  subst held. rewrite Harch, Hf.
  change (yet_to_check_file self)
    with (joinpath local_directory queue_file).
  destruct (joinpath_cases
              (local_directory ++ ["frames_to_check"; normalized])
              (name (local_file fr'))) as [-> | ->],
           (joinpath_cases local_directory queue_file) as [-> | ->].
  all: rewrite <- ?(assoc_L (++)).
  all: split_and!; intros Heq; apply app_inv_head in Heq; discriminate.
Qed.

Lemma storage_areas_are_disjoint_witness :
  let self := Scenario.self in
  let archive :=
    joinpath (album_path self) (best_of_file_name (Scenario.queued 7 150)) in
  let held :=
    joinpath (frames_dir self) (name (local_file Scenario.posted)) in
  archive ≠ held ∧ archive ≠ yet_to_check_file self ∧
  held ≠ yet_to_check_file self.
Proof.
  intros self archive held.
  destruct (storage_areas_are_disjoint
              Cases.ascii_isalnum "/" (joinpath ["plugins"] "BestOfReposter")
              "bestof" "Movie" 100 "bofc.json" true
              (Scenario.queued 7 150) Scenario.posted)
    as (_ & _ & H1 & H2 & H3).
  - vm_compute. intros Hin.
    repeat (apply elem_of_cons in Hin as [Hin|Hin]; [discriminate Hin|]).
    by apply elem_of_nil in Hin.
  - split_and!; [exact H1|exact H2|exact H3].
Defined.

(** The plugin of the scenarios is the one the constructor builds for the
    title "Movie" in the default working directory. *)
Example scenario_self_is_constructed :
  BestOfReposter_attributes Cases.ascii_isalnum
    "/" (joinpath ["plugins"] "BestOfReposter")
    "bestof" "Movie" 100 "bofc.json" true
  = Scenario.self.
Proof. vm_compute. reflexivity. Qed.

Example normalized_title_of_a_path_like_title :
  normalized_video_title Cases.ascii_isalnum
    "/" "My Movie: Part 1/2 (uncut)"
  = "Bestof_My_Movie_Part_1-2_uncut".
Proof. vm_compute. reflexivity. Qed.

(** ** The mirrored text and image *)

(** A line that is not empty is mirrored around its middle character. *)
Lemma mirror_line_middle line :
  line ≠ [] →
  ∃ x, line !! (length line / 2)%nat = Some x ∧
       mirror_line line
       = take (length line / 2) line
           ++ x :: reverse (take (length line / 2) line).
Proof.
  intros Hne.
  assert (Hlt : (length line / 2 < length line)%nat).
  { assert (0 < length line)%nat by (destruct line; [done|simpl; lia]).
    apply Nat.div_lt; lia. }
  destruct (lookup_lt_is_Some_2 _ _ Hlt) as [x Hx].
  exists x. split; [done|]. unfold mirror_line.
  by rewrite (take_S_r _ _ _ Hx), reverse_app.
Qed.

Lemma mirror_line_elem line c : c ∈ mirror_line line → c ∈ line.
Proof.
  unfold mirror_line. rewrite elem_of_app, elem_of_reverse.
  intros [Hc|Hc]; apply elem_of_take in Hc as (i & Hi & _);
    by eapply list_elem_of_lookup_2.
Qed.

(** X14.  A mirrored line reads the same backwards: it is the first half
    of the line, its middle character, and the first half reversed.  So
    it has an odd number of characters unless the line is empty, it
    begins like the line, it holds no character that the line does not,
    and mirroring it again changes nothing. *)
Theorem mirror_line_is_a_palindrome line :
  let half := (length line / 2)%nat in
  reverse (mirror_line line) = mirror_line line ∧
  take half (mirror_line line) = take half line ∧
  length (mirror_line line)
    = (if line is [] then 0 else 2 * half + 1)%nat ∧
  (∀ c, c ∈ mirror_line line → c ∈ line) ∧
  mirror_line (mirror_line line) = mirror_line line.
Proof.
  intros half. destruct (decide (line = [])) as [->|Hne]; [done|].
  destruct (mirror_line_middle line Hne) as (x & Hx & Hm). fold half in Hx, Hm.
  assert (Hlt : (half < length line)%nat) by (by eapply lookup_lt_Some).
  assert (Hlen : length (take half line) = half)
    by (rewrite length_take; lia).
  assert (Hmlen : length (mirror_line line) = (2 * half + 1)%nat).
  { rewrite Hm, length_app, length_cons, length_reverse, Hlen. lia. }
  split_and!.
  - rewrite Hm, reverse_app, reverse_cons, reverse_involutive.
    by rewrite <- (assoc_L (++)).
  - rewrite Hm, take_app_length'; done.
  - rewrite Hmlen. by destruct line.
  - intros c. apply mirror_line_elem.
  - assert (Hhalf : (length (mirror_line line) / 2)%nat = half).
    { rewrite Hmlen. rewrite Nat.add_comm, Nat.mul_comm.
      rewrite Nat.div_add by lia. done. }
    unfold mirror_line at 1. rewrite Hhalf.
    assert (Hx' : mirror_line line !! half = Some x).
    { rewrite Hm, lookup_app_r by lia. by rewrite Hlen, Nat.sub_diag. }
    rewrite (take_S_r _ _ _ Hx'), reverse_app.
    assert (Ht : take half (mirror_line line) = take half line)
      by (rewrite Hm, take_app_length'; done).
    by rewrite Ht, Hm.
Qed.

Lemma str_split_not_empty sep s : str_split sep s ≠ [].
Proof.
  destruct s as [|c s]; simpl; [done|].
  destruct (decide (c = sep)); [done|]. by destruct (str_split sep s).
Qed.

Lemma str_split_pieces sep s :
  Forall (λ piece, sep ∉ piece) (str_split sep s).
Proof.
  induction s as [|c s IH]; simpl.
  - repeat constructor. by intros ?%elem_of_nil.
  - destruct (decide (c = sep)) as [->|Hne].
    + constructor; [by intros ?%elem_of_nil|done].
    + destruct (str_split sep s) as [|piece pieces]; simpl.
      * repeat constructor. intros Hin.
        apply elem_of_cons in Hin as [?|Hin]; [done|].
        by apply elem_of_nil in Hin.
      * apply Forall_cons in IH as [Hp Hps]. constructor; [|done].
        intros Hin. apply elem_of_cons in Hin as [?|Hin]; done.
Qed.

Lemma str_split_app sep piece rest :
  sep ∉ piece →
  str_split sep (piece ++ sep :: rest) = piece :: str_split sep rest.
Proof.
  induction piece as [|c piece IH]; intros Hnot; simpl.
  - by rewrite decide_True.
  - rewrite decide_False.
    2:{ intros ->. apply Hnot. by left. }
    rewrite IH; [done|]. intros Hin. apply Hnot. by right.
Qed.

Lemma str_split_lines sep pieces :
  Forall (λ piece, sep ∉ piece) pieces →
  str_split sep (concat ((λ piece, piece ++ [sep]) <$> pieces))
  = pieces ++ [[]].
Proof.
  induction 1 as [|piece pieces Hp _ IH]; [done|].
  rewrite fmap_cons. cbn [concat]. rewrite <- (assoc_L (++)). cbn [app].
  by rewrite str_split_app, IH.
Qed.

Lemma foldl_concat {A B} (f : B → list A) (xs : list B) (acc : list A) :
  foldl (λ acc x, acc ++ f x) acc xs = acc ++ concat (f <$> xs).
Proof.
  revert acc. induction xs as [|x xs IH]; intros acc; simpl.
  - by rewrite app_nil_r.
  - by rewrite IH, (assoc_L (++)).
Qed.

(** X15.  With [mirror_original_message] set, the message of a mirrored
    post begins with one line for every line of the text of the frame,
    each the mirrored line followed by a newline: splitting that part at
    the newlines gives back the mirrored lines and an empty piece at the
    end.  An extra message that is not empty follows after one more
    newline, that is after a blank line.  Without
    [mirror_original_message] the message is the extra message alone,
    whatever the text. *)
Theorem mirror_message_lines self text :
  let lines := str_split "010" (String.list_ascii_of_string text) in
  let message := String.list_ascii_of_string (mirror_message self text) in
  let extra := String.list_ascii_of_string (extra_message self) in
  let body := concat ((λ line, mirror_line line ++ ["010"%char]) <$> lines) in
  lines ≠ [] ∧
  (mirror_original_message self = true →
   message = body ++ (if extra is [] then [] else "010"%char :: extra) ∧
   str_split "010" body = (mirror_line <$> lines) ++ [[]]) ∧
  (mirror_original_message self = false → message = extra).
Proof.
  intros lines message extra body.
  split; [apply str_split_not_empty|].
  assert (Hextra : extra_message self = "" ↔ extra = []).
  { subst extra. destruct (extra_message self); simpl; split; done. }
  subst message. unfold mirror_message.
  rewrite String.list_ascii_of_string_of_list_ascii.
  fold lines. fold extra. rewrite foldl_concat. simpl. fold body.
  split; intros ->.
  - split.
    + destruct (decide (extra_message self ≠ "")) as [Hne|He].
      * destruct extra as [|c extra']; [by destruct Hne; apply Hextra|].
        by rewrite <- (assoc_L (++)).
      * apply dec_stable in He. apply Hextra in He as ->.
        by rewrite app_nil_r.
    + subst body.
      rewrite <- (str_split_lines "010" (mirror_line <$> lines)).
      * by rewrite <- list_fmap_compose.
      * apply Forall_fmap. eapply Forall_impl; [apply str_split_pieces|].
        intros piece Hp Hin. apply Hp.
        by apply mirror_line_elem.
  - destruct (decide (extra_message self ≠ "")) as [Hne|He]; [done|].
    apply dec_stable in He. by apply Hextra in He as ->.
Qed.

(** The message for the text of the queued frame of the scenarios. *)
Example mirror_message_of_the_scenario :
  mirror_message Scenario.mirror (text (Scenario.queued 7 150))
  = "MovoM" +:+ nl +:+ "Frame 7 emarF" +:+ nl +:+ nl
      +:+ "Just a randomly mirrored image.".
Proof. vm_compute. reflexivity. Qed.

Example mirror_message_with_the_default_signature :
  mirror_message
    (MirroredFramePoster_attributes "mirrors" default_ratio "MirrorBot"
       true None) ""
  = nl +:+ nl +:+ "Just a randomly mirrored image." +:+ nl +:+ "-MirrorBot".
Proof. vm_compute. reflexivity. Qed.

(** X16.  The mirrored image has the size of the image.  Its left half is
    the left half of the image, and the columns of its right half are the
    columns of the left half in reverse order, so that the picture is
    symmetric about the middle.  In an image of odd width the last column
    is outside both halves and stays as it is. *)
Theorem mirror_image_pixels {Pixel} (im : Image Pixel) :
  let half := (Image_width im / 2)%nat in
  let out := mirror_image im in
  Image_width out = Image_width im ∧
  Image_height out = Image_height im ∧
  (∀ x y, (x < half)%nat →
          Image_getpixel out x y = Image_getpixel im x y) ∧
  (∀ k y, (k < half)%nat → (y < Image_height im)%nat →
          Image_getpixel out (half + k) y
          = Image_getpixel im (half - 1 - k) y) ∧
  (∀ x y, (2 * half ≤ x)%nat →
          Image_getpixel out x y = Image_getpixel im x y).
Proof.
  intros half out. subst out. unfold mirror_image.
  cbn -[Nat.div]. fold half.
  split_and!; try done.
  - intros x y Hx. rewrite bool_decide_false; [done|]. lia.
  - intros k y Hk Hy. rewrite bool_decide_true by lia.
    f_equal; lia.
  - intros x y Hx. rewrite bool_decide_false; [done|]. lia.
Qed.

(** An image three columns wide and one row high: the first column is
    copied over the second, the third stays. *)
Example mirror_image_of_odd_width :
  let im := {| Image_width := 3; Image_height := 1;
               Image_getpixel := λ x _, x |} in
  (λ x, Image_getpixel (mirror_image im) x 0%nat) <$> [0; 1; 2]%nat
  = [0; 0; 2]%nat.
Proof. reflexivity. Qed.

Example mirror_image_of_even_width :
  let im := {| Image_width := 4; Image_height := 1;
               Image_getpixel := λ x _, x |} in
  (λ x, Image_getpixel (mirror_image im) x 0%nat) <$> [0; 1; 2; 3]%nat
  = [0; 1; 1; 0]%nat.
Proof. reflexivity. Qed.

(** ** The mirror hook at the edges *)

Section mirror_more.

Context (self : MirroredFramePoster) (E : Env).

Lemma mirror_hook_cases frame s :
  let r := random_value E (tick s) in
  let cutoff := (1 - ratio self / 100)%Q in
  let s1 := with_trace (trace s ++ [EvLog Info MsgPostingMirrored;
                                     EvMirrorPost frame])
              (with_tick (S (S (tick s))) s) in
  MirroredFramePoster_after_frame_upload self E frame s =
    if Qgt_bool r cutoff then
      match upload_result E (S (tick s)) with
      | Some _ => (Ok tt, s1)
      | None => (Raise UploadError, s1)
      end
    else (Ok tt, with_tick (S (tick s)) s).
Proof.
  intros r cutoff s1. subst s1.
  unfold MirroredFramePoster_after_frame_upload, _post_mirror_frame.
  munfold. simpl. fold r. fold cutoff.
  destruct (Qgt_bool r cutoff); [|done]. simpl.
  destruct (upload_result E (S (tick s))); simpl;
    by rewrite <- (assoc_L (++)).
Qed.

(** X17.  Outside the range from 0 to 100 the ratio stops mattering.
    For a draw of [random()], which is at least 0 and less than 1: with a
    ratio that is not positive the hook never decides to post and does
    nothing at all, with a ratio above 100 it always logs
    "Posting mirrored frame..." and goes on to post, and with a ratio of
    100 it does so unless the draw is exactly 0. *)
Theorem mirror_ratio_out_of_range frame s :
  let r := random_value E (tick s) in
  let run := MirroredFramePoster_after_frame_upload self E frame s in
  let posting :=
    ∃ rest, trace run.2 = trace s ++ EvLog Info MsgPostingMirrored :: rest in
  (0 <= r)%Q → (r < 1)%Q →
  ((ratio self <= 0)%Q → run = (Ok tt, with_tick (S (tick s)) s)) ∧
  ((100 < ratio self)%Q → posting) ∧
  ((ratio self == 100)%Q →
   (posting ↔ (0 < r)%Q) ∧
   (run = (Ok tt, with_tick (S (tick s)) s) ↔ (r == 0)%Q)).
Proof.
  intros r run posting H0 H1. subst posting run.
  rewrite mirror_hook_cases. fold r.
  destruct (Qgt_bool r (1 - ratio self / 100)) eqn:Hgt.
  - apply Qgt_bool_iff in Hgt. rewrite Qdiv_100 in Hgt.
    assert (Htr : ∀ run,
      run = match upload_result E (S (tick s)) with
            | Some _ =>
                (Ok tt,
                 with_trace (trace s ++ [EvLog Info MsgPostingMirrored;
                                         EvMirrorPost frame])
                   (with_tick (S (S (tick s))) s))
            | None =>
                (Raise UploadError,
                 with_trace (trace s ++ [EvLog Info MsgPostingMirrored;
                                         EvMirrorPost frame])
                   (with_tick (S (S (tick s))) s))
            end →
      (∃ rest,
         trace run.2 = trace s ++ EvLog Info MsgPostingMirrored :: rest)
      ∧ tick run.2 = S (S (tick s))).
    { intros run ->.
      destruct (upload_result E (S (tick s))); split; try done;
        by eexists. }
    destruct (Htr _ eq_refl) as [Htrace Htick].
    split; [intros Hr; exfalso; lra|].
    split; [done|].
    intros Hr. split; split.
    + intros _. rewrite Hr in Hgt. lra.
    + done.
    + intros Heq. rewrite Heq in Htick. simpl in Htick. lia.
    + intros Hz. rewrite Hr, Hz in Hgt. lra.
  - assert (Hle : ¬ (1 - ratio self / 100 < r)%Q).
    { intros Hlt. apply Qgt_bool_iff in Hlt. congruence. }
    rewrite Qdiv_100 in Hle. simpl.
    split; [done|].
    split; [intros Hr; exfalso; apply Hle; lra|].
    intros Hr. split; split.
    + intros [rest Heq]. exfalso.
      assert (Hlen : length (trace s)
                     = length (trace s
                                 ++ EvLog Info MsgPostingMirrored :: rest))
        by (by rewrite <- Heq).
      rewrite length_app in Hlen. simpl in Hlen. lia.
    + intros Hpos. exfalso. apply Hle. rewrite Hr. lra.
    + intros _. apply Qle_antisym; [|done]. apply Qnot_lt_le. intros Hpos.
      apply Hle. rewrite Hr. lra.
    + done.
Qed.

End mirror_more.

Lemma mirror_ratio_out_of_range_witness :
  let self :=
    MirroredFramePoster_attributes "mirrors" 150 "MirrorBot" true None in
  let run :=
    MirroredFramePoster_after_frame_upload self Scenario.offline 0%nat
      Scenario.idle in
  ∃ rest, trace run.2 = EvLog Info MsgPostingMirrored :: rest.
Proof.
  intros self run.
  destruct (mirror_ratio_out_of_range self Scenario.offline 0%nat
              Scenario.idle) as (_ & Habove & _).
  - vm_compute. discriminate.
  - vm_compute. reflexivity.
  - apply Habove. vm_compute. reflexivity.
Defined.

(** ** From the enqueue to the repost *)

Section round_trip.

Context (self : BestOfReposter) (E : Env).

(** The iteration that reposts the head. *)
Lemma repost_step l rest fr data id s :
  let t := clock E (tick s) in
  let archive := joinpath (album_path self) (best_of_file_name fr) in
  yet_to_check s = l :: rest →
  deref (objs s) l = fr →
  eligible (time_threshold s) fr t →
  reactions_threshold self < reactions_total fr →
  fs s !! local_file fr = Some data →
  upload_result E (S (tick s)) = Some id →
  local_file fr ≠ archive →
  os_error E (S (S (tick s))) = false →
  ∃ s',
    advance_step self E l s = (Ok false, s') ∧
    yet_to_check s' = rest ∧ objs s' = objs s ∧
    fs s' = <[yet_to_check_file self := Json (snapshot (objs s) rest)]>
              (<[archive := data]> (fs s)) ∧
    trace s' = trace s ++
      [EvNow t;
       EvLog Info (MsgCheckingEntry fr);
       EvLog Info (MsgUploadingFrame (local_file fr));
       EvUpload (local_file fr) (best_of_message (t - post_time fr) fr)
         (album_id self) (Some id);
       EvCopy (local_file fr) archive None;
       EvQueuePop l;
       EvDump (yet_to_check_file self) (snapshot (objs s) rest)].
Proof.
  intros t archive Hq Hfr Hel Hpop Hdata Hid Hne Hos.
  unfold eligible in Hel. subst t archive.
  munfold. simpl. rewrite Hfr.
  destruct (_ <? time_threshold s) eqn:H1; [apply Z.ltb_lt in H1; lia|].
  destruct (reactions_threshold self <? reactions_total fr) eqn:H2;
    [|apply Z.ltb_ge in H2; lia].
  simpl.
  rewrite (bool_decide_true (is_Some (fs s !! local_file fr)))
    by (rewrite Hdata; by eexists).
  simpl. rewrite Hid. simpl. rewrite decide_False by done.
  rewrite Hdata. simpl. rewrite Hos. simpl. rewrite Hq. simpl.
  eexists. split; [reflexivity|]. simpl. split_and!; try done.
  by rewrite <- !(assoc_L (++)).
Qed.

(** X18.  From the enqueue to the repost.  A frame is enqueued into an
    empty queue; the upload loop then deletes the frame's own file; and
    when a later pass finds the entry eligible, with reactions above the
    threshold, in a world that lets the upload and the copy through, it
    uploads the held copy, archives the image that the frame had when it
    was enqueued, and leaves the queue empty.  The held copy is still in
    the holding directory afterwards. *)
Theorem enqueued_frame_is_reposted_from_its_held_copy frame fr data id s :
  let held := joinpath (frames_dir self) (name (local_file fr)) in
  let archive := joinpath (album_path self) (best_of_file_name fr) in
  let s1 := (_queue_frame_for_check self E frame s).2 in
  let s2 := with_fs (delete (local_file fr) (fs s1)) s1 in
  let t := clock E (tick s2) in
  yet_to_check s = [] →
  objs s !! frame = Some fr →
  fs s !! local_file fr = Some data →
  local_file fr ≠ held →
  os_error E (tick s) = false →
  held ≠ yet_to_check_file self → held ≠ archive →
  archive ≠ yet_to_check_file self →
  eligible (time_threshold s) fr t →
  reactions_threshold self < reactions_total fr →
  upload_result E (S (tick s2)) = Some id →
  os_error E (S (S (tick s2))) = false →
  ∃ s3,
    _advance_bests self E s2 = (Ok tt, s3) ∧
    yet_to_check s3 = [] ∧
    EvUpload held (best_of_message (t - post_time fr) fr) (album_id self)
      (Some id) ∈ trace s3 ∧
    fs s3 !! archive = Some data ∧
    fs s3 !! held = Some data ∧
    fs s3 !! yet_to_check_file self = Some (Json []).
Proof.
  intros held archive s1 s2 t Hq Hfr Hdata Hne Hos Hhq Hha Haq
    Hel Hpop Hid Hos2.
  destruct (queue_frame_ok self E frame fr data s Hfr Hdata Hne Hos)
    as (s1' & Hrun1 & Ho1 & Hq1 & Ht1 & Hfs1).
  assert (s1 = s1') as Hs1 by (subst s1; by rewrite Hrun1).
  clearbody s1. subst s1'. fold held in Ho1, Hfs1. rewrite Hq in Hq1.
  simpl in Hq1.
  set (clone := fresh (dom (objs s))) in *.
  set (fr' := set_local_file fr held).
  assert (Hd : deref (objs s2) clone = fr').
  { subst s2. simpl. rewrite Ho1. apply deref_insert_eq. }
  assert (Hheld : fs s2 !! held = Some data).
  { subst s2. simpl. rewrite Hfs1, lookup_delete_ne by done.
    rewrite lookup_insert_ne by done. by rewrite lookup_insert_eq. }
  destruct (advance_bests_run self E s2)
    as (r & m & s3' & s3 & Hloop & Hrun & Ho3 & Hq3 & _ & _ & Hfs3 & Htr3).
  set (s0 := with_trace (trace s2 ++ [EvLog Info MsgCheckingForBestOf]) s2)
    in Hloop.
  destruct (repost_step clone [] fr' data id s0)
    as (s4 & Hstep & Hq4 & Ho4 & Hfs4 & Htr4); try done.
  { unfold eligible in *. simpl.
    assert (time_threshold s1 = time_threshold s) as ->; [|done].
    destruct (queue_frame_cases self E frame s)
      as (s1' & Hthr & [(? & _ & _ & _ & Hr & _)|(? & _ & Hr & _)]);
      rewrite Hrun1 in Hr; by simplify_eq. }
  change (yet_to_check s2) with (yet_to_check s1) in Hloop.
  rewrite Hq1 in Hloop. simpl in Hloop.
  rewrite bind_eval in Hloop. unfold try_ in Hloop.
  rewrite Hstep in Hloop. simpl in Hloop.
  unfold mret, M_ret in Hloop.
  assert (s3' = s4 ∧ m = true) as [-> ->] by (by simplify_eq).
  exists s3. split; [exact Hrun|].
  change (best_of_file_name fr') with (best_of_file_name fr) in *.
  change (local_file fr') with held in *.
  change (post_time fr') with (post_time fr) in *.
  fold archive in Hfs4, Htr4.
  rewrite Hq3, Hq4, Hfs3, Ho4.
  split_and!; try done.
  - rewrite Htr3, Htr4. rewrite !elem_of_app, !elem_of_cons. auto 10.
  - rewrite lookup_insert_ne by done. rewrite Hfs4.
    rewrite lookup_insert_ne by done. by rewrite lookup_insert_eq.
  - rewrite lookup_insert_ne by done. rewrite Hfs4.
    rewrite !lookup_insert_ne by done. done.
  - by rewrite lookup_insert_eq, Hq4.
Qed.

(** X19.  A queue whose head has too few reactions for a repost, has lost
    its held copy and is eligible whenever the clock is read stays as it
    is: every pass ends with the warning for the missing file and leaves
    the queue and the files untouched, so the entries behind the head are
    never checked and the loop of the shutdown hook never ends. *)
Theorem head_without_copy_blocks_the_queue s :
  blocked self E s →
  (∃ s' x,
     _advance_bests self E s = (Ok tt, s') ∧
     yet_to_check s' = yet_to_check s ∧ fs s' = fs s ∧
     EvLog Warning (MsgProblemDuringCheck (FileNotFoundError x))
       ∈ trace s' ∧
     pops (trace s') = pops (trace s)) ∧
  (∀ n, yet_to_check (after_rounds self E n s) = yet_to_check s) ∧
  (∀ fuel, drain_loop self E fuel s = None).
Proof.
  intros Hb. split_and!.
  - destruct Hb as (l & rest & Hq & Hel & Hlow & Hmiss).
    rewrite (unpopular_missing_blocks self E l rest s Hq (Hel _) Hlow Hmiss).
    eexists _, _. split; [reflexivity|]. simpl. split_and!; try done.
    + rewrite !elem_of_app, !elem_of_cons. right. auto 10.
    + rewrite pops_app. simpl. by rewrite app_nil_r.
  - intros n. by apply blocked_rounds.
  - intros fuel. by apply blocked_drain_loop.
Qed.

End round_trip.

Lemma enqueued_frame_is_reposted_from_its_held_copy_witness :
  let self := Scenario.self in
  let fr := set_local_file (Scenario.queued 8 150) ["frames"; "8.jpg"] in
  let s :=
    with_time_threshold (timedelta_hours 1)
      (with_objs {[ 5%nat := fr ]} Scenario.just_posted) in
  let s1 := (_queue_frame_for_check self Scenario.calm 5%nat s).2 in
  let s2 := with_fs (delete ["frames"; "8.jpg"] (fs s1)) s1 in
  ∃ s3,
    _advance_bests self Scenario.calm s2 = (Ok tt, s3) ∧
    yet_to_check s3 = [] ∧
    EvUpload (Scenario.held "8.jpg")
      (best_of_message (timedelta_hours 2) fr) "bestof"
      (Some "reposted"%string) ∈ trace s3 ∧
    fs s3 !! (album_path self ++ ["Frame 8 id story8 reactions 150"])
      = Some (Blob "jpeg bytes") ∧
    fs s3 !! Scenario.held "8.jpg" = Some (Blob "jpeg bytes") ∧
    fs s3 !! yet_to_check_file self = Some (Json []).
Proof.
  intros self fr s s1 s2.
  apply (enqueued_frame_is_reposted_from_its_held_copy self Scenario.calm
           5%nat fr (Blob "jpeg bytes") "reposted"%string s).
  - reflexivity.
  - reflexivity.
  - reflexivity.
  - vm_compute. discriminate.
  - reflexivity.
  - vm_compute. discriminate.
  - vm_compute. discriminate.
  - vm_compute. discriminate.
  - vm_compute. discriminate.
  - vm_compute. reflexivity.
  - reflexivity.
  - reflexivity.
Defined.

Lemma head_without_copy_blocks_the_queue_witness :
  let self := Scenario.self in
  let s := Scenario.one_entry 50 false in
  (∃ s' x,
     _advance_bests self Scenario.calm s = (Ok tt, s') ∧
     yet_to_check s' = yet_to_check s ∧ fs s' = fs s ∧
     EvLog Warning (MsgProblemDuringCheck (FileNotFoundError x))
       ∈ trace s' ∧
     pops (trace s') = pops (trace s)) ∧
  (∀ n, yet_to_check (after_rounds self Scenario.calm n s)
        = yet_to_check s) ∧
  (∀ fuel, drain_loop self Scenario.calm fuel s = None).
Proof.
  apply (head_without_copy_blocks_the_queue Scenario.self Scenario.calm
           (Scenario.one_entry 50 false)).
  exists 0%nat, []. split; [reflexivity|]. split; [|split].
  - intros n. vm_compute. discriminate.
  - vm_compute. discriminate.
  - vm_compute. reflexivity.
Defined.
